(** * Mondis: a cache layer in front of a document database

    Shallow embedding of the cache-consistency core:
    - [MongoOperators]: src/CachedQuery/mongoOperators.ts, the in-memory
      emulation of update operators, on a heap of objects;
    - [Redis]: the key/set store the cache lives in;
    - [CachedQuery]: src/CachedQuery/index.ts, cache keys and the cached
      execution protocol;
    - [Handler]: src/CachedQuery/invalidation/handler.ts, the invalidation
      handler;
    - [Invalidation]: the invalidation handler that precedes it, with
      insert invalidation, the parsing of cache keys and rehydration;
    - [Json], [Sample], [Scenario]: an instance of what the code imports
      and the data of the scenarios, to run the definitions.
    The facts proved follow the definitions. *)

From stdpp Require Import gmap strings list fin_maps pretty.
From Stdlib Require Import ZArith Ascii.

Set Warnings "-register-all,-clear-no-such-hyp".

(** ** Outcomes of code that may throw *)

Inductive result (A : Type) : Type :=
| Ok (a : A)
| Throw (msg : string).
Arguments Ok {A} a.
Arguments Throw {A} msg.

Definition is_ok {A} (r : result A) : bool :=
  match r with Ok _ => true | Throw _ => false end.

Definition result_bind {A B} (r : result A) (k : A -> result B) : result B :=
  match r with Ok a => k a | Throw m => Throw m end.

(** ** Numbers

    A number of the language is modelled as an integer, [NaN] or one of the
    two infinities; fractions, rounding and the sign of zero are outside
    the model. *)

Inductive number : Type :=
| NaN
| Num (z : Z)
| PosInf
| NegInf.

Global Instance number_eq_dec : EqDecision number.
Proof. solve_decision. Defined.

Definition Infinity : number := PosInf.

Definition num_add (a b : number) : number :=
  match a, b with
  | NaN, _ | _, NaN => NaN
  | Num x, Num y => Num (x + y)
  | PosInf, NegInf | NegInf, PosInf => NaN
  | PosInf, _ | _, PosInf => PosInf
  | NegInf, _ | _, NegInf => NegInf
  end.

Definition num_mul (a b : number) : number :=
  match a, b with
  | NaN, _ | _, NaN => NaN
  | Num x, Num y => Num (x * y)
  | Num x, PosInf | PosInf, Num x =>
      if (x =? 0)%Z then NaN else if (0 <? x)%Z then PosInf else NegInf
  | Num x, NegInf | NegInf, Num x =>
      if (x =? 0)%Z then NaN else if (0 <? x)%Z then NegInf else PosInf
  | PosInf, PosInf | NegInf, NegInf => PosInf
  | PosInf, NegInf | NegInf, PosInf => NegInf
  end.

(** [a < b] on numbers: false as soon as one side is [NaN]. *)
Definition num_lt (a b : number) : bool :=
  match a, b with
  | NaN, _ | _, NaN => false
  | Num x, Num y => (x <? y)%Z
  | NegInf, NegInf => false
  | NegInf, _ => true
  | Num _, PosInf => true
  | _, _ => false
  end.

Definition num_gt (a b : number) : bool := num_lt b a.

(** Truthiness of a number: [0] and [NaN] are falsy. *)
Definition num_truthy (a : number) : bool :=
  match a with
  | NaN => false
  | Num z => negb (z =? 0)%Z
  | _ => true
  end.

(** ** Strings *)

(** [s.includes(needle)] *)
Fixpoint str_includes (needle s : string) : bool :=
  String.prefix needle s ||
  match s with
  | EmptyString => false
  | String _ s' => str_includes needle s'
  end.

(** [s.charAt(0)], the empty string when [s] is empty *)
Definition charAt0 (s : string) : string :=
  match s with
  | EmptyString => EmptyString
  | String c _ => String c EmptyString
  end.

(** [parts.join(sep)] *)
Fixpoint join (sep : string) (parts : list string) : string :=
  match parts with
  | [] => EmptyString
  | [p] => p
  | p :: rest => p +:+ sep +:+ join sep rest
  end.

(** * src/CachedQuery/mongoOperators.ts *)

Module MongoOperators.

(** ** Values and the heap

    Targets are mutated in place and arrays are pushed to through the
    reference [getValue] returns, so objects live in a heap and a value of
    the language is a primitive or a reference. *)

Definition loc := positive.

Inductive value : Type :=
| VUndefined
| VNull
| VBool (b : bool)
| VNum (n : number)
| VStr (s : string)
| VRef (l : loc).

Global Instance value_eq_dec : EqDecision value.
Proof. solve_decision. Defined.

Inductive object : Type :=
| OObj (fields : list (string * value))
| OArr (elems : list value)
| ODate (time : number).

Abbreviation heap := (gmap loc object).

(** Truthiness ([!val] is its negation). *)
Definition truthy (v : value) : bool :=
  match v with
  | VUndefined | VNull => false
  | VBool b => b
  | VNum n => num_truthy n
  | VStr s => negb (String.eqb s EmptyString)
  | VRef _ => true
  end.

(** [a === b], also the equality of [Array.prototype.includes]
    (SameValueZero): the two differ only on [NaN] and on the sign of zero,
    and the model of numbers has one zero. Objects are equal when they are
    the same object. *)
Definition sameValueZero (a b : value) : bool := bool_decide (a = b).

Definition strictEq (a b : value) : bool :=
  match a, b with
  | VNum NaN, _ | _, VNum NaN => false
  | _, _ => bool_decide (a = b)
  end.

(** [found.includes(val)] *)
Definition includes (found : list value) (val : value) : bool :=
  existsb (sameValueZero val) found.

(** Fields of an object, in insertion order: [o[k]], [o[k] = v] and
    [delete o[k]]. *)
Fixpoint assoc_get {A} (k : string) (fs : list (string * A)) : option A :=
  match fs with
  | [] => None
  | (k', v) :: rest => if String.eqb k k' then Some v else assoc_get k rest
  end.

Fixpoint assoc_set {A} (k : string) (v : A) (fs : list (string * A))
  : list (string * A) :=
  match fs with
  | [] => [(k, v)]
  | (k', v') :: rest =>
      if String.eqb k k' then (k, v) :: rest else (k', v') :: assoc_set k v rest
  end.

Fixpoint assoc_del {A} (k : string) (fs : list (string * A))
  : list (string * A) :=
  match fs with
  | [] => []
  | (k', v') :: rest =>
      if String.eqb k k' then rest else (k', v') :: assoc_del k rest
  end.

(** ** Stateful code: a heap threaded through, with exceptions

    A throw keeps the heap as it was when thrown: writes made before it stay. *)

Definition M (A : Type) : Type := heap -> result A * heap.

Definition ret {A} (a : A) : M A := fun h => (Ok a, h).
Definition throw {A} (msg : string) : M A := fun h => (Throw msg, h).
Definition bind {A B} (m : M A) (k : A -> M B) : M B :=
  fun h => match m h with
           | (Ok a, h') => k a h'
           | (Throw msg, h') => (Throw msg, h')
           end.

Notation "x <- m ;; k" := (bind m (fun x => k))
  (at level 100, m at next level, right associativity).
Notation "m ;;; k" := (bind m (fun _ => k))
  (at level 100, right associativity).

(** [xs.forEach(f)] *)
Fixpoint forEach {A} (f : A -> M unit) (xs : list A) : M unit :=
  match xs with
  | [] => ret tt
  | x :: rest => f x ;;; forEach f rest
  end.

(** [new] object at a fresh address *)
Definition alloc (o : object) : M value :=
  fun h => let l := fresh (dom h) in (Ok (VRef l), <[l := o]> h).

(** ** ./lib: [getValue], [setValue], [unsetValue], [updateValue] *)

(** Modelled from the spec: [getValue] of ./lib is not in src. It reads the
    value a path holds in the target, [undefined] when the path is missing;
    a path is taken as the name of one field of the target. *)
Definition getValue (h : heap) (target : loc) (path : string) : value :=
  match h !! target with
  | Some (OObj fs) => default VUndefined (assoc_get path fs)
  | _ => VUndefined
  end.

(** Modelled from the spec: [setValue] of ./lib is not in src. It writes a
    path of the target directly. *)
Definition setValue (target : loc) (path : string) (v : value) : M unit :=
  fun h =>
    match h !! target with
    | Some (OObj fs) => (Ok tt, <[target := OObj (assoc_set path v fs)]> h)
    | _ => (Ok tt, h)
    end.

(** Modelled from the spec: [unsetValue] of ./lib is not in src. It removes
    a path of the target and returns what the path held. *)
Definition unsetValue (target : loc) (path : string) : M value :=
  fun h =>
    match h !! target with
    | Some (OObj fs) =>
        (Ok (default VUndefined (assoc_get path fs)),
         <[target := OObj (assoc_del path fs)]> h)
    | _ => (Ok VUndefined, h)
    end.

(** Modelled from the spec: [updateValue] of ./lib is not in src. It hands
    the value found at the path ([undefined] when missing) to the callback
    and writes what the callback returns; a callback that throws leaves the
    target as it was. *)
Definition updateValue (target : loc) (path : string)
    (fn : value -> result value) : M unit :=
  fun h =>
    match fn (getValue h target path) with
    | Ok v => setValue target path v h
    | Throw msg => (Throw msg, h)
    end.

(** ** The operators *)

Inductive operator : Type :=
| OpInc | OpMin | OpMax | OpMul | OpRename | OpSet | OpSetOnInsert
| OpUnset | OpAddToSet | OpPop | OpPush.

Global Instance operator_eq_dec : EqDecision operator.
Proof. solve_decision. Defined.

Definition operators : list operator :=
  [OpInc; OpMin; OpMax; OpMul; OpRename; OpSet; OpSetOnInsert;
   OpUnset; OpAddToSet; OpPop; OpPush].

Definition operator_name (op : operator) : string :=
  match op with
  | OpInc => "$inc" | OpMin => "$min" | OpMax => "$max" | OpMul => "$mul"
  | OpRename => "$rename" | OpSet => "$set" | OpSetOnInsert => "$setOnInsert"
  | OpUnset => "$unset" | OpAddToSet => "$addToSet" | OpPop => "$pop"
  | OpPush => "$push"
  end.

(** The operator a name stands for, if it is one of [operators]. *)
Definition operator_of_name (name : string) : option operator :=
  List.find (fun op => String.eqb (operator_name op) name) operators.

Definition isSupportedOperator (name : string) : bool :=
  bool_decide (is_Some (operator_of_name name)).

Section Handlers.

(** The language's [<] on two arbitrary values (it converts objects and
    strings before it compares) is left as a parameter. *)
Variable lessThan : heap -> value -> value -> bool.

(** The amount [$inc] adds: the immediately-invoked function of the
    handler. *)
Definition inc_amount (val : value) : M number :=
  fun h =>
    match val with
    | VNum NaN => (Throw "$inc amount must be a numeric type", h)
    | VNum n => (Ok n, h)
    | VBool true => (Ok (Num 1), h)
    | VBool false => (Ok (Num 0), h)
    | VRef l =>
        match h !! l with
        | Some (ODate t) => (Ok t, h)
        | _ => (Throw "$inc amount must be a numeric type", h)
        end
    | _ => (Throw "$inc amount must be a numeric type", h)
    end.

(** [$inc] *)
Definition op_inc (target : loc) (path : string) (val : value) : M unit :=
  num <- inc_amount val ;;
  updateValue target path (fun found =>
    match found with
    | VUndefined => Ok val
    | VNum f => Ok (VNum (num_add f num))
    | _ => Throw "$inc target field must be a numeric type"
    end).

(** [$min] *)
Definition op_min (target : loc) (path : string) (val : value) : M unit :=
  fun h =>
    let current := getValue h target path in
    if lessThan h val current then setValue target path val h else (Ok tt, h).

(** [$max] *)
Definition op_max (target : loc) (path : string) (val : value) : M unit :=
  fun h =>
    let current := getValue h target path in
    if lessThan h current val then setValue target path val h else (Ok tt, h).

(** [$mul] *)
Definition op_mul (target : loc) (path : string) (val : value) : M unit :=
  match val with
  | VNum n =>
      updateValue target path (fun found =>
        match found with
        | VUndefined => Ok (VNum (Num 0))
        | VNum f => Ok (VNum (num_mul f n))
        | _ => Throw "$mul target field must be a numeric type"
        end)
  | _ => throw "$mul target field must be a number"
  end.

(** [$rename] *)
Definition op_rename (target : loc) (path : string) (val : value) : M unit :=
  match val with
  | VStr dest =>
      found <- unsetValue target path ;;
      setValue target dest found
  | _ => throw "$rename target field must be a string"
  end.

(** [$set] *)
Definition op_set (target : loc) (path : string) (val : value) : M unit :=
  setValue target path val.

(** [$setOnInsert]: nothing to do for a document that exists. *)
Definition op_setOnInsert (target : loc) (path : string) (val : value)
  : M unit := ret tt.

(** [$unset] *)
Definition op_unset (target : loc) (path : string) (val : value) : M unit :=
  unsetValue target path ;;; ret tt.

(** The array a found value refers to, if it is one ([Array.isArray]). *)
Definition as_array (h : heap) (found : value) : option (loc * list value) :=
  match found with
  | VRef a => match h !! a with
              | Some (OArr xs) => Some (a, xs)
              | _ => None
              end
  | _ => None
  end.

(** [$addToSet] *)
Definition op_addToSet (target : loc) (path : string) (val : value)
  : M unit :=
  fun h =>
    let found := getValue h target path in
    match found with
    | VUndefined =>
        (arr <- alloc (OArr [val]) ;; setValue target path arr) h
    | _ =>
        match as_array h found with
        | Some (a, xs) =>
            if includes xs val then (Ok tt, h)
            else (Ok tt, <[a := OArr (xs ++ [val])]> h)
        | None => (Throw "$addToSet target field must be an array", h)
        end
    end.

(** [$pop]: [shift] drops the first element, [pop] the last. *)
Definition op_pop (target : loc) (path : string) (val : value) : M unit :=
  fun h =>
    let found := getValue h target path in
    match found with
    | VUndefined => (Ok tt, h)
    | _ =>
        match as_array h found with
        | Some (a, xs) =>
            if strictEq val (VNum (Num 1)) || strictEq val (VBool true)
            then (Ok tt, <[a := OArr (tail xs)]> h)
            else if strictEq val (VNum (Num (-1)))
            then (Ok tt, <[a := OArr (removelast xs)]> h)
            else (Throw "$pop value must be 1 or -1", h)
        | None => (Throw "$pop target field must be an array", h)
        end
    end.

(** [$push] *)
Definition op_push (target : loc) (path : string) (val : value) : M unit :=
  fun h =>
    let found := getValue h target path in
    match found with
    | VUndefined =>
        (arr <- alloc (OArr [val]) ;; setValue target path arr) h
    | _ =>
        match as_array h found with
        | Some (a, xs) => (Ok tt, <[a := OArr (xs ++ [val])]> h)
        | None => (Throw "$push target field must be an array", h)
        end
    end.

Definition handlers (op : operator) : loc -> string -> value -> M unit :=
  match op with
  | OpInc => op_inc
  | OpMin => op_min
  | OpMax => op_max
  | OpMul => op_mul
  | OpRename => op_rename
  | OpSet => op_set
  | OpSetOnInsert => op_setOnInsert
  | OpUnset => op_unset
  | OpAddToSet => op_addToSet
  | OpPop => op_pop
  | OpPush => op_push
  end.

(** ** Parsing an update expression *)

(** [Array.isArray(v)] *)
Definition isArray (h : heap) (v : value) : bool :=
  match as_array h v with Some _ => true | None => false end.

(** [Object.entries(v)] for a value that is neither [null] nor
    [undefined]: the fields of an object, the indexed elements of an array
    or of a string, nothing for a date, a number or a boolean. *)
Definition objectEntries (h : heap) (v : value) : list (string * value) :=
  match v with
  | VRef l =>
      match h !! l with
      | Some (OObj fs) => fs
      | Some (OArr xs) => imap (fun i x => (pretty i, x)) xs
      | _ => []
      end
  | VStr s =>
      imap (fun i c => (pretty i, VStr (String c EmptyString)))
           (String.list_ascii_of_string s)
  | _ => []
  end.

(** What an operator of a parsed update holds: the [$set] object the
    parser builds itself, or the operator's own value, by reference. *)
Inductive paths : Type :=
| SetPaths (fs : list (string * value))
| OwnPaths (v : value).

(** [Partial<MongoOperators>]: operator name to its paths, in insertion
    order. *)
Definition parsedUpdate : Type := list (string * paths).

Definition addFieldToSetOp (key : string) (val : value)
    (res : parsedUpdate) : parsedUpdate :=
  match assoc_get "$set" res with
  | Some (SetPaths fs) => assoc_set "$set" (SetPaths (assoc_set key val fs)) res
  | _ => assoc_set "$set" (SetPaths [(key, val)]) res
  end.

(** [assertOperatorIsValid] *)
Definition assertOperatorIsValid (key : string) (val : value) : result unit :=
  match val with
  | VRef _ => Ok tt
  | _ => Throw ("Invalid operator value for " +:+ key)
  end.

(** One round of the [forEach] over the entries of the input. *)
Definition parseEntry (h : heap) (res : parsedUpdate)
    (entry : string * value) : result parsedUpdate :=
  let '(key, val) := entry in
  if negb (String.eqb (charAt0 key) "$") then
    Ok (addFieldToSetOp key val res)
  else if isSupportedOperator key then
    if negb (truthy val) then Ok res
    else
      result_bind (assertOperatorIsValid key val) (fun _ =>
        if String.eqb key "$set" then
          Ok (fold_left (fun acc '(setKey, setVal) => addFieldToSetOp setKey setVal acc)
                        (objectEntries h val) res)
        else Ok (assoc_set key (OwnPaths val) res))
  else Throw ("Unsupported update operator " +:+ key).

Fixpoint parseEntries (h : heap) (res : parsedUpdate)
    (entries : list (string * value)) : result parsedUpdate :=
  match entries with
  | [] => Ok res
  | e :: rest =>
      result_bind (parseEntry h res e) (fun res' =>
        parseEntries h res' rest)
  end.

(** [parseUpdateQuery] *)
Definition parseUpdateQuery (h : heap) (input : value)
  : result parsedUpdate :=
  if negb (truthy input) then Ok []
  else if isArray h input then
    Throw "Updating with aggregation pipeline is not supported"
  else parseEntries h [] (objectEntries h input).

(** [buildUpsertedDocument]: a new empty object, whatever it is given. *)
Definition buildUpsertedDocument (filter : list (string * value))
    (update : parsedUpdate) : M value :=
  alloc (OObj []).

(** ** [applyUpdates] *)

Record ApplyUpdatesOptions : Type := {
  update : value;
  filter : option (list (string * value));
  upsert : option bool;
}.

Definition entriesOfPaths (h : heap) (p : paths) : list (string * value) :=
  match p with
  | SetPaths fs => fs
  | OwnPaths v => objectEntries h v
  end.

(** The inner [forEach] of [applyUpdates]: one path of one operator, applied
    to every target. *)
Definition applyPath (handler : loc -> string -> value -> M unit)
    (targets : list loc) (entry : string * value) : M unit :=
  let '(path, val) := entry in
  if bool_decide (val = VUndefined) then ret tt
  else if str_includes ".$" path then
    throw "Updating arrays with <field>.$ is unsupported"
  else forEach (fun target => handler target path val) targets.

(** The outer [forEach] of [applyUpdates]: one operator. *)
Definition applyOperator (targets : list loc) (entry : string * paths)
  : M unit :=
  let '(op, ps) := entry in
  match operator_of_name op with
  | None => throw ("Unsupported update operator " +:+ op)
  | Some o =>
      fun h => forEach (applyPath (handlers o) targets) (entriesOfPaths h ps) h
  end.

Definition applyUpdates (targets : list loc) (options : ApplyUpdatesOptions)
  : M value :=
  fun h =>
    match parseUpdateQuery h (update options) with
    | Throw msg => (Throw msg, h)
    | Ok upd =>
        match targets with
        | [] =>
            if negb (default false (upsert options)) then (Ok VNull, h)
            else buildUpsertedDocument (default [] (filter options)) upd h
        | _ =>
            (forEach (applyOperator targets) upd ;;; ret VNull) h
        end
    end.

End Handlers.

End MongoOperators.

(** * Documents and the store *)

(** Plain data as the cache layer sees it: filters, parameters and the
    fields of the lean documents a query returns. *)
Inductive jvalue : Type :=
| JUndefined
| JNull
| JBool (b : bool)
| JNum (n : number)
| JStr (s : string)
| JObjectId (hex : string)
| JArr (elems : list jvalue)
| JObj (fields : list (string * jvalue)).

(** [HasObjectId]: a document, with its [_id]. *)
Record Doc : Type := {
  _id : string;
  doc_fields : list (string * jvalue);
}.

(** [doc[key]] *)
Definition doc_get (doc : Doc) (key : string) : jvalue :=
  if String.eqb key "_id" then JObjectId (_id doc)
  else default JUndefined (MongoOperators.assoc_get key (doc_fields doc)).

(** The key/set store behind [context.redis]. *)
Module Redis.

(** What a field of a keyed record holds: a serialized result (the buffer
    [serialize] makes of an array of documents, which
    [Object.values(deserialize(_))] gives back) or a string. *)
Inductive field : Type :=
| Buffer (docs : list Doc)
| Text (s : string).

Definition serialize (result : list Doc) : field := Buffer result.

(** The state of the store, as the key space the code uses: keyed records
    with named fields ([Q:] keys) and sets of strings ([O:], [P:] and [A:]
    keys). Expiry is not modelled: time does not pass while an operation
    runs, and no command fails. *)
Record store : Type := {
  records : gmap string (gmap string field);
  sets : gmap string (gset string);
}.

Definition empty : store := {| records := ∅; sets := ∅ |}.

Inductive command : Type :=
| Del (key : string)
| Hset (key fld : string) (val : field)
| Sadd (key member : string)
| Expiregt (key : string) (ttl : number)
| Delquery (key : string).

Definition exists_key (st : store) (key : string) : bool :=
  bool_decide (is_Some (records st !! key)) ||
  bool_decide (is_Some (sets st !! key)).

Definition smembers (st : store) (key : string) : gset string :=
  default ∅ (sets st !! key).

Definition bool_reply (b : bool) : Z := if b then 1%Z else 0%Z.

(** Modelled from the spec: [delquery] is a command defined outside src.
    It deletes a key and reports whether it existed; a key that does not
    exist is left alone and reported as 0. *)
Definition delquery (key : string) (st : store) : store * Z :=
  ({| records := delete key (records st); sets := sets st |},
   bool_reply (bool_decide (is_Some (records st !! key)))).

(** Modelled from the spec: [expiregt] is a command defined outside src.
    It sets a relative expiry; with no time in the model it changes
    nothing. *)
Definition expiregt (key : string) (ttl : number) (st : store) : store * Z :=
  (st, bool_reply (exists_key st key)).

(** One command: the state after it and its integer reply. *)
Definition run_command (c : command) (st : store) : store * Z :=
  match c with
  | Del key =>
      ({| records := delete key (records st); sets := delete key (sets st) |},
       bool_reply (exists_key st key))
  | Hset key fld val =>
      let old := default ∅ (records st !! key) in
      ({| records := <[key := <[fld := val]> old]> (records st);
          sets := sets st |},
       bool_reply (bool_decide (old !! fld = None)))
  | Sadd key member =>
      let old := smembers st key in
      ({| records := records st;
          sets := <[key := {[member]} ∪ old]> (sets st) |},
       bool_reply (bool_decide (member ∉ old)))
  | Expiregt key ttl => expiregt key ttl st
  | Delquery key => delquery key st
  end.

(** [multi.exec()]: the queued commands run in order as one batch; the
    result holds, per command, an error (none here) and the reply. *)
Fixpoint run_batch (cmds : list command) (st : store)
  : store * list (option string * Z) :=
  match cmds with
  | [] => (st, [])
  | c :: rest =>
      let '(st1, r) := run_command c st in
      let '(st2, rs) := run_batch rest st1 in
      (st2, (None, r) :: rs)
  end.

Definition multi_exec (cmds : list command) (st : store)
  : store * option (list (option string * Z)) :=
  let '(st', rs) := run_batch cmds st in (st', Some rs).

(** [hgetBuffer(key, fld)] *)
Definition hgetBuffer (st : store) (key fld : string) : option (list Doc) :=
  match records st !! key with
  | Some r => match r !! fld with
              | Some (Buffer docs) => Some docs
              | _ => None
              end
  | None => None
  end.

(** [sunion(...keys)]: the members of the union; the command is refused
    when it is given no key. *)
Definition sunion (st : store) (keys : list string) : result (list string) :=
  match keys with
  | [] => Throw "ERR wrong number of arguments for 'sunion' command"
  | _ => Ok (elements (⋃ (smembers st <$> keys) : gset string))
  end.

End Redis.

(** * src/CachedQuery/index.ts *)

Module CachedQuery.

Import Redis.

(** The filter of a definition: static, or a function of the call's
    parameters, whose [length] is the number of parameters it declares. *)
Inductive QueryFilterDef : Type :=
| StaticQuery (filter : jvalue)
| DynamicQuery (arity : nat) (fn : list jvalue -> jvalue).

(** [CachedQueryConfig] (./config), by the fields the code reads. *)
Record CachedQueryConfig : Type := {
  model : string;
  query : QueryFilterDef;
  select : option jvalue;
  sort : option jvalue;
  populate : list jvalue;
  cacheCount : number;
  expiry : number;
  unique : bool;
  invalidateOnInsert : bool;
  rehydrate : bool;
}.

Definition with_query (c : CachedQueryConfig) (q : QueryFilterDef)
  : CachedQueryConfig :=
  {| model := model c; query := q; select := select c; sort := sort c;
     populate := populate c; cacheCount := cacheCount c; expiry := expiry c;
     unique := unique c; invalidateOnInsert := invalidateOnInsert c;
     rehydrate := rehydrate c |}.

(** The query the source of truth is asked: what [buildQuery] chains on
    [model.find]. *)
Record MongoQuery : Type := {
  q_model : string;
  q_filter : jvalue;
  q_limit : option number;
  q_sort : option jvalue;
  q_skip : option number;
  q_select : option jvalue;
  q_populate : list jvalue;
}.

(** The classification of a definition, as the invalidation handler reads
    it off [cq.classification]. *)
Record Classification : Type := {
  matcher : Doc -> bool;
  dynamicKeys : list string;
  complexQuery : bool;
}.

(** [Mondis], the context: the source of truth answers a built query
    ([lean().exec()]). The store is the state the operations thread. *)
Record Mondis : Type := {
  mongoose : MongoQuery -> list Doc;
}.

Record CachedQuery : Type := {
  context : Mondis;
  config : CachedQueryConfig;
  classification : Classification;
}.

(** What the module imports and src does not hold. [EJSON_stringify] and
    [JSON_parse] are library functions (the second one for a text that
    starts an array: the array, or nothing when the parse throws);
    [jsonHash], [collectPopulatedIds] and [skipAndLimit] are the helpers of
    ./utils. They are parameters of the development. *)
Class Imports : Type := {
  EJSON_stringify : list jvalue -> string;
  JSON_parse : string -> option (list jvalue);
  jsonHash : CachedQueryConfig -> string;
  collectPopulatedIds : list Doc -> list jvalue -> list string;
  skipAndLimit : list Doc -> number -> option number -> list Doc;
}.

Record QueryExecOpts : Type := {
  skip : option number;
  limit : option number;
  filter : option (Doc -> bool);
  skipCache : option bool;
}.

Definition noOpts : QueryExecOpts :=
  {| skip := None; limit := None; filter := None; skipCache := None |}.

Record ParsedOptions : Type := {
  po_query : jvalue;
  po_key : string;
  po_exec : QueryExecOpts;
}.

(** [fresh] *)
Definition fresh (po : ParsedOptions) (exec : QueryExecOpts) : ParsedOptions :=
  {| po_query := po_query po; po_key := po_key po; po_exec := exec |}.

(** [InputExecOpts]: parsed options, the bare parameter array, an options
    object (with its [params], if it has them), or nothing. *)
Inductive InputExecOpts : Type :=
| Parsed (po : ParsedOptions)
| Params (params : list jvalue)
| Opts (exec : QueryExecOpts) (params : option (list jvalue))
| NoInput.

(** What the store and the source of truth are asked, in order. *)
Inductive event : Type :=
| Find (q : MongoQuery)
| Hget (key fld : string)
| Multi (cmds : list command).

Section WithImports.

Context `{Imports}.

(** The sentinel parameters [$CQP0$], [$CQP1$], ... *)
Definition sentinels (n : nat) : list jvalue :=
  (fun i => JStr ("$CQP" +:+ pretty i +:+ "$")) <$> seq 0 n.

(** [get hash()] *)
Definition hash (cq : CachedQuery) : string :=
  match query (config cq) with
  | StaticQuery _ => jsonHash (config cq)
  | DynamicQuery n fn =>
      jsonHash (with_query (config cq) (StaticQuery (fn (sentinels n))))
  end.

(** The key of a hash and encoded parameters: [`Q:${hash}${paramsStr}`]. *)
Definition cacheKeyOf (h : string) (params : list jvalue) : string :=
  "Q:" +:+ h +:+ EJSON_stringify params.

(** The number of parameters [getCacheKey] expects: those the filter
    function declares, none for a static filter. *)
Definition expectNumParams (cq : CachedQuery) : nat :=
  match query (config cq) with
  | DynamicQuery n _ => n
  | StaticQuery _ => 0
  end.

(** [getCacheKey] *)
Definition getCacheKey (cq : CachedQuery) (params : list jvalue)
  : result string :=
  if bool_decide (expectNumParams cq ≠ length params) then
    Throw ("Invalid number of params passed: expected "
           +:+ pretty (expectNumParams cq) +:+ ", got "
           +:+ pretty (length params))
  else Ok (cacheKeyOf (hash cq) params).

(** [parseOpts] *)
Definition parseOpts (cq : CachedQuery) (input : InputExecOpts)
  : result ParsedOptions :=
  match input with
  | Parsed po => Ok po
  | _ =>
      let exec := match input with Opts e _ => e | _ => noOpts end in
      match query (config cq) with
      | DynamicQuery _ fn =>
          match input with
          | Params ps | Opts _ (Some ps) =>
              result_bind (getCacheKey cq ps) (fun key =>
                Ok {| po_query := fn ps; po_key := key; po_exec := exec |})
          | _ => Throw "TypeError: params is not iterable"
          end
      | StaticQuery q =>
          result_bind (getCacheKey cq []) (fun key =>
            Ok {| po_query := q; po_key := key; po_exec := exec |})
      end
  end.

(** [buildQuery], on options already parsed. *)
Definition buildQuery (cq : CachedQuery) (opts : ParsedOptions) : MongoQuery :=
  let c := config cq in
  let e := po_exec opts in
  {| q_model := model c;
     q_filter := po_query opts;
     q_limit :=
       if unique c then Some (Num 1)
       else match limit e with
            | Some l =>
                if num_truthy l && negb (bool_decide (l = Infinity))
                then Some l else None
            | None => None
            end;
     q_sort := if unique c then None else sort c;
     q_skip :=
       if unique c then None
       else match skip e with
            | Some s => if num_truthy s then Some s else None
            | None => None
            end;
     q_select := select c;
     q_populate := populate c |}.

(** [execMongo] *)
Definition execMongo (cq : CachedQuery) (opts : ParsedOptions) : list Doc :=
  mongoose (context cq) (buildQuery cq opts).

(** The batch [serializeAndCache] queues. *)
Definition cacheCommands (cq : CachedQuery) (result : list Doc)
    (cacheKey : string) : list command :=
  let ttl := expiry (config cq) in
  let docIds := _id <$> result in
  let populatedIds := collectPopulatedIds result (populate (config cq)) in
  let allKey := "A:" +:+ hash cq in
  [ Del cacheKey;
    Hset cacheKey "V" (serialize result);
    Hset cacheKey "O" (Text (join " " docIds));
    Hset cacheKey "P" (Text (join " " populatedIds));
    Sadd allKey cacheKey;
    Expiregt cacheKey ttl;
    Expiregt allKey ttl ]
  ++ concat ((fun id => [Sadd ("O:" +:+ id) cacheKey;
                         Expiregt ("O:" +:+ id) ttl]) <$> docIds)
  ++ concat ((fun id => [Sadd ("P:" +:+ id) cacheKey;
                         Expiregt ("P:" +:+ id) ttl]) <$> populatedIds).

(** [serializeAndCache] *)
Definition serializeAndCache (cq : CachedQuery) (result : list Doc)
    (cacheKey : string) (st : store) : store * list event :=
  let cmds := cacheCommands cq result cacheKey in
  (fst (multi_exec cmds st), [Multi cmds]).

(** The test that sends [exec] straight to the source of truth. *)
Definition outsideCache (cacheCount skip : number) (limit : option number)
  : bool :=
  (num_lt cacheCount Infinity && bool_decide (limit = None)) ||
  match limit with
  | Some l => num_truthy l && num_gt (num_add l skip) cacheCount
  | None => false
  end.

(** [exec]: the documents returned, the store afterwards, and what was
    asked of the store and of the source of truth. *)
Definition exec (cq : CachedQuery) (input : InputExecOpts) (st : store)
  : result (list Doc * store * list event) :=
  result_bind (parseOpts cq input) (fun opts =>
    let c := config cq in
    let e := po_exec opts in
    let skip_ := default (Num 0) (skip e) in
    if outsideCache (cacheCount c) skip_ (limit e) then
      Ok (execMongo cq opts, st, [Find (buildQuery cq opts)])
    else
      let cacheKey := po_key opts in
      let '(cached, log1) :=
        if negb (default false (skipCache e))
        then (hgetBuffer st cacheKey "V", [Hget cacheKey "V"])
        else (None, []) in
      let '(result, st', log2) :=
        match cached with
        | Some docs => (docs, st, [])
        | None =>
            let fetch := fresh opts {| skip := None; limit := Some (cacheCount c);
                                       filter := None; skipCache := None |} in
            let result := execMongo cq fetch in
            if bool_decide (0 < length result) || negb (unique c) then
              let '(st', log) := serializeAndCache cq result cacheKey st in
              (result, st', Find (buildQuery cq fetch) :: log)
            else (result, st, [Find (buildQuery cq fetch)])
        end in
      let filtered :=
        match filter e with
        | Some f => List.filter f result
        | None => result
        end in
      Ok (skipAndLimit filtered skip_ (limit e), st', log1 ++ log2)).

(** ** [merged], [execOne], [countMongo], [count] *)

(** An options object written out at a call of [merged]: each property is
    left out, or given, possibly as [undefined]. *)
Record ExecPatch : Type := {
  set_skip : option (option number);
  set_limit : option (option number);
  set_filter : option (option (Doc -> bool));
  set_skipCache : option (option bool);
}.

Definition noPatch : ExecPatch :=
  {| set_skip := None; set_limit := None; set_filter := None;
     set_skipCache := None |}.

(** [merged]: the properties the second object has replace those of the
    first, also when they are [undefined]. *)
Definition merged (po : ParsedOptions) (patch : ExecPatch) : ParsedOptions :=
  let e := po_exec po in
  {| po_query := po_query po;
     po_key := po_key po;
     po_exec := {| skip := default (skip e) (set_skip patch);
                   limit := default (limit e) (set_limit patch);
                   filter := default (filter e) (set_filter patch);
                   skipCache := default (skipCache e) (set_skipCache patch) |} |}.

(** [execOne]: the first document (or [null], here [None]) of [exec] with
    the limit forced to 1. *)
Definition execOne (cq : CachedQuery) (input : InputExecOpts) (st : store)
  : result (option Doc * store * list event) :=
  result_bind (parseOpts cq input) (fun opts =>
    let limitOne :=
      merged opts {| set_skip := None; set_limit := Some (Some (Num 1));
                     set_filter := None; set_skipCache := None |} in
    result_bind (exec cq (Parsed limitOne) st) (fun '(docs, st', log) =>
      Ok (head docs, st', log))).

(** What [count] needs besides: the source of truth counts the documents
    of a built query ([countDocuments]); the store keeps a number as its
    text, and [parseInt(_, 10)] reads a text as a number. The three are
    parameters. *)
Class CountImports : Type := {
  countDocuments : MongoQuery -> number;
  numberToString : number -> string;
  parseInt : string -> number;
}.

Context `{CountImports}.

(** The query [countMongo] counts the documents of. *)
Definition countQuery (cq : CachedQuery) (opts : ParsedOptions) : MongoQuery :=
  buildQuery cq
    (merged opts {| set_skip := Some (Some (Num 0)); set_limit := Some None;
                    set_filter := None; set_skipCache := None |}).

(** [countMongo], on options already parsed. *)
Definition countMongo (cq : CachedQuery) (opts : ParsedOptions) : number :=
  countDocuments (countQuery cq opts).

(** [hget(key, fld)]: the text of a field, [null] (here [None]) when the
    key or the field is missing. The fields read this way hold text. *)
Definition hget (st : store) (key fld : string) : option string :=
  match records st !! key with
  | Some r => match r !! fld with
              | Some (Text s) => Some s
              | _ => None
              end
  | None => None
  end.

(** What [count] asks of the store and of the source of truth. *)
Inductive countEvent : Type :=
| ViaExec (log : list event)
| HgetCount (key : string)
| CountDocuments (q : MongoQuery)
| HsetCount (key : string) (count : number).

(** [count] *)
Definition count (cq : CachedQuery) (input : InputExecOpts) (st : store)
  : result (number * store * list countEvent) :=
  result_bind (parseOpts cq input) (fun opts =>
    let cacheKey := po_key opts in
    let e := po_exec opts in
    match filter e with
    | Some _ =>
        let full :=
          merged opts {| set_skip := Some (Some (Num 0));
                         set_limit := Some None;
                         set_filter := None; set_skipCache := None |} in
        result_bind (exec cq (Parsed full) st) (fun '(fullResult, st', log) =>
          Ok (Num (Z.of_nat (length fullResult)), st', [ViaExec log]))
    | None =>
        let '(cached, log1) :=
          if negb (default false (skipCache e))
          then (hget st cacheKey "count", [HgetCount cacheKey])
          else (None, []) in
        match cached with
        | Some text =>
            if negb (String.eqb text EmptyString) then
              Ok (parseInt text, st, log1)
            else
              let n := countMongo cq (fresh opts noOpts) in
              Ok (n,
                  (run_command
                     (Hset cacheKey "count" (Text (numberToString n))) st).1,
                  log1 ++ [CountDocuments (countQuery cq (fresh opts noOpts));
                           HsetCount cacheKey n])
        | None =>
            let n := countMongo cq (fresh opts noOpts) in
            Ok (n,
                (run_command
                   (Hset cacheKey "count" (Text (numberToString n))) st).1,
                log1 ++ [CountDocuments (countQuery cq (fresh opts noOpts));
                         HsetCount cacheKey n])
        end
    end).

End WithImports.

End CachedQuery.

(** * src/CachedQuery/invalidation/handler.ts *)

Module Handler.

Import Redis.

(** [CacheEffect] (../types): the three operations the handler switches
    on. Document ids are kept as the strings [String(id)] gives. *)
Inductive CacheEffect : Type :=
| Insert (modelName : string) (docs : list Doc)
| Update (modelName : string)
| Remove (modelName : string) (ids : list string).

(** The handler's state: the store it talks to and its [keysInvalidated]
    set. *)
Record state : Type := {
  redis : store;
  keysInvalidated : gset string;
}.

(** The [forEach] over the results of the batch: a key is recorded when its
    command did not fail, the key is a non-empty string and the reply is
    truthy. *)
Definition recordResult (keys : list string) (acc : gset string)
    (entry : nat * (option string * Z)) : gset string :=
  let '(index, (err, didExist)) := entry in
  match err with
  | Some _ => acc
  | None =>
      match keys !! index with
      | Some key =>
          if negb (String.eqb key EmptyString) && negb (didExist =? 0)%Z
          then {[key]} ∪ acc else acc
      | None => acc
      end
  end.

Definition recordResults (keys : list string)
    (results : list (option string * Z)) (inv : gset string) : gset string :=
  fold_left (recordResult keys) (imap pair results) inv.

(** [invalidate] *)
Definition invalidate (keys : list string) (s : state) : state :=
  match keys with
  | [] => s
  | _ =>
      let '(st', results) := multi_exec (Delquery <$> keys) (redis s) in
      match results with
      | None | Some [] => {| redis := st'; keysInvalidated := keysInvalidated s |}
      | Some rs =>
          {| redis := st';
             keysInvalidated := recordResults keys rs (keysInvalidated s) |}
      end
  end.

(** The keys [doRemoveInvalidation] asks the union of. *)
Definition dependencyKeys (ids : list string) : list string :=
  ((fun id => "O:" +:+ id) <$> ids) ++ ((fun id => "P:" +:+ id) <$> ids).

(** [doRemoveInvalidation] *)
Definition doRemoveInvalidation (ids : list string) (s : state)
  : result state :=
  result_bind (sunion (redis s) (dependencyKeys ids)) (fun dependentKeys =>
    match dependentKeys with
    | [] => Ok s
    | _ => Ok (invalidate dependentKeys s)
    end).

(** [doInsertInvalidation] and [doUpdateInvalidation] are empty. *)
Definition doInsertInvalidation (s : state) : result state := Ok s.
Definition doUpdateInvalidation (s : state) : result state := Ok s.

(** [onCacheEffect] *)
Definition onCacheEffect (effect : CacheEffect) (s : state) : result state :=
  match effect with
  | Insert _ _ => doInsertInvalidation s
  | Update _ => doUpdateInvalidation s
  | Remove _ ids => doRemoveInvalidation ids s
  end.

End Handler.

(** * The earlier invalidation handler

    Insert invalidation, the parsing of cache keys and rehydration; its
    events are inserts and removes only. *)

Module Invalidation.

Import Redis CachedQuery.

Inductive CacheEffect : Type :=
| Insert (modelName : string) (docs : list Doc)
| Remove (modelName : string) (ids : list string).

(** [InsertInvalidation]: every key of a definition, one key, or nothing. *)
Inductive InsertInvalidation : Type :=
| All (hash : string)
| Key (hash key : string)
| Nothing.

(** A [Set] of strings in insertion order. *)
Definition set_add (x : string) (s : list string) : list string :=
  if bool_decide (x ∈ s) then s else s ++ [x].

(** [union(...targets)] *)
Definition union (targets : list (list string)) : list string :=
  fold_left (fun acc x => set_add x acc) (concat targets) [].

(** ** The pattern [/^Q:(.+?)(\[.*\])$/] *)

Definition isLineTerminator (c : ascii) : bool :=
  Ascii.eqb c "010"%char || Ascii.eqb c "013"%char.

(** [.]: any character but a line terminator (of which the characters of
    the model hold line feed and carriage return). *)
Definition dot (c : ascii) : bool := negb (isLineTerminator c).

(** [.*\]$]: characters [.] matches, then a closing bracket, then the end. *)
Fixpoint match_rest (s : string) : bool :=
  match s with
  | EmptyString => false
  | String c rest =>
      (Ascii.eqb c "]"%char && String.eqb rest EmptyString)
      || (dot c && match_rest rest)
  end.

(** [(\[.*\])$] *)
Definition match_params (s : string) : bool :=
  match s with
  | String c rest => Ascii.eqb c "["%char && match_rest rest
  | EmptyString => false
  end.

(** [(.+?)(\[.*\])$] after [h] was taken by the lazy group: the group
    stops at the first place where what is left matches, and grows by one
    character otherwise. *)
Fixpoint match_groups (h s : string) : option (string * string) :=
  match s with
  | EmptyString => None
  | String c rest =>
      if negb (String.eqb h EmptyString) && match_params s then Some (h, s)
      else if dot c then match_groups (h +:+ String c EmptyString) rest
      else None
  end.

(** [key.match(MATCH_CACHE_KEY)]: the two groups. *)
Definition MATCH_CACHE_KEY (key : string) : option (string * string) :=
  match key with
  | String "Q"%char (String ":"%char rest) => match_groups EmptyString rest
  | _ => None
  end.

Section WithImports.

Context `{Imports}.

(** [getInsertInvalidation] *)
Definition getInsertInvalidation (cq : CachedQuery) (modelName : string)
    (doc : Doc) : result InsertInvalidation :=
  let c := config cq in
  if unique c || negb (invalidateOnInsert c)
     || negb (String.eqb (model c) modelName)
  then Ok Nothing
  else
    let cls := classification cq in
    let docCouldMatchQuery := matcher cls doc in
    if negb docCouldMatchQuery then Ok Nothing
    else if complexQuery cls then Ok (All (hash cq))
    else
      let params := doc_get doc <$> dynamicKeys cls in
      result_bind (getCacheKey cq params) (fun key => Ok (Key (hash cq) key)).

(** [parseCacheKey] *)
Definition parseCacheKey (key : string) : result (string * list jvalue) :=
  match MATCH_CACHE_KEY key with
  | Some (h, params) =>
      match JSON_parse params with
      | Some ps => Ok (h, ps)
      | None => Throw "SyntaxError"
      end
  | None => Throw "Failed to parse cache key"
  end.

(** [lookupCachedQuery]: the registered definitions by hash, in the order
    they were registered. *)
Definition registry : Type := list (string * CachedQuery).

(** One of the promises of [rehydrate]. *)
Definition rehydrateKey (lookupCachedQuery : registry) (key : string)
    (st : store) : result unit * store * list event :=
  match parseCacheKey key with
  | Throw msg => (Throw msg, st, [])
  | Ok (h, params) =>
      match MongoOperators.assoc_get h lookupCachedQuery with
      | None => (Ok tt, st, [])
      | Some query =>
          if negb (rehydrate (config query)) then (Ok tt, st, [])
          else
            let opts := {| skip := None;
                           limit := Some (cacheCount (config query));
                           filter := None; skipCache := Some true |} in
            match exec query (Opts opts (Some params)) st with
            | Ok (_, st', log) => (Ok tt, st', log)
            | Throw msg => (Throw msg, st, [])
            end
      end
  end.

(** [rehydrate]: every key is tried, one after the other; the outcome is
    the first failure, if any. *)
Fixpoint rehydrate (lookupCachedQuery : registry) (keys : list string)
    (st : store) : result unit * store * list event :=
  match keys with
  | [] => (Ok tt, st, [])
  | key :: rest =>
      let '(r1, st1, log1) := rehydrateKey lookupCachedQuery key st in
      let '(r2, st2, log2) := rehydrate lookupCachedQuery rest st1 in
      (match r1 with Throw msg => Throw msg | Ok _ => r2 end, st2, log1 ++ log2)
  end.

(** The keys of a batch whose command did not fail and reported that the
    key existed. *)
Definition invalidatedKeys (keys : list string)
    (results : list (option string * Z)) : list string :=
  fold_left (fun acc '(index, (err, didExist)) =>
    match err with
    | Some _ => acc
    | None =>
        match keys !! index with
        | Some key =>
            if negb (String.eqb key EmptyString) && negb (didExist =? 0)%Z
            then acc ++ [key] else acc
        | None => acc
        end
    end) (imap pair results) [].

(** [invalidate] *)
Definition invalidate (lookupCachedQuery : registry) (keys : list string)
    (st : store) : result unit * store * list event :=
  match keys with
  | [] => (Ok tt, st, [])
  | _ =>
      let cmds := Delquery <$> keys in
      let '(st', results) := multi_exec cmds st in
      match results with
      | None | Some [] => (Ok tt, st', [Multi cmds])
      | Some rs =>
          match invalidatedKeys keys rs with
          | [] => (Ok tt, st', [Multi cmds])
          | keysInvalidated =>
              let '(r, st'', log) :=
                rehydrate lookupCachedQuery keysInvalidated st' in
              (r, st'', Multi cmds :: log)
          end
      end
  end.

(** [doRemoveInvalidation] *)
Definition doRemoveInvalidation (lookupCachedQuery : registry)
    (ids : list string) (st : store) : result unit * store * list event :=
  match sunion st ((fun id => "O:" +:+ id) <$> ids) with
  | Throw msg => (Throw msg, st, [])
  | Ok [] => (Ok tt, st, [])
  | Ok dependentKeys => invalidate lookupCachedQuery dependentKeys st
  end.

(** [collectInsertInvalidations]: the keys, the sets and the hashes. *)
Definition collectOne (query : CachedQuery) (modelName : string)
    (acc : result (list string * list string * list string)) (doc : Doc)
  : result (list string * list string * list string) :=
  result_bind acc (fun '(keys, sets, hashes) =>
    result_bind (getInsertInvalidation query modelName doc) (fun info =>
      match info with
      | Nothing => Ok (keys, sets, hashes)
      | All h => Ok (keys, set_add ("A:" +:+ h) sets, set_add h hashes)
      | Key h key => Ok (set_add key keys, sets, set_add h hashes)
      end)).

Definition collectInsertInvalidations (lookupCachedQuery : registry)
    (modelName : string) (docs : list Doc)
  : result (list string * list string * list string) :=
  fold_left (fun acc '(_, query) =>
               fold_left (collectOne query modelName) docs acc)
            lookupCachedQuery (Ok ([], [], [])).

(** [doInsertInvalidation] *)
Definition doInsertInvalidation (lookupCachedQuery : registry)
    (modelName : string) (docs : list Doc) (st : store)
  : result unit * store * list event :=
  match collectInsertInvalidations lookupCachedQuery modelName docs with
  | Throw msg => (Throw msg, st, [])
  | Ok (keys, sets, _) =>
      match (match sets with [] => Ok [] | _ => sunion st sets end) with
      | Throw msg => (Throw msg, st, [])
      | Ok fetchedKeys =>
          match keys, fetchedKeys with
          | [], [] => (Ok tt, st, [])
          | _, _ => invalidate lookupCachedQuery (union [keys; fetchedKeys]) st
          end
      end
  end.

(** [onCacheEffect]: the work it queues, run at once. *)
Definition onCacheEffect (lookupCachedQuery : registry)
    (effect : CacheEffect) (st : store) : result unit * store * list event :=
  match effect with
  | Insert modelName docs =>
      doInsertInvalidation lookupCachedQuery modelName docs st
  | Remove _ ids => doRemoveInvalidation lookupCachedQuery ids st
  end.

End WithImports.

End Invalidation.

(** * A model of the imports, to run the definitions

    The encoder writes the relaxed extended-JSON text of a value, the parser
    reads JSON text (integers only, as the numbers of the model). *)

Module Json.

Definition dquote : ascii := ascii_of_N 34.
Definition char (c : ascii) : string := String c EmptyString.

Definition hex_digit (n : N) : ascii :=
  match n with
  | 10%N => "a" | 11%N => "b" | 12%N => "c"
  | 13%N => "d" | 14%N => "e" | 15%N => "f"
  | _ => ascii_of_N (48 + n)
  end%char.

Definition escape_char (c : ascii) : string :=
  let n := N_of_ascii c in
  if Ascii.eqb c dquote then "\" +:+ char dquote
  else if Ascii.eqb c "\"%char then "\"
  else if (n =? 8)%N then "\b"
  else if (n =? 9)%N then "\t"
  else if (n =? 10)%N then "\n"
  else if (n =? 12)%N then "\f"
  else if (n =? 13)%N then "\r"
  else if (n <? 32)%N then
    "\u00" +:+ char (hex_digit (n / 16)) +:+ char (hex_digit (n mod 16))
  else char c.

Fixpoint escape (s : string) : string :=
  match s with
  | EmptyString => EmptyString
  | String c rest => escape_char c +:+ escape rest
  end.

Definition quote (s : string) : string := char dquote +:+ escape s +:+ char dquote.

(** An object with one field that holds a string. *)
Definition wrapper (key val : string) : string :=
  "{" +:+ quote key +:+ ":" +:+ quote val +:+ "}".

Definition stringify_number (n : number) : string :=
  match n with
  | Num z => pretty z
  | NaN => wrapper "$numberDouble" "NaN"
  | PosInf => wrapper "$numberDouble" "Infinity"
  | NegInf => wrapper "$numberDouble" "-Infinity"
  end.

Fixpoint stringify_value (v : jvalue) : string :=
  match v with
  | JUndefined | JNull => "null"
  | JBool true => "true"
  | JBool false => "false"
  | JNum n => stringify_number n
  | JStr s => quote s
  | JObjectId hex => wrapper "$oid" hex
  | JArr xs =>
      "[" +:+ join "," ((fix go (l : list jvalue) : list string :=
                           match l with
                           | [] => []
                           | x :: rest => stringify_value x :: go rest
                           end) xs) +:+ "]"
  | JObj fs =>
      "{" +:+ join "," ((fix go (l : list (string * jvalue)) : list string :=
                           match l with
                           | [] => []
                           | (_, JUndefined) :: rest => go rest
                           | (k, x) :: rest =>
                               (quote k +:+ ":" +:+ stringify_value x) :: go rest
                           end) fs) +:+ "}"
  end.

(** [EJSON.stringify(params)] *)
Definition stringify (params : list jvalue) : string :=
  stringify_value (JArr params).

Definition is_ws (c : ascii) : bool :=
  let n := N_of_ascii c in
  (n =? 32)%N || (n =? 9)%N || (n =? 10)%N || (n =? 13)%N.

Fixpoint skip_ws (s : string) : string :=
  match s with
  | String c rest => if is_ws c then skip_ws rest else s
  | EmptyString => s
  end.

Definition digit_of (c : ascii) : option Z :=
  let n := N_of_ascii c in
  if (48 <=? n)%N && (n <=? 57)%N then Some (Z.of_N (n - 48)) else None.

Fixpoint parse_digits (acc : Z) (s : string) : Z * string :=
  match s with
  | String c rest =>
      match digit_of c with
      | Some d => parse_digits (10 * acc + d) rest
      | None => (acc, s)
      end
  | EmptyString => (acc, s)
  end.

(** An integer literal; a fraction or an exponent is refused. *)
Definition parse_int (s : string) : option (Z * string) :=
  let '(neg, s1) := match s with
                    | String "-"%char r => (true, r)
                    | _ => (false, s)
                    end in
  match s1 with
  | String c _ =>
      match digit_of c with
      | None => None
      | Some _ =>
          let '(z, rest) := parse_digits 0 s1 in
          match rest with
          | String "."%char _ | String "e"%char _ | String "E"%char _ => None
          | _ => Some (if neg then (- z)%Z else z, rest)
          end
      end
  | EmptyString => None
  end.

(** The character an escape stands for. *)
Definition unescape (e : ascii) : option ascii :=
  if Ascii.eqb e dquote then Some dquote
  else if Ascii.eqb e "\"%char then Some "\"%char
  else if Ascii.eqb e "/"%char then Some "/"%char
  else if Ascii.eqb e "b"%char then Some "008"%char
  else if Ascii.eqb e "t"%char then Some "009"%char
  else if Ascii.eqb e "n"%char then Some "010"%char
  else if Ascii.eqb e "f"%char then Some "012"%char
  else if Ascii.eqb e "r"%char then Some "013"%char
  else None.

(** The characters of a string literal, after its opening quote. *)
Fixpoint parse_chars (s : string) : option (string * string) :=
  match s with
  | EmptyString => None
  | String c rest =>
      if Ascii.eqb c dquote then Some (EmptyString, rest)
      else if Ascii.eqb c "\"%char then
        match rest with
        | String e rest' =>
            match unescape e, parse_chars rest' with
            | Some u, Some (str, rest'') => Some (String u str, rest'')
            | _, _ => None
            end
        | EmptyString => None
        end
      else if (N_of_ascii c <? 32)%N then None
      else match parse_chars rest with
           | Some (str, rest') => Some (String c str, rest')
           | None => None
           end
  end.

Definition expect (word : string) (v : jvalue) (s : string)
  : option (jvalue * string) :=
  if String.prefix word s
  then Some (v, String.substring (String.length word)
                                 (String.length s - String.length word) s)
  else None.

Fixpoint parse_value (fuel : nat) (s : string) : option (jvalue * string) :=
  match fuel with
  | O => None
  | S f =>
      match skip_ws s with
      | String "["%char rest =>
          match skip_ws rest with
          | String "]"%char rest' => Some (JArr [], rest')
          | _ => match parse_elems f rest with
                 | Some (xs, rest') => Some (JArr xs, rest')
                 | None => None
                 end
          end
      | String "{"%char rest =>
          match skip_ws rest with
          | String "}"%char rest' => Some (JObj [], rest')
          | _ => match parse_members f rest with
                 | Some (fs, rest') => Some (JObj fs, rest')
                 | None => None
                 end
          end
      | String "n"%char _ as s' => expect "null" JNull s'
      | String "t"%char _ as s' => expect "true" (JBool true) s'
      | String "f"%char _ as s' => expect "false" (JBool false) s'
      | String c rest as s' =>
          if Ascii.eqb c dquote then
            match parse_chars rest with
            | Some (str, rest') => Some (JStr str, rest')
            | None => None
            end
          else match parse_int s' with
               | Some (z, rest') => Some (JNum (Num z), rest')
               | None => None
               end
      | EmptyString => None
      end
  end
with parse_elems (fuel : nat) (s : string) : option (list jvalue * string) :=
  match fuel with
  | O => None
  | S f =>
      match parse_value f s with
      | Some (x, rest) =>
          match skip_ws rest with
          | String ","%char rest' =>
              match parse_elems f rest' with
              | Some (xs, rest'') => Some (x :: xs, rest'')
              | None => None
              end
          | String "]"%char rest' => Some ([x], rest')
          | _ => None
          end
      | None => None
      end
  end
with parse_members (fuel : nat) (s : string)
  : option (list (string * jvalue) * string) :=
  match fuel with
  | O => None
  | S f =>
      match skip_ws s with
      | String c rest =>
          if negb (Ascii.eqb c dquote) then None
          else
          match parse_chars rest with
          | Some (k, rest1) =>
              match skip_ws rest1 with
              | String ":"%char rest2 =>
                  match parse_value f rest2 with
                  | Some (x, rest3) =>
                      match skip_ws rest3 with
                      | String ","%char rest4 =>
                          match parse_members f rest4 with
                          | Some (fs, rest5) => Some ((k, x) :: fs, rest5)
                          | None => None
                          end
                      | String "}"%char rest4 => Some ([(k, x)], rest4)
                      | _ => None
                      end
                  | None => None
                  end
              | _ => None
              end
          | None => None
          end
      | EmptyString => None
      end
  end.

(** [JSON.parse(text)] for a text that holds an array. *)
Definition parse (text : string) : option (list jvalue) :=
  match parse_value (S (String.length text)) text with
  | Some (JArr xs, rest) =>
      match skip_ws rest with
      | EmptyString => Some xs
      | _ => None
      end
  | _ => None
  end.

End Json.

Module Sample.

Import CachedQuery.

(** A stand-in for the digest of a configuration. *)
Definition jsonHash (c : CachedQueryConfig) : string := "cq-" +:+ model c.

(** The ids of the documents found under the populated paths. *)
Definition collectPopulatedIds (result : list Doc) (populate : list jvalue)
  : list string :=
  doc ← result;
  p ← populate;
  match p with
  | JStr path =>
      match doc_get doc path with
      | JObj fs =>
          match MongoOperators.assoc_get "_id" fs with
          | Some (JObjectId hex) => [hex]
          | _ => []
          end
      | JObjectId hex => [hex]
      | _ => []
      end
  | _ => []
  end.

Definition count_of (n : number) : nat :=
  match n with
  | Num z => Z.to_nat z
  | _ => 0
  end.

(** A window of an array: drop [skip] documents, keep at most [limit]. *)
Definition skipAndLimit (docs : list Doc) (skip : number)
    (limit : option number) : list Doc :=
  let rest := drop (count_of skip) docs in
  match limit with
  | Some (Num z) => if (z =? 0)%Z then rest else take (Z.to_nat z) rest
  | _ => rest
  end.

#[export] Instance imports : Imports := {|
  EJSON_stringify := Json.stringify;
  JSON_parse := Json.parse;
  CachedQuery.jsonHash := jsonHash;
  CachedQuery.collectPopulatedIds := collectPopulatedIds;
  CachedQuery.skipAndLimit := skipAndLimit;
|}.

(** [String(n)], the text the store keeps of a number. *)
Definition numberToString (n : number) : string :=
  match n with
  | Num z => pretty z
  | NaN => "NaN"
  | PosInf => "Infinity"
  | NegInf => "-Infinity"
  end.

(** [parseInt(text, 10)]: white space, a sign, then decimal digits; what
    follows the digits is ignored, and a text without a digit gives [NaN]. *)
Definition parseInt (s : string) : number :=
  let s0 := Json.skip_ws s in
  let '(neg, s1) := match s0 with
                    | String "-"%char r => (true, r)
                    | String "+"%char r => (false, r)
                    | _ => (false, s0)
                    end in
  match s1 with
  | String c _ =>
      match Json.digit_of c with
      | Some _ =>
          let '(z, _) := Json.parse_digits 0 s1 in
          Num (if neg then (- z)%Z else z)
      | None => NaN
      end
  | EmptyString => NaN
  end.

End Sample.

(** * Data for the scenarios *)

Module Scenario.

Import MongoOperators.

(** A comparison to run the handlers with; [$inc] and [$addToSet] do not
    use it. *)
Definition lessThan (h : heap) (a b : value) : bool :=
  match a, b with
  | VNum x, VNum y => num_lt x y
  | _, _ => false
  end.

(** The target [{a: 1}] at address 1, and an update expression
    [{$inc: paths}] at address 2 with its [paths] object at address 3. *)
Definition incHeap (paths : list (string * value)) : heap :=
  {[ 1%positive := OObj [("a", VNum (Num 1))];
     2%positive := OObj [("$inc", VRef 3%positive)];
     3%positive := OObj paths ]}.

Definition incOptions : ApplyUpdatesOptions :=
  {| update := VRef 2%positive; filter := None; upsert := None |}.

(** The target [{tags: ["x"]}] at address 1, its array at address 2. *)
Definition tagsHeap : heap :=
  {[ 1%positive := OObj [("tags", VRef 2%positive); ("n", VNum (Num 3))];
     2%positive := OArr [VStr "x"] ]}.

(** An update expression [{$pull: {a: 1}}] at address 1. *)
Definition pullHeap : heap :=
  {[ 1%positive := OObj [("$pull", VRef 2%positive)];
     2%positive := OObj [("a", VNum (Num 1))] ]}.

Definition pullOptions (upsert : bool) : ApplyUpdatesOptions :=
  {| update := VRef 1%positive; filter := None; upsert := Some upsert |}.

(** ** The cache *)

Import CachedQuery.

Definition doc (id org : string) : Doc :=
  {| _id := id; doc_fields := [("orgId", JStr org)] |}.

(** The source of truth: two users of organisation A and no account; it
    honours the skip and the limit of the query it is asked. *)
Definition users (q : MongoQuery) : list Doc :=
  let found :=
    if String.eqb (q_model q) "User" then [doc "u1" "A"; doc "u2" "A"]
    else [] in
  let skipped :=
    match q_skip q with
    | Some n => drop (Sample.count_of n) found
    | None => found
    end in
  match q_limit q with
  | Some n => take (Sample.count_of n) skipped
  | None => skipped
  end.

Definition noClassification : Classification :=
  {| matcher := fun _ => true; dynamicKeys := []; complexQuery := false |}.

(** [{model: "User", query: {}, cacheCount: 50}] *)
Definition allUsers : CachedQuery :=
  {| context := {| mongoose := users |};
     config := {| model := "User"; query := StaticQuery (JObj []);
                  select := None; sort := None; populate := [];
                  cacheCount := Num 50; expiry := Num 3600; unique := false;
                  invalidateOnInsert := true; rehydrate := false |};
     classification := noClassification |}.

(** [{model: "Account", query: {}, unique: true}]: no document matches. *)
Definition oneAccount : CachedQuery :=
  {| context := {| mongoose := users |};
     config := {| model := "Account"; query := StaticQuery (JObj []);
                  select := None; sort := None; populate := [];
                  cacheCount := Infinity; expiry := Num 3600; unique := true;
                  invalidateOnInsert := true; rehydrate := false |};
     classification := noClassification |}.

(** [{model: "User", query: {}, cacheCount: Infinity}] *)
Definition everyUser : CachedQuery :=
  {| context := {| mongoose := users |};
     config := {| model := "User"; query := StaticQuery (JObj []);
                  select := None; sort := None; populate := [];
                  cacheCount := Infinity; expiry := Num 3600; unique := false;
                  invalidateOnInsert := true; rehydrate := false |};
     classification := noClassification |}.

Definition window (skip limit : Z) : InputExecOpts :=
  Opts {| skip := Some (Num skip); limit := Some (Num limit);
          filter := None; skipCache := None |} None.

Definition rejectAll : InputExecOpts :=
  Opts {| skip := None; limit := None;
          filter := Some (fun _ => false); skipCache := None |} None.

Definition onlyU2 : InputExecOpts :=
  Opts {| skip := None; limit := Some (Num 1);
          filter := Some (fun d => String.eqb (_id d) "u2"); skipCache := None |} None.

(** [{model: "User", query: id => ({orgId: id}), cacheCount: 50}], whose
    classification has one dynamic key and no complex clause. *)
Definition usersOfOrg : CachedQuery :=
  {| context := {| mongoose := users |};
     config := {| model := "User";
                  query := DynamicQuery 1 (fun ps =>
                             JObj [("orgId", default JUndefined (ps !! 0))]);
                  select := None; sort := None; populate := [];
                  cacheCount := Num 50; expiry := Num 3600; unique := false;
                  invalidateOnInsert := true; rehydrate := false |};
     classification := {| matcher := fun _ => true; dynamicKeys := ["orgId"];
                          complexQuery := false |} |}.

(** Three cache keys of three definitions. *)
Definition K1 : string := "Q:h1[]".
Definition K2 : string := "Q:h2[]".
Definition K3 : string := "Q:h3[]".

Definition entry (ids : list string) : gmap string Redis.field :=
  {[ "V" := Redis.Buffer ((fun id => {| _id := id; doc_fields := [] |}) <$> ids);
     "O" := Redis.Text (join " " ids) ]}.

(** A store with three cached results: [K1] holds document [x], [K2] holds
    a document [w] that references [y] through a populated path, [K3]
    holds document [z]. *)
Definition removeStore : Redis.store :=
  {| Redis.records := {[ K1 := entry ["x"]; K2 := entry ["w"];
                         K3 := entry ["z"] ]};
     Redis.sets := {[ "O:x" := {[ K1 ]}; "O:w" := {[ K2 ]};
                      "P:y" := {[ K2 ]}; "O:z" := {[ K3 ]} ]} |}.

(** The source of truth counts what it would return. *)
#[export] Instance countImports : CountImports := {|
  countDocuments := fun q => Num (Z.of_nat (length (users q)));
  CachedQuery.numberToString := Sample.numberToString;
  CachedQuery.parseInt := Sample.parseInt;
|}.

(** [everyUser], rehydrated when it is invalidated. *)
Definition rehydrated : CachedQuery :=
  {| context := {| mongoose := users |};
     config := {| model := "User"; query := StaticQuery (JObj []);
                  select := None; sort := None; populate := [];
                  cacheCount := Infinity; expiry := Num 3600; unique := false;
                  invalidateOnInsert := true; rehydrate := true |};
     classification := noClassification |}.

(** [usersOfOrg] with a classification that lost its dynamic key. *)
Definition misclassified : CachedQuery :=
  {| context := context usersOfOrg;
     config := config usersOfOrg;
     classification := noClassification |}.

(** [allUsers] with a complex clause in its query: an insert invalidates
    every key of the definition. *)
Definition complexUsers : CachedQuery :=
  {| context := context allUsers;
     config := config allUsers;
     classification := {| matcher := fun _ => true; dynamicKeys := [];
                          complexQuery := true |} |}.

(** A store that holds the one key of [complexUsers], recorded in the set
    of all its keys, and the key [K3] of another definition. *)
Definition insertStore : Redis.store :=
  {| Redis.records := {[ "Q:cq-User[]" := entry ["u2"]; K3 := entry ["z"] ]};
     Redis.sets := {[ "A:cq-User" := {[ "Q:cq-User[]" ]} ]} |}.

(** [usersOfOrg], whose filter takes one parameter, with a classification
    that names two dynamic keys. *)
Definition twoKeys : CachedQuery :=
  {| context := context usersOfOrg;
     config := config usersOfOrg;
     classification := {| matcher := fun _ => true;
                          dynamicKeys := ["orgId"; "role"];
                          complexQuery := false |} |}.

(** A source of truth with three users, which honours the skip and the
    limit of the query like [users]. *)
Definition people (q : MongoQuery) : list Doc :=
  let found :=
    if String.eqb (q_model q) "User"
    then [doc "u1" "A"; doc "u2" "A"; doc "u3" "A"]
    else [] in
  let skipped :=
    match q_skip q with
    | Some n => drop (Sample.count_of n) found
    | None => found
    end in
  match q_limit q with
  | Some n => take (Sample.count_of n) skipped
  | None => skipped
  end.

(** [{model: "User", query: {}, cacheCount: 1}] over [people]: the cache
    holds the first user only. *)
Definition firstUser : CachedQuery :=
  {| context := {| mongoose := people |};
     config := {| model := "User"; query := StaticQuery (JObj []);
                  select := None; sort := None; populate := [];
                  cacheCount := Num 1; expiry := Num 3600; unique := false;
                  invalidateOnInsert := true; rehydrate := false |};
     classification := noClassification |}.

(** The target [{seen: [d]}] at address 1, its array at address 2, where
    [d] is the date of time 5 at address 3; address 4 holds another date
    of time 5. *)
Definition datesHeap : heap :=
  {[ 1%positive := OObj [("seen", VRef 2%positive)];
     2%positive := OArr [VRef 3%positive];
     3%positive := ODate (Num 5);
     4%positive := ODate (Num 5) ]}.

(** The target [{tags: ["x", "y", "z"]}] at address 1, its array at
    address 2. *)
Definition lettersHeap : heap :=
  {[ 1%positive := OObj [("tags", VRef 2%positive)];
     2%positive := OArr [VStr "x"; VStr "y"; VStr "z"] ]}.

(** The targets [{a: 1}] at address 1 and [{b: 2}] at address 2, and the
    update expressions [{a: 5, c: "x"}] at address 3 and
    [{$set: {a: 5, c: "x"}}] at address 4, whose [$set] object is at
    address 5. *)
Definition setHeap : heap :=
  {[ 1%positive := OObj [("a", VNum (Num 1))];
     2%positive := OObj [("b", VNum (Num 2))];
     3%positive := OObj [("a", VNum (Num 5)); ("c", VStr "x")];
     4%positive := OObj [("$set", VRef 5%positive)];
     5%positive := OObj [("a", VNum (Num 5)); ("c", VStr "x")] ]}.

End Scenario.

(** * Specification vocabulary *)

(** The operands [$inc] takes, with the number each one stands for: a
    number that is not [NaN], a boolean (0 or 1), a date (its time value). *)
Inductive IncOperand (h : MongoOperators.heap)
  : MongoOperators.value -> number -> Prop :=
| inc_number n : n ≠ NaN -> IncOperand h (MongoOperators.VNum n) n
| inc_true : IncOperand h (MongoOperators.VBool true) (Num 1)
| inc_false : IncOperand h (MongoOperators.VBool false) (Num 0)
| inc_date l t :
    h !! l = Some (MongoOperators.ODate t) ->
    IncOperand h (MongoOperators.VRef l) t.

(** Between two heaps, nothing changed but one path of the target and the
    objects at the addresses in [touched]. *)
Definition only_changed (h h' : MongoOperators.heap)
    (target : MongoOperators.loc) (path : string)
    (touched : list MongoOperators.loc) : Prop :=
  (forall p, p ≠ path ->
     MongoOperators.getValue h' target p = MongoOperators.getValue h target p)
  /\ (forall l, l ≠ target -> l ∉ touched -> h' !! l = h !! l).

(** An update expression [parseUpdateQuery] accepts: a falsy one, or one
    that is not an array and whose keys that start with a dollar sign are
    supported operators holding a falsy value or an object. *)
Definition well_formed_update (h : MongoOperators.heap)
    (input : MongoOperators.value) : Prop :=
  MongoOperators.truthy input = false
  \/ (MongoOperators.isArray h input = false
      /\ Forall (fun entry : string * MongoOperators.value =>
                   charAt0 entry.1 ≠ "$"
                   \/ (MongoOperators.isSupportedOperator entry.1 = true
                       /\ (MongoOperators.truthy entry.2 = false
                           \/ exists l, entry.2 = MongoOperators.VRef l)))
                (MongoOperators.objectEntries h input)).

(** A call [exec] sends straight to the source of truth: [cacheCount] is
    below [Infinity] and no limit was asked, or a limit that is neither 0
    nor [NaN] was asked and [limit + skip] exceeds [cacheCount]. *)
Definition goes_direct (cacheCount skip : number) (limit : option number) : Prop :=
  (num_lt cacheCount Infinity = true /\ limit = None)
  \/ (exists l, limit = Some l /\ num_truthy l = true
                /\ num_gt (num_add l skip) cacheCount = true).

(** A command that only touches sets. *)
Definition set_only (c : Redis.command) : Prop :=
  match c with
  | Redis.Sadd _ _ | Redis.Expiregt _ _ => True
  | _ => False
  end.

(** The candidate result of a call that goes through the cache: the cached
    array on a hit, what the source of truth returns for the first
    [cacheCount] documents otherwise. *)
Definition candidate `{CachedQuery.Imports} (cq : CachedQuery.CachedQuery)
    (opts : CachedQuery.ParsedOptions) (st : Redis.store) : list Doc :=
  let fetched :=
    CachedQuery.execMongo cq
      (CachedQuery.fresh opts
         {| CachedQuery.skip := None;
            CachedQuery.limit := Some (CachedQuery.cacheCount (CachedQuery.config cq));
            CachedQuery.filter := None; CachedQuery.skipCache := None |}) in
  if default false (CachedQuery.skipCache (CachedQuery.po_exec opts)) then fetched
  else default fetched (Redis.hgetBuffer st (CachedQuery.po_key opts) "V").



(** The keys that depend on removed documents: the union, over the ids,
    of the members of the set [O:<id>] and of the set [P:<id>]. *)
Definition dependents (st : Redis.store) (ids : list string) : gset string :=
  ⋃ ((fun id => Redis.smembers st ("O:" +:+ id)
                ∪ Redis.smembers st ("P:" +:+ id)) <$> ids).

(** What one deletion of a batch adds to the keys recorded as
    invalidated. *)
Definition record_step (acc : gset string) (e : string * (option string * Z)) : gset string :=
  let '(key, (err, didExist)) := e in
  match err with
  | Some _ => acc
  | None => if negb (String.eqb key EmptyString) && negb (didExist =? 0)%Z
            then {[key]} ∪ acc else acc
  end.

(** Every character of a string passes a test. *)
Fixpoint all_chars (p : ascii -> bool) (s : string) : bool :=
  match s with
  | EmptyString => true
  | String c rest => p c && all_chars p rest
  end.

(** A hash the pattern can find the end of: not empty, no opening bracket,
    no line terminator. *)
Definition plain_hash (h : string) : Prop :=
  h ≠ EmptyString
  /\ all_chars (fun c => negb (Ascii.eqb c "["%char) && Invalidation.dot c) h = true.

(** The text of an array on one line: brackets around characters that are
    not line terminators. *)
Definition array_text (text : string) : Prop :=
  exists mid, text = "[" +:+ mid +:+ "]" /\ all_chars Invalidation.dot mid = true.

(** What the parser keeps about every operator of its result: the name is
    a supported operator; [$set] holds the object the parser built, every
    other operator holds its own value, an object. *)
Definition parsed_entry_ok (e : string * MongoOperators.paths) : Prop :=
  MongoOperators.isSupportedOperator e.1 = true
  /\ match e.2 with
     | MongoOperators.SetPaths _ => e.1 = "$set"
     | MongoOperators.OwnPaths v =>
         e.1 ≠ "$set" /\ exists l, v = MongoOperators.VRef l
     end.

(** An address that holds a plain object. *)
Definition is_object (h : MongoOperators.heap) (l : MongoOperators.loc) : Prop :=
  exists fs, h !! l = Some (MongoOperators.OObj fs).


Definition effects {A E : Type} (r : result (A * Redis.store * list E))
  : result (Redis.store * list E) :=
  match r with
  | Ok (_, st, log) => Ok (st, log)
  | Throw msg => Throw msg
  end.

(** The input of a call with its limit replaced by 1. *)
Definition limitedToOne (input : CachedQuery.InputExecOpts)
  : CachedQuery.InputExecOpts :=
  let one (e : CachedQuery.QueryExecOpts) :=
    {| CachedQuery.skip := CachedQuery.skip e;
       CachedQuery.limit := Some (Num 1);
       CachedQuery.filter := CachedQuery.filter e;
       CachedQuery.skipCache := CachedQuery.skipCache e |} in
  match input with
  | CachedQuery.Parsed po =>
      CachedQuery.Parsed (CachedQuery.fresh po (one (CachedQuery.po_exec po)))
  | CachedQuery.Params ps => CachedQuery.Opts (one CachedQuery.noOpts) (Some ps)
  | CachedQuery.Opts e ps => CachedQuery.Opts (one e) ps
  | CachedQuery.NoInput => CachedQuery.Opts (one CachedQuery.noOpts) None
  end.

(** The pairs of a definition and a document, in the order
    [collectInsertInvalidations] visits them. *)
Definition visits (reg : Invalidation.registry) (docs : list Doc)
  : list (CachedQuery.CachedQuery * Doc) :=
  reg ≫= (fun e => pair e.2 <$> docs).

(** A registry none of whose definitions asks to be rehydrated. *)
Definition never_rehydrates (reg : Invalidation.registry) : Prop :=
  Forall (fun e : string * CachedQuery.CachedQuery =>
            CachedQuery.rehydrate (CachedQuery.config e.2) = false) reg.

(** * Facts about the update operators *)

Section MongoOperatorsFacts.

Import MongoOperators.

Lemma assoc_get_set_eq {A} (k : string) (v : A) fs :
  assoc_get k (assoc_set k v fs) = Some v.
Proof.
  induction fs as [|[k' v'] fs IH]; simpl.
  - by rewrite String.eqb_refl.
  - destruct (String.eqb k k') eqn:E; simpl; rewrite ?String.eqb_refl, ?E; done.
Qed.

Lemma assoc_get_set_ne {A} (k k' : string) (v : A) fs :
  k ≠ k' -> assoc_get k' (assoc_set k v fs) = assoc_get k' fs.
Proof.
  intros Hne. induction fs as [|[k0 v0] fs IH]; simpl.
  - destruct (String.eqb k' k) eqn:E; [|done].
    apply String.eqb_eq in E. congruence.
  - destruct (String.eqb k k0) eqn:E; simpl.
    + apply String.eqb_eq in E. subst k0.
      destruct (String.eqb k' k) eqn:E'; [|done].
      apply String.eqb_eq in E'. congruence.
    + by rewrite IH.
Qed.

(** Writing a path of an object: the path holds the value afterwards and
    nothing else changed. *)
Lemma setValue_object h target fs path v :
  h !! target = Some (OObj fs) ->
  exists h', setValue target path v h = (Ok tt, h')
    /\ getValue h' target path = v
    /\ only_changed h h' target path [].
Proof.
  intros Hobj. unfold setValue. rewrite Hobj. eexists. split; [done|].
  split; [|split].
  - unfold getValue. rewrite lookup_insert_eq. by rewrite assoc_get_set_eq.
  - intros p Hp. unfold getValue. rewrite lookup_insert_eq, Hobj.
    by rewrite assoc_get_set_ne.
  - intros l Hl _. by rewrite lookup_insert_ne.
Qed.

Lemma inc_amount_operand h val num :
  IncOperand h val num -> inc_amount val h = (Ok num, h).
Proof.
  intros [n Hn| | |l t Hl]; simpl; try done.
  - by destruct n.
  - by rewrite Hl.
Qed.

Lemma inc_amount_other h val :
  (forall num, ~ IncOperand h val num) ->
  inc_amount val h = (Throw "$inc amount must be a numeric type", h).
Proof.
  intros Hno. destruct val as [| |[]|n|s|l]; simpl; try done.
  - exfalso. eapply Hno. constructor.
  - exfalso. eapply Hno. constructor.
  - destruct n; try done; exfalso; eapply Hno; by constructor.
  - destruct (h !! l) as [[| |t]|] eqn:E; try done.
    exfalso. eapply Hno. by constructor.
Qed.

(** C8, amended: [$inc] fails unless its operand is a number (not [NaN]),
    a boolean (taken as 0 or 1) or a date (taken as its time value). With
    such an operand, on a target object: a path that is missing, when the
    operand is a number, gets that number as its initial value; a path
    that holds a number gets that number plus the coerced operand; a path
    that holds anything else makes it fail. In each case nothing but that
    path of the target changes, and a failure changes nothing. So
    [applyUpdates] on [{a: 1}] with [{$inc: {a: 5}}] leaves [{a: 6}], with
    [{$inc: {missing: 5}}] it leaves [{a: 1, missing: 5}], and with
    [{$inc: {a: "str"}}] it fails. What a missing path receives from a
    boolean or a date is not part of the statement. *)
Theorem inc_behaviour :
  (forall (h : heap) target fs path val,
     h !! target = Some (OObj fs) ->
     ((forall num, ~ IncOperand h val num) ->
        op_inc target path val h
        = (Throw "$inc amount must be a numeric type", h))
     /\ (forall num, IncOperand h val num ->
           (getValue h target path = VUndefined -> val = VNum num ->
              exists h', op_inc target path val h = (Ok tt, h')
                /\ getValue h' target path = VNum num
                /\ only_changed h h' target path [])
           /\ (forall f, getValue h target path = VNum f ->
                 exists h', op_inc target path val h = (Ok tt, h')
                   /\ getValue h' target path = VNum (num_add f num)
                   /\ only_changed h h' target path [])
           /\ (getValue h target path ≠ VUndefined ->
               (forall f, getValue h target path ≠ VNum f) ->
               op_inc target path val h
               = (Throw "$inc target field must be a numeric type", h))))
  /\ (forall lt,
        applyUpdates lt [1%positive] Scenario.incOptions
          (Scenario.incHeap [("a", VNum (Num 5))])
        = (Ok VNull,
           <[1%positive := OObj [("a", VNum (Num 6))]]>
             (Scenario.incHeap [("a", VNum (Num 5))])))
  /\ (forall lt,
        applyUpdates lt [1%positive] Scenario.incOptions
          (Scenario.incHeap [("missing", VNum (Num 5))])
        = (Ok VNull,
           <[1%positive := OObj [("a", VNum (Num 1)); ("missing", VNum (Num 5))]]>
             (Scenario.incHeap [("missing", VNum (Num 5))])))
  /\ (forall lt,
        applyUpdates lt [1%positive] Scenario.incOptions
          (Scenario.incHeap [("a", VStr "str")])
        = (Throw "$inc amount must be a numeric type",
           Scenario.incHeap [("a", VStr "str")])).
Proof.
  split; [|by repeat split].
  intros h target fs path val Hobj. split.
  - intros Hno. unfold op_inc, bind. by rewrite inc_amount_other.
  - intros num Hop. unfold op_inc, bind, updateValue.
    rewrite (inc_amount_operand _ _ _ Hop). split; [|split].
    + intros -> <-. by apply (setValue_object h target fs).
    + intros f ->. by apply (setValue_object h target fs).
    + intros Hu Hn. destruct (getValue h target path); try done.
      exfalso. by eapply Hn.
Qed.

(** The scenarios [{a: 1}] with [{$inc: {a: 5}}] and with
    [{$inc: {missing: 5}}], through [op_inc]. *)
Lemma inc_behaviour_witness :
  Scenario.incHeap [] !! 1%positive = Some (OObj [("a", VNum (Num 1))])
  /\ IncOperand (Scenario.incHeap []) (VNum (Num 5)) (Num 5)
  /\ getValue (Scenario.incHeap []) 1%positive "a" = VNum (Num 1)
  /\ (exists h', op_inc 1%positive "a" (VNum (Num 5)) (Scenario.incHeap [])
                 = (Ok tt, h')
        /\ getValue h' 1%positive "a" = VNum (num_add (Num 1) (Num 5))
        /\ only_changed (Scenario.incHeap []) h' 1%positive "a" [])
  /\ (exists h', op_inc 1%positive "missing" (VNum (Num 5))
                   (Scenario.incHeap []) = (Ok tt, h')
        /\ getValue h' 1%positive "missing" = VNum (Num 5)
        /\ only_changed (Scenario.incHeap []) h' 1%positive "missing" []).
Proof.
  assert (Hobj : Scenario.incHeap [] !! 1%positive
                 = Some (OObj [("a", VNum (Num 1))])) by reflexivity.
  assert (Hop : IncOperand (Scenario.incHeap []) (VNum (Num 5)) (Num 5))
    by (by constructor).
  split; [exact Hobj|]. split; [exact Hop|]. split; [reflexivity|]. split.
  - exact (proj1 (proj2 (proj2 (proj1 inc_behaviour _ _ _ "a" _ Hobj) _ Hop))
             (Num 1) eq_refl).
  - exact (proj1 (proj2 (proj1 inc_behaviour _ _ _ "missing" _ Hobj) _ Hop)
             eq_refl eq_refl).
Defined.

(** C8 as stated fails. With [{$inc: {missing: 5}}] the target [{a: 1}]
    ends as [{a: 1, missing: 5}], not as [{missing: 5}]. With the operand
    [true] a missing path receives [true] itself, not the increment 1, and
    the same [$inc] run again on that path is then refused. *)
Lemma inc_behaviour_counterexample :
  applyUpdates Scenario.lessThan [1%positive] Scenario.incOptions
    (Scenario.incHeap [("missing", VNum (Num 5))])
  = (Ok VNull,
     <[1%positive := OObj [("a", VNum (Num 1)); ("missing", VNum (Num 5))]]>
       (Scenario.incHeap [("missing", VNum (Num 5))]))
  /\ op_inc 1%positive "missing" (VBool true) (Scenario.incHeap [])
     = (Ok tt,
        <[1%positive := OObj [("a", VNum (Num 1)); ("missing", VBool true)]]>
          (Scenario.incHeap []))
  /\ op_inc 1%positive "missing" (VBool true)
       (<[1%positive := OObj [("a", VNum (Num 1)); ("missing", VBool true)]]>
          (Scenario.incHeap []))
     = (Throw "$inc target field must be a numeric type",
        <[1%positive := OObj [("a", VNum (Num 1)); ("missing", VBool true)]]>
          (Scenario.incHeap [])).
Proof. repeat split; vm_compute; reflexivity. Qed.

Lemma includes_elem_of (xs : list value) (val : value) :
  includes xs val = bool_decide (val ∈ xs).
Proof.
  unfold includes, sameValueZero. induction xs as [|x xs IH].
  - symmetry. apply bool_decide_eq_false_2. by intros ?%elem_of_nil.
  - cbn [existsb]. rewrite IH. destruct (decide (val = x)) as [->|Hne].
    + rewrite bool_decide_eq_true_2 by done. simpl. symmetry.
      apply bool_decide_eq_true. by left.
    + rewrite (bool_decide_eq_false_2 (val = x)) by done. simpl.
      apply bool_decide_ext. rewrite elem_of_cons. naive_solver.
Qed.

(** C9, amended: [$addToSet] on a target object. A missing path is set to
    a new array that holds just the operand. A path that holds an array
    gets the operand appended when the array does not hold the operand
    itself, and is left alone when it does; an element is the operand
    itself when it is the same primitive value or the same object, as
    [includes] has it. A path that holds anything but an array makes it
    fail, and changes nothing. *)
Theorem addToSet_behaviour :
  forall (h : heap) target fs path val,
    h !! target = Some (OObj fs) ->
    (getValue h target path = VUndefined ->
       exists h' a, op_addToSet target path val h = (Ok tt, h')
         /\ h !! a = None
         /\ getValue h' target path = VRef a
         /\ h' !! a = Some (OArr [val])
         /\ only_changed h h' target path [a])
    /\ (forall a xs,
          getValue h target path = VRef a -> h !! a = Some (OArr xs) ->
          op_addToSet target path val h
          = (Ok tt, if bool_decide (val ∈ xs) then h
                    else <[a := OArr (xs ++ [val])]> h))
    /\ (getValue h target path ≠ VUndefined ->
        (forall a xs, getValue h target path = VRef a ->
                      h !! a ≠ Some (OArr xs)) ->
        op_addToSet target path val h
        = (Throw "$addToSet target field must be an array", h)).
Proof.
  intros h target fs path val Hobj. split; [|split].
  - intros Hu. unfold op_addToSet. rewrite Hu.
    unfold bind, alloc. set (a := fresh (dom h)).
    assert (Hfresh : h !! a = None).
    { apply not_elem_of_dom. apply is_fresh. }
    assert (Hne : a ≠ target) by (intros ->; congruence).
    unfold setValue. rewrite lookup_insert_ne, Hobj by done.
    eexists _, a. split; [done|]. split; [done|]. split; [|split; [|split]].
    + unfold getValue. rewrite lookup_insert_eq. by rewrite assoc_get_set_eq.
    + by rewrite lookup_insert_ne, lookup_insert_eq.
    + intros p Hp. unfold getValue. rewrite lookup_insert_eq, Hobj.
      by rewrite assoc_get_set_ne.
    + intros l Hl Hl'. rewrite !lookup_insert_ne; [done| |done].
      intros ->. apply Hl'. by left.
  - intros a xs Hf Ha. unfold op_addToSet. rewrite Hf. simpl. rewrite Ha.
    rewrite includes_elem_of. by case_bool_decide.
  - intros Hu Hn. unfold op_addToSet.
    destruct (getValue h target path) as [| | | | |a] eqn:Hf; try done.
    simpl. destruct (h !! a) as [[| xs |]|] eqn:Ha; try done.
    exfalso. by eapply Hn.
Qed.

(** [{tags: ["x"]}]: adding ["y"] appends it, adding ["x"] again does not. *)
Lemma addToSet_behaviour_witness :
  Scenario.tagsHeap !! 1%positive
  = Some (OObj [("tags", VRef 2%positive); ("n", VNum (Num 3))])
  /\ op_addToSet 1%positive "tags" (VStr "y") Scenario.tagsHeap
     = (Ok tt, <[2%positive := OArr [VStr "x"; VStr "y"]]> Scenario.tagsHeap)
  /\ op_addToSet 1%positive "tags" (VStr "x") Scenario.tagsHeap
     = (Ok tt, Scenario.tagsHeap)
  /\ op_addToSet 1%positive "n" (VStr "x") Scenario.tagsHeap
     = (Throw "$addToSet target field must be an array", Scenario.tagsHeap).
Proof.
  assert (Hobj : Scenario.tagsHeap !! 1%positive
            = Some (OObj [("tags", VRef 2%positive); ("n", VNum (Num 3))]))
    by reflexivity.
  split; [exact Hobj|]. split; [|split].
  - exact (proj1 (proj2 (addToSet_behaviour _ _ _ "tags" (VStr "y") Hobj))
             2%positive [VStr "x"] eq_refl eq_refl).
  - exact (proj1 (proj2 (addToSet_behaviour _ _ _ "tags" (VStr "x") Hobj))
             2%positive [VStr "x"] eq_refl eq_refl).
  - apply (proj2 (proj2 (addToSet_behaviour _ _ _ "n" (VStr "x") Hobj))).
    + vm_compute. discriminate.
    + intros a xs Hf. vm_compute in Hf. discriminate.
Defined.

(** C9 as stated fails: the array holds a date of time 5, the operand is
    another date of time 5, equal to it but not the same object, and it is
    appended. *)
Lemma addToSet_behaviour_counterexample :
  Scenario.datesHeap !! 3%positive = Some (ODate (Num 5))
  /\ Scenario.datesHeap !! 4%positive = Some (ODate (Num 5))
  /\ getValue Scenario.datesHeap 1%positive "seen" = VRef 2%positive
  /\ Scenario.datesHeap !! 2%positive = Some (OArr [VRef 3%positive])
  /\ op_addToSet 1%positive "seen" (VRef 4%positive) Scenario.datesHeap
     = (Ok tt,
        <[2%positive := OArr [VRef 3%positive; VRef 4%positive]]>
          Scenario.datesHeap).
Proof. repeat split; vm_compute; reflexivity. Qed.

(** ** [applyUpdates] without targets *)

Lemma parseEntry_ok h res entry :
  is_ok (parseEntry h res entry) = true <->
  (charAt0 entry.1 ≠ "$"
   \/ (isSupportedOperator entry.1 = true
       /\ (truthy entry.2 = false \/ exists l, entry.2 = VRef l))).
Proof.
  destruct entry as [key val]. unfold parseEntry. simpl.
  destruct (String.eqb (charAt0 key) "$") eqn:E; simpl.
  - apply String.eqb_eq in E.
    destruct (isSupportedOperator key) eqn:Hs.
    + destruct (truthy val) eqn:Ht; simpl.
      * destruct val; simpl;
          try (split; [done|intros [?|[_ [?|[? ?]]]]; congruence]).
        split; [|by destruct (String.eqb key "$set")].
        intros _. right. split; [done|]. right. by eexists.
      * split; [|done]. intros _. right. split; [done|]. by left.
    + split; [done|]. intros [?|[? _]]; congruence.
  - apply String.eqb_neq in E. split; [|done]. intros _. by left.
Qed.

Lemma parseEntries_ok h entries : forall res,
  is_ok (parseEntries h res entries) = true <->
  Forall (fun entry : string * value =>
            charAt0 entry.1 ≠ "$"
            \/ (isSupportedOperator entry.1 = true
                /\ (truthy entry.2 = false \/ exists l, entry.2 = VRef l)))
         entries.
Proof.
  induction entries as [|e entries IH]; intros res; simpl.
  - split; [by constructor|done].
  - rewrite Forall_cons, <- parseEntry_ok with (h := h) (res := res).
    destruct (parseEntry h res e) as [res'|msg] eqn:E; simpl.
    + rewrite IH. naive_solver.
    + naive_solver.
Qed.

Lemma parseUpdateQuery_ok h input :
  is_ok (parseUpdateQuery h input) = true <-> well_formed_update h input.
Proof.
  unfold parseUpdateQuery, well_formed_update.
  destruct (truthy input) eqn:Ht; simpl.
  - destruct (isArray h input) eqn:Ha; simpl.
    + split; [done|]. intros [?|[? _]]; congruence.
    + rewrite parseEntries_ok. naive_solver.
  - split; [by left|done].
Qed.

(** C10, amended: with no target, a call whose update expression
    [parseUpdateQuery] accepts returns [null] and leaves every object as it
    was when [upsert] is false, and returns a new empty object, whatever
    the filter and the update hold, when [upsert] is true; a call whose
    update expression is not accepted throws, with either [upsert], and
    changes nothing. *)
Theorem applyUpdates_no_targets :
  forall lt (h : heap) options,
    (well_formed_update h (update options) ->
       if default false (upsert options)
       then exists l, h !! l = None
              /\ applyUpdates lt [] options h
                 = (Ok (VRef l), <[l := OObj []]> h)
       else applyUpdates lt [] options h = (Ok VNull, h))
    /\ (~ well_formed_update h (update options) ->
        exists msg, applyUpdates lt [] options h = (Throw msg, h)).
Proof.
  intros lt h options. rewrite <- parseUpdateQuery_ok. unfold applyUpdates.
  destruct (parseUpdateQuery h (update options)) as [upd|msg]; simpl.
  - split; [|done]. intros _.
    destruct (default false (upsert options)); simpl; [|done].
    exists (fresh (dom h)). split; [|done].
    apply not_elem_of_dom. apply is_fresh.
  - split; [done|]. intros _. by eexists.
Qed.

(** The expression [{$inc: {a: 5}}] is accepted: without targets the call
    returns [null], or a new empty object under [upsert]. *)
Lemma applyUpdates_no_targets_witness :
  well_formed_update (Scenario.incHeap [("a", VNum (Num 5))]) (VRef 2%positive)
  /\ applyUpdates Scenario.lessThan [] Scenario.incOptions
       (Scenario.incHeap [("a", VNum (Num 5))])
     = (Ok VNull, Scenario.incHeap [("a", VNum (Num 5))]).
Proof.
  assert (Hwf : well_formed_update (Scenario.incHeap [("a", VNum (Num 5))])
                  (VRef 2%positive)).
  { apply parseUpdateQuery_ok. reflexivity. }
  split; [exact Hwf|].
  exact (proj1 (applyUpdates_no_targets Scenario.lessThan _ Scenario.incOptions)
           Hwf).
Defined.

(** C10 as stated fails: with no target and the update [{$pull: {a: 1}}]
    the call throws, whether [upsert] is set or not, instead of returning
    an empty object or [null]. *)
Lemma applyUpdates_no_targets_counterexample :
  applyUpdates Scenario.lessThan [] (Scenario.pullOptions true)
    Scenario.pullHeap
  = (Throw "Unsupported update operator $pull", Scenario.pullHeap)
  /\ applyUpdates Scenario.lessThan [] (Scenario.pullOptions false)
       Scenario.pullHeap
     = (Throw "Unsupported update operator $pull", Scenario.pullHeap).
Proof. split; reflexivity. Qed.

End MongoOperatorsFacts.

(** * Facts about the invalidation handler *)

Section HandlerFacts.

Import Redis Handler.

Lemma recordResults_zip_gen (pre keys : list string) rs inv :
  length keys = length rs ->
  fold_left (recordResult (pre ++ keys)) (imap (fun i => pair (length pre + i)) rs) inv
  = fold_left record_step (zip keys rs) inv.
Proof.
  revert pre rs inv. induction keys as [|k keys IH]; intros pre [|[err d] rs] inv Hlen;
    simpl in *; try done.
  assert (Hk : (pre ++ k :: keys) !! (length pre + 0) = Some k).
  { rewrite Nat.add_0_r. by rewrite list_lookup_middle. }
  rewrite Hk.
  replace (pre ++ k :: keys) with ((pre ++ [k]) ++ keys) by (by rewrite <- app_assoc).
  specialize (IH (pre ++ [k]) rs). rewrite length_app in IH. simpl in IH.
  erewrite imap_ext; [apply IH; lia|].
  intros i x _. simpl. f_equal. lia.
Qed.

Lemma recordResults_zip keys rs inv :
  length keys = length rs ->
  recordResults keys rs inv = fold_left record_step (zip keys rs) inv.
Proof. intros Hlen. apply (recordResults_zip_gen [] keys rs inv Hlen). Qed.

Lemma run_batch_length cmds st : length (run_batch cmds st).2 = length cmds.
Proof.
  revert st. induction cmds as [|c cmds IH]; intros st; simpl; [done|].
  destruct (run_command c st) as [st1 r].
  specialize (IH st1). destruct (run_batch cmds st1) as [st2 rs]. simpl in *. lia.
Qed.

Lemma run_batch_cons c cmds st :
  run_batch (c :: cmds) st
  = ((run_batch cmds (run_command c st).1).1,
     (None, (run_command c st).2) :: (run_batch cmds (run_command c st).1).2).
Proof.
  simpl. destruct (run_command c st) as [st1 r]. simpl.
  by destruct (run_batch cmds st1).
Qed.

Lemma delquery_batch keys : forall st inv,
  sets (run_batch (Delquery <$> keys) st).1 = sets st
  /\ (forall k, records (run_batch (Delquery <$> keys) st).1 !! k
                = if decide (k ∈ keys) then None else records st !! k)
  /\ (forall k, k ∈ fold_left record_step
                      (zip keys (run_batch (Delquery <$> keys) st).2) inv <->
                k ∈ inv \/ (k ∈ keys /\ is_Some (records st !! k) /\ k ≠ EmptyString)).
Proof.
  induction keys as [|key keys IH]; intros st inv.
  - split; [done|]. split; [done|]. intros k. set_solver.
  - rewrite fmap_cons, run_batch_cons. cbn [fst snd run_command delquery zip zip_with fold_left record_step].
    set (st1 := {| records := delete key (records st); sets := sets st |}).
    set (b := bool_reply (bool_decide (is_Some (records st !! key)))).
    set (inv1 := if negb (String.eqb key EmptyString) && negb (b =? 0)%Z
                 then {[key]} ∪ inv else inv).
    destruct (IH st1 inv1) as (Hsets & Hrec & Hinv).
    split; [done|]. split.
    + intros k. rewrite Hrec. simpl. destruct (decide (k = key)) as [->|Hne].
      * rewrite lookup_delete_eq.
        destruct (decide (key ∈ keys)), (decide (key ∈ key :: keys)) as [|Hn];
          try done; exfalso; apply Hn; by left.
      * rewrite lookup_delete_ne by done.
        destruct (decide (k ∈ keys)), (decide (k ∈ key :: keys)) as [Hin|Hn];
          try done.
        -- exfalso. apply Hn. by right.
        -- by apply elem_of_cons in Hin as [?|?].
    + intros k. rewrite Hinv. simpl. rewrite elem_of_cons.
      assert (Hb : (b =? 0)%Z = false <-> is_Some (records st !! key)).
      { unfold b. case_bool_decide; simpl; naive_solver. }
      assert (Hin1 : k ∈ inv1 <-> k ∈ inv \/ (k = key /\ is_Some (records st !! key) /\ key ≠ EmptyString)).
      { unfold inv1. destruct (String.eqb key EmptyString) eqn:E; simpl.
        - apply String.eqb_eq in E. naive_solver.
        - apply String.eqb_neq in E. destruct (b =? 0)%Z eqn:Eb; simpl.
          + assert (~ is_Some (records st !! key)). { intros ?%Hb. congruence. } naive_solver.
          + assert (is_Some (records st !! key)) by (by apply Hb). set_solver. }
      rewrite Hin1.
      destruct (decide (k = key)) as [->|Hne].
      * rewrite lookup_delete_eq. split; [|naive_solver].
        intros [[?|?]|(_ & [? ?] & _)]; naive_solver.
      * rewrite lookup_delete_ne by done. naive_solver.
Qed.

Lemma invalidate_spec keys s :
  sets (redis (invalidate keys s)) = sets (redis s)
  /\ (forall k, records (redis (invalidate keys s)) !! k
                = if decide (k ∈ keys) then None else records (redis s) !! k)
  /\ (forall k, k ∈ keysInvalidated (invalidate keys s) <->
                k ∈ keysInvalidated s
                \/ (k ∈ keys /\ is_Some (records (redis s) !! k)
                    /\ k ≠ EmptyString)).
Proof.
  destruct keys as [|key keys].
  { simpl. split; [done|]. split; [done|]. intros k. set_solver. }
  unfold invalidate, multi_exec.
  pose proof (delquery_batch (key :: keys) (redis s) (keysInvalidated s))
    as (Hsets & Hrec & Hinv).
  pose proof (run_batch_length (Delquery <$> key :: keys) (redis s)) as Hlen.
  rewrite length_fmap in Hlen.
  destruct (run_batch (Delquery <$> key :: keys) (redis s)) as [st' rs].
  simpl in Hsets, Hrec, Hinv, Hlen. destruct rs as [|r rs]; [done|].
  simpl. split; [done|]. split; [done|].
  intros k. rewrite recordResults_zip by (simpl in *; lia). apply Hinv.
Qed.

Lemma state_eq (s1 s2 : state) :
  sets (redis s1) = sets (redis s2) ->
  (forall k, records (redis s1) !! k = records (redis s2) !! k) ->
  (forall k, k ∈ keysInvalidated s1 <-> k ∈ keysInvalidated s2) ->
  s1 = s2.
Proof.
  destruct s1 as [[r1 t1] i1], s2 as [[r2 t2] i2]. simpl.
  intros -> Hr Hi. f_equal; [f_equal; by apply map_eq|].
  apply set_eq. done.
Qed.

(** C7: [invalidate] sends the deletions of all the keys as one batch,
    whose result tells per key whether it existed. Afterwards none of the
    keys has a record and every other record, and every set, is as before;
    the keys newly recorded in [keysInvalidated] are exactly the non-empty
    keys of the batch that had a record. Deleting a key that has no record
    changes nothing and replies 0 without an error, so a second
    invalidation of the same keys changes nothing, and records nothing even
    into an empty [keysInvalidated]. *)
Theorem invalidate_only_existing_keys :
  forall keys s,
    (forall k, k ∈ keys -> records (redis (invalidate keys s)) !! k = None)
    /\ (forall k, k ∉ keys ->
          records (redis (invalidate keys s)) !! k = records (redis s) !! k)
    /\ sets (redis (invalidate keys s)) = sets (redis s)
    /\ (forall k, k ∈ keysInvalidated (invalidate keys s) <->
                  k ∈ keysInvalidated s
                  \/ (k ∈ keys /\ is_Some (records (redis s) !! k)
                      /\ k ≠ EmptyString))
    /\ (forall k st, records st !! k = None ->
                     run_command (Delquery k) st = (st, 0%Z))
    /\ invalidate keys (invalidate keys s) = invalidate keys s
    /\ keysInvalidated
         (invalidate keys {| redis := redis (invalidate keys s);
                             keysInvalidated := ∅ |}) = ∅.
Proof.
  intros keys s.
  destruct (invalidate_spec keys s) as (Hsets & Hrec & Hinv).
  split; [|split; [|split; [|split; [|split; [|split]]]]]; try done.
  - intros k Hk. rewrite Hrec. by rewrite decide_True.
  - intros k Hk. rewrite Hrec. by rewrite decide_False.
  - intros k [r t] Hk. unfold run_command, delquery. simpl in *.
    rewrite Hk. simpl. by rewrite delete_id.
  - destruct (invalidate_spec keys (invalidate keys s)) as (Hsets2 & Hrec2 & Hinv2).
    apply state_eq; [done| |].
    + intros k. rewrite Hrec2, Hrec. by destruct (decide (k ∈ keys)).
    + intros k. rewrite Hinv2. split; [|by left].
      intros [?|(Hk & [x Hx] & _)]; [done|].
      rewrite Hrec, decide_True in Hx by done. done.
  - apply set_eq. intros k.
    destruct (invalidate_spec keys {| redis := redis (invalidate keys s);
                                      keysInvalidated := ∅ |}) as (_ & _ & Hinv2).
    rewrite Hinv2. simpl. split; [|set_solver].
    intros [?|(Hk & [x Hx] & _)]; [done|].
    rewrite Hrec, decide_True in Hx by done. done.
Qed.

Lemma elem_of_dependents st ids k :
  k ∈ (⋃ (smembers st <$> dependencyKeys ids) : gset string) <->
  exists id, id ∈ ids /\ (k ∈ smembers st ("O:" +:+ id)
                          \/ k ∈ smembers st ("P:" +:+ id)).
Proof.
  rewrite elem_of_union_list. unfold dependencyKeys. split.
  - intros (X & HX & Hk). apply list_elem_of_fmap in HX as (key & -> & Hkey).
    apply elem_of_app in Hkey as [Hkey|Hkey];
      apply list_elem_of_fmap in Hkey as (id & -> & Hid); eauto.
  - intros (id & Hid & [Hk|Hk]); eexists; (split; [|exact Hk]);
      apply list_elem_of_fmap; eexists; (split; [done|]); apply elem_of_app;
      [left|right]; apply list_elem_of_fmap; eauto.
Qed.

(** X1: [doRemoveInvalidation] of handler.ts, for a remove event with at
    least one id: the records deleted are exactly those of the keys found
    in the set [O:<id>] or in the set [P:<id>] of some removed id; every
    other record and every set stays. *)
Theorem remove_invalidates_dependents :
  forall ids s, ids ≠ [] ->
    exists s', doRemoveInvalidation ids s = Ok s'
      /\ sets (redis s') = sets (redis s)
      /\ (forall k,
            (exists id, id ∈ ids
               /\ (k ∈ smembers (redis s) ("O:" +:+ id)
                   \/ k ∈ smembers (redis s) ("P:" +:+ id))) ->
            records (redis s') !! k = None)
      /\ (forall k,
            ~ (exists id, id ∈ ids
                 /\ (k ∈ smembers (redis s) ("O:" +:+ id)
                     \/ k ∈ smembers (redis s) ("P:" +:+ id))) ->
            records (redis s') !! k = records (redis s) !! k).
Proof.
  intros ids s Hids. unfold doRemoveInvalidation, sunion.
  destruct (dependencyKeys ids) as [|dk dks] eqn:Hdk.
  { destruct ids; [done|discriminate]. }
  rewrite <- Hdk. clear Hdk dk dks. simpl.
  set (U := (⋃ (smembers (redis s) <$> dependencyKeys ids) : gset string)).
  assert (HU : forall k, k ∈ elements U <->
            exists id, id ∈ ids /\ (k ∈ smembers (redis s) ("O:" +:+ id)
                                    \/ k ∈ smembers (redis s) ("P:" +:+ id))).
  { intros k. rewrite elem_of_elements. apply elem_of_dependents. }
  destruct (elements U) as [|d ds] eqn:HE.
  - exists s. split; [done|]. split; [done|]. split; [|done].
    intros k Hk. apply HU in Hk. by apply elem_of_nil in Hk.
  - rewrite <- HE in *. exists (invalidate (elements U) s). split; [done|].
    destruct (invalidate_spec (elements U) s) as (Hsets & Hrec & _).
    split; [done|]. split; intros k Hk; rewrite Hrec.
    + rewrite decide_True; [done|]. by apply HU.
    + rewrite decide_False; [done|]. by rewrite HU.
Qed.

(** C3: a remove event that carries document ids. The keys the handler
    deletes are exactly the union, over the removed ids, of the members of
    the set [O:<id>] (the keys that hold the document in their result) and
    of the set [P:<id>] (the keys that reference it through a populated
    path): afterwards the records are those of the keys outside that
    union, every set is as before, and the keys of the union that had a
    record (and are not empty) are recorded as invalidated. *)
Theorem remove_event_invalidates_union :
  forall modelName ids s, ids ≠ [] ->
    exists s',
      onCacheEffect (Remove modelName ids) s = Ok s'
      /\ records (redis s')
         = filter (fun e => e.1 ∉ dependents (redis s) ids) (records (redis s))
      /\ sets (redis s') = sets (redis s)
      /\ (forall k, k ∈ keysInvalidated s' <->
            k ∈ keysInvalidated s
            \/ (k ∈ dependents (redis s) ids
                /\ is_Some (records (redis s) !! k) /\ k ≠ EmptyString)).
Proof.
  intros modelName ids s Hids.
  set (U := (⋃ (smembers (redis s) <$> dependencyKeys ids) : gset string)).
  assert (HU : forall k, k ∈ elements U <-> k ∈ dependents (redis s) ids).
  { intros k. rewrite elem_of_elements. unfold U.
    rewrite elem_of_dependents. unfold dependents.
    rewrite elem_of_union_list. split.
    - intros (id & Hid & Hk). eexists. split.
      + apply list_elem_of_fmap. by exists id.
      + by apply elem_of_union.
    - intros (X & HX & Hk). apply list_elem_of_fmap in HX as (id & -> & Hid).
      exists id. split; [done|]. by apply elem_of_union in Hk. }
  assert (Hs : sunion (redis s) (dependencyKeys ids) = Ok (elements U)).
  { unfold sunion, U. destruct (dependencyKeys ids) eqn:Hdk; [|done].
    destruct ids; [done|discriminate]. }
  assert (Hrun : onCacheEffect (Remove modelName ids) s
                 = Ok (invalidate (elements U) s)).
  { unfold onCacheEffect, doRemoveInvalidation. rewrite Hs.
    cbn [result_bind]. by destruct (elements U). }
  exists (invalidate (elements U) s). split; [exact Hrun|].
  destruct (invalidate_spec (elements U) s) as (Hsets & Hrec & Hinv).
  split; [|split; [done|]].
  - apply map_eq. intros k. rewrite Hrec. apply option_eq. intros v.
    rewrite map_lookup_filter_Some. simpl. rewrite <- HU.
    destruct (decide (k ∈ elements U)); naive_solver.
  - intros k. rewrite Hinv. by rewrite HU.
Qed.

End HandlerFacts.

(** * Facts about cached execution *)

Section ExecFacts.

Import Redis CachedQuery.
Context `{Imports}.

Lemma outsideCache_spec cc sk lim :
  outsideCache cc sk lim = true <-> goes_direct cc sk lim.
Proof.
  unfold outsideCache, goes_direct. rewrite orb_true_iff, andb_true_iff.
  rewrite bool_decide_eq_true. destruct lim as [l|].
  - rewrite andb_true_iff. naive_solver.
  - naive_solver.
Qed.

Lemma goes_direct_integers (c s l : Z) :
  goes_direct (Num c) (Num s) (Some (Num l)) <-> (l ≠ 0 /\ c < l + s)%Z.
Proof.
  unfold goes_direct, num_gt. simpl. split.
  - intros [[_ ?]|(l' & [= <-] & Hl & Hgt)]; [done|]. simpl in *.
    apply negb_true_iff, Z.eqb_neq in Hl. apply Z.ltb_lt in Hgt. done.
  - intros [Hl Hgt]. right. eexists. split; [done|]. simpl. split.
    + by apply negb_true_iff, Z.eqb_neq.
    + by apply Z.ltb_lt.
Qed.

Lemma run_batch_app a b st :
  (run_batch (a ++ b) st).1 = (run_batch b (run_batch a st).1).1.
Proof.
  revert st. induction a as [|c a IH]; intros st; [done|].
  rewrite <- app_comm_cons. simpl.
  destruct (run_command c st) as [st1 r]. specialize (IH st1).
  destruct (run_batch (a ++ b) st1) as [st2 rs].
  destruct (run_batch a st1) as [st3 rs3]. simpl in *.
  by destruct (run_batch b st3).
Qed.

Lemma run_batch_cons' c cmds st :
  (run_batch (c :: cmds) st).1 = (run_batch cmds (run_command c st).1).1.
Proof.
  simpl. destruct (run_command c st) as [st1 r]. simpl.
  by destruct (run_batch cmds st1).
Qed.

Lemma smembers_sadd st key member k :
  smembers (run_command (Sadd key member) st).1 k
  = if decide (k = key) then {[member]} ∪ smembers st key else smembers st k.
Proof.
  unfold smembers at 1. simpl. destruct (decide (k = key)) as [->|Hne].
  - by rewrite lookup_insert_eq.
  - by rewrite lookup_insert_ne.
Qed.

Lemma run_set_only cmds : forall st,
  Forall set_only cmds ->
  records (run_batch cmds st).1 = records st
  /\ (forall k m, m ∈ smembers st k -> m ∈ smembers (run_batch cmds st).1 k)
  /\ (forall k m, Sadd k m ∈ cmds -> m ∈ smembers (run_batch cmds st).1 k).
Proof.
  induction cmds as [|c cmds IH]; intros st Hall.
  - split; [done|]. split; [done|]. by intros k m ?%elem_of_nil.
  - apply Forall_cons in Hall as [Hc Hall]. rewrite run_batch_cons'.
    destruct (IH (run_command c st).1 Hall) as (Hrec & Hmono & Hadd).
    destruct c as [| |key member|key ttl|]; try done.
    + split; [by rewrite Hrec|]. split.
      * intros k m Hm. apply Hmono. rewrite smembers_sadd.
        destruct (decide (k = key)) as [->|]; set_solver.
      * intros k m [[= -> ->]|Hin]%elem_of_cons; [|by apply Hadd].
        apply Hmono. rewrite smembers_sadd. rewrite decide_True by done. set_solver.
    + split; [by rewrite Hrec|]. split; [done|].
      intros k m [?|Hin]%elem_of_cons; [done|by apply Hadd].
Qed.

Lemma cacheCommands_split cq result cacheKey :
  exists rest,
    cacheCommands cq result cacheKey
    = [Del cacheKey; Hset cacheKey "V" (serialize result);
       Hset cacheKey "O" (Text (join " " (_id <$> result)));
       Hset cacheKey "P"
         (Text (join " " (collectPopulatedIds result (populate (config cq)))))]
      ++ rest
    /\ Forall set_only rest
    /\ Sadd ("A:" +:+ hash cq) cacheKey ∈ rest
    /\ (forall d, d ∈ result -> Sadd ("O:" +:+ _id d) cacheKey ∈ rest)
    /\ (forall p, p ∈ collectPopulatedIds result (populate (config cq)) ->
                  Sadd ("P:" +:+ p) cacheKey ∈ rest).
Proof.
  unfold cacheCommands. eexists. split; [reflexivity|].
  set (ttl := expiry (config cq)).
  assert (Hpairs : forall (pre : string) (ids : list string),
            Forall set_only (concat ((fun id => [Sadd (pre +:+ id) cacheKey;
                                                 Expiregt (pre +:+ id) ttl]) <$> ids))
            /\ forall id, id ∈ ids ->
                 Sadd (pre +:+ id) cacheKey
                 ∈ concat ((fun id => [Sadd (pre +:+ id) cacheKey;
                                       Expiregt (pre +:+ id) ttl]) <$> ids)).
  { intros pre ids. induction ids as [|i ids [IH1 IH2]]; simpl.
    - split; [constructor|]. by intros id ?%elem_of_nil.
    - split; [by repeat constructor|].
      intros id [->|Hin]%elem_of_cons; [by left|]. right. right. by apply IH2. }
  destruct (Hpairs "O:" (_id <$> result)) as [HO1 HO2].
  destruct (Hpairs "P:" (collectPopulatedIds result (populate (config cq))))
    as [HP1 HP2].
  split; [|split; [|split]].
  - repeat (apply Forall_cons; split; [done|]). by apply Forall_app.
  - by left.
  - intros d Hd. do 3 right. apply elem_of_app. left. apply HO2.
    apply list_elem_of_fmap. eauto.
  - intros p Hp. do 3 right. apply elem_of_app. right. by apply HP2.
Qed.

Lemma serializeAndCache_store cq result cacheKey st :
  serializeAndCache cq result cacheKey st
  = ((run_batch (cacheCommands cq result cacheKey) st).1,
     [Multi (cacheCommands cq result cacheKey)]).
Proof.
  unfold serializeAndCache, multi_exec.
  by destruct (run_batch (cacheCommands cq result cacheKey) st).
Qed.

Lemma cache_batch_writes cq result cacheKey st st' :
  st' = (run_batch (cacheCommands cq result cacheKey) st).1 ->
  hgetBuffer st' cacheKey "V" = Some result
  /\ cacheKey ∈ smembers st' ("A:" +:+ hash cq)
  /\ (forall d, d ∈ result -> cacheKey ∈ smembers st' ("O:" +:+ _id d))
  /\ (forall p, p ∈ collectPopulatedIds result (populate (config cq)) ->
                cacheKey ∈ smembers st' ("P:" +:+ p))
  /\ (forall k, k ≠ cacheKey -> records st' !! k = records st !! k).
Proof.
  intros ->.
  destruct (cacheCommands_split cq result cacheKey)
    as (rest & -> & Hall & HA & HO & HP).
  rewrite run_batch_app.
  set (st4 := (run_batch _ st).1).
  destruct (run_set_only rest st4 Hall) as (Hrec & Hmono & Hadd).
  split; [|split; [|split; [|split]]].
  - unfold hgetBuffer. rewrite Hrec. unfold st4. simpl.
    rewrite lookup_insert_eq. rewrite !lookup_insert_eq. simpl.
    rewrite lookup_insert_ne by done. rewrite lookup_insert_ne by done.
    by rewrite lookup_insert_eq.
  - by apply Hadd.
  - intros d Hd. by apply Hadd, HO.
  - intros p Hp. by apply Hadd, HP.
  - intros k Hk. rewrite Hrec. unfold st4. simpl.
    rewrite !lookup_insert_ne by done. by rewrite lookup_delete_ne.
Qed.

(** The test of [exec]: a call whose [cacheCount] is below [Infinity] and
    that asks no limit, or that asks a limit other than 0 (and [NaN]) with
    [limit + skip] above [cacheCount], is answered by the source of truth
    alone: the store is neither read nor written. Every other call that
    does not set [skipCache] starts by reading field [V] of its cache
    key. *)
Lemma exec_direct_or_cached :
  forall cq input opts st,
    parseOpts cq input = Ok opts ->
    (goes_direct (cacheCount (config cq))
                 (default (Num 0) (skip (po_exec opts))) (limit (po_exec opts)) ->
       exec cq input st
       = Ok (mongoose (context cq) (buildQuery cq opts), st,
             [Find (buildQuery cq opts)]))
    /\ (~ goes_direct (cacheCount (config cq))
                      (default (Num 0) (skip (po_exec opts)))
                      (limit (po_exec opts)) ->
        default false (skipCache (po_exec opts)) = false ->
        exists docs st' log,
          exec cq input st = Ok (docs, st', Hget (po_key opts) "V" :: log)).
Proof.
  intros cq input opts st Hparse. unfold exec. rewrite Hparse.
  cbn [result_bind]. split.
  - intros Hd. apply outsideCache_spec in Hd. by rewrite Hd.
  - intros Hd Hskip. rewrite <- outsideCache_spec in Hd.
    apply not_true_is_false in Hd. rewrite Hd, Hskip. cbn [negb].
    destruct (hgetBuffer st (po_key opts) "V") as [docs|]; [by eexists _, _, _|].
    destruct (_ || _); [|by eexists _, _, _].
    rewrite serializeAndCache_store. by eexists _, _, _.
Qed.

(** C4: a window that exceeds [cacheCount] is not always sent to the
    source of truth. With [cacheCount] a number c above 0, limit 0 and a
    skip above c, the window exceeds [cacheCount]; [buildQuery] reads the
    limit 0 as no limit and would ask the source of truth for every
    document after the skip. Yet [exec] reads the cache: on a hit it
    answers from the cached documents; on a miss it asks the source of
    truth for the first c documents only, writes them to the cache, and
    answers from them. *)
Theorem exec_zero_limit_served_from_cache :
  forall cq input opts st c s,
    parseOpts cq input = Ok opts ->
    unique (config cq) = false ->
    cacheCount (config cq) = Num c -> (0 < c)%Z ->
    limit (po_exec opts) = Some (Num 0) ->
    skip (po_exec opts) = Some (Num s) -> (c < s)%Z ->
    default false (skipCache (po_exec opts)) = false ->
    let fetch := fresh opts {| skip := None; limit := Some (Num c);
                               filter := None; skipCache := None |} in
    let window := fun docs : list Doc =>
      skipAndLimit (match filter (po_exec opts) with
                    | Some f => List.filter f docs
                    | None => docs
                    end) (Num s) (Some (Num 0)) in
    num_gt (num_add (Num 0) (Num s)) (cacheCount (config cq)) = true
    /\ q_skip (buildQuery cq opts) = Some (Num s)
    /\ q_limit (buildQuery cq opts) = None
    /\ q_skip (buildQuery cq fetch) = None
    /\ q_limit (buildQuery cq fetch) = Some (Num c)
    /\ (forall docs, hgetBuffer st (po_key opts) "V" = Some docs ->
          exec cq input st
          = Ok (window docs, st, [Hget (po_key opts) "V"]))
    /\ (hgetBuffer st (po_key opts) "V" = None ->
        exec cq input st
        = Ok (window (execMongo cq fetch),
              (serializeAndCache cq (execMongo cq fetch) (po_key opts) st).1,
              [Hget (po_key opts) "V"; Find (buildQuery cq fetch);
               Multi (cacheCommands cq (execMongo cq fetch) (po_key opts))])).
Proof.
  intros cq input opts st c s Hparse Hu Hcc Hc Hl Hs Hcs Hskip fetch window.
  assert (Hs0 : (s =? 0)%Z = false) by (apply Z.eqb_neq; lia).
  assert (Hc0 : (c =? 0)%Z = false) by (apply Z.eqb_neq; lia).
  split; [rewrite Hcc; apply Z.ltb_lt; lia|].
  split; [unfold buildQuery; by rewrite Hu, Hs; cbn; rewrite Hs0|].
  split; [unfold buildQuery; by rewrite Hu, Hl|].
  split; [unfold buildQuery; by rewrite Hu|].
  split; [unfold buildQuery; rewrite Hu; cbn; by rewrite Hc0|].
  assert (Hout : outsideCache (cacheCount (config cq))
                   (default (Num 0) (skip (po_exec opts)))
                   (limit (po_exec opts)) = false).
  { unfold outsideCache. rewrite Hl. cbn. by rewrite andb_false_r. }
  split.
  - intros docs Hhit. unfold exec. rewrite Hparse. cbn [result_bind].
    rewrite Hout, Hskip, Hhit. cbn [negb]. unfold window.
    by rewrite Hs, Hl.
  - intros Hmiss. unfold exec. rewrite Hparse. cbn [result_bind].
    rewrite Hout, Hskip, Hmiss. cbn [negb]. rewrite Hcc. fold fetch.
    rewrite Hu. rewrite orb_true_r. rewrite serializeAndCache_store.
    unfold window. by rewrite Hs, Hl.
Qed.

(** C5, amended: with a client-side filter, a call that goes through the
    cache returns the candidate result (the cached array, or the documents
    fetched on a miss) filtered first and windowed by [skipAndLimit]
    afterwards; this is every call when [cacheCount] is [Infinity]. A call
    that goes straight to the source of truth returns what the source of
    truth answers, and the filter is not applied. *)
Theorem exec_filter_then_window :
  forall cq input opts st f,
    parseOpts cq input = Ok opts ->
    filter (po_exec opts) = Some f ->
    (~ goes_direct (cacheCount (config cq))
                   (default (Num 0) (skip (po_exec opts)))
                   (limit (po_exec opts)) ->
       exists st' log,
         exec cq input st
         = Ok (skipAndLimit (List.filter f (candidate cq opts st))
                            (default (Num 0) (skip (po_exec opts)))
                            (limit (po_exec opts)), st', log))
    /\ (cacheCount (config cq) = Infinity ->
        ~ goes_direct (cacheCount (config cq))
                      (default (Num 0) (skip (po_exec opts)))
                      (limit (po_exec opts)))
    /\ (goes_direct (cacheCount (config cq))
                    (default (Num 0) (skip (po_exec opts)))
                    (limit (po_exec opts)) ->
        exec cq input st
        = Ok (execMongo cq opts, st, [Find (buildQuery cq opts)])).
Proof.
  intros cq input opts st f Hparse Hf. unfold exec. rewrite Hparse.
  cbn [result_bind]. split; [|split].
  - intros Hd. rewrite <- outsideCache_spec in Hd.
    apply not_true_is_false in Hd. rewrite Hd, Hf. unfold candidate.
    destruct (default false (skipCache (po_exec opts))); cbn [negb].
    + destruct (_ || _); [rewrite serializeAndCache_store|]; by eexists _, _.
    + destruct (hgetBuffer st (po_key opts) "V") as [docs|]; [by eexists _, _|].
      cbn [default]. destruct (_ || _); [rewrite serializeAndCache_store|];
        by eexists _, _.
  - intros -> [[? _]|(l & _ & _ & Hgt)]; [done|].
    unfold num_gt in Hgt. by destruct (num_add _ _).
  - intros Hd. apply outsideCache_spec in Hd. by rewrite Hd.
Qed.

(** C6: on a cache miss (nothing cached under the key, or [skipCache]) of
    a call that goes through the cache: when the definition is unique and
    the source of truth returns no document, the store is left as it was
    and no batch is sent, so the same call made again asks the source of
    truth again; when a document is returned, or the definition is not
    unique, the batch of [serializeAndCache] is sent and afterwards the key
    holds the fetched documents and is a member of the definition's [A:]
    set, of the [O:] set of every document and of the [P:] set of every
    populated id. *)
Theorem exec_unique_empty_not_cached :
  forall cq input opts st,
    parseOpts cq input = Ok opts ->
    ~ goes_direct (cacheCount (config cq))
                  (default (Num 0) (skip (po_exec opts)))
                  (limit (po_exec opts)) ->
    (default false (skipCache (po_exec opts)) = true
     \/ hgetBuffer st (po_key opts) "V" = None) ->
    forall fetch fetched,
      fetch = fresh opts {| skip := None; limit := Some (cacheCount (config cq));
                            filter := None; skipCache := None |} ->
      fetched = execMongo cq fetch ->
      (unique (config cq) = true -> fetched = [] ->
         exists docs log,
           exec cq input st = Ok (docs, st, log)
           /\ Find (buildQuery cq fetch) ∈ log
           /\ (forall cmds, Multi cmds ∉ log)
           /\ (forall docs1 st1 log1,
                 exec cq input st = Ok (docs1, st1, log1) ->
                 exists docs2 st2 log2,
                   exec cq input st1 = Ok (docs2, st2, log2)
                   /\ Find (buildQuery cq fetch) ∈ log2))
      /\ (fetched ≠ [] \/ unique (config cq) = false ->
          exists docs st' log,
            exec cq input st = Ok (docs, st', log)
            /\ Multi (cacheCommands cq fetched (po_key opts)) ∈ log
            /\ hgetBuffer st' (po_key opts) "V" = Some fetched
            /\ po_key opts ∈ smembers st' ("A:" +:+ hash cq)
            /\ (forall d, d ∈ fetched ->
                          po_key opts ∈ smembers st' ("O:" +:+ _id d))
            /\ (forall p,
                  p ∈ collectPopulatedIds fetched (populate (config cq)) ->
                  po_key opts ∈ smembers st' ("P:" +:+ p))).
Proof.
  intros cq input opts st Hparse Hd Hmiss fetch fetched -> ->.
  rewrite <- outsideCache_spec in Hd. apply not_true_is_false in Hd.
  set (fetch := fresh opts _). set (fetched := execMongo cq fetch).
  assert (Hcached :
    (if negb (default false (skipCache (po_exec opts)))
     then (hgetBuffer st (po_key opts) "V", [Hget (po_key opts) "V"])
     else (None, []))
    = (None, if negb (default false (skipCache (po_exec opts)))
             then [Hget (po_key opts) "V"] else [])).
  { destruct Hmiss as [->| ->]; [done|]. by destruct (negb _). }
  split.
  - intros Hu He.
    assert (Hexec : exists docs log,
              exec cq input st = Ok (docs, st, log)
              /\ Find (buildQuery cq fetch) ∈ log
              /\ (forall cmds, Multi cmds ∉ log)).
    { unfold exec. rewrite Hparse. cbn [result_bind]. rewrite Hd, Hcached.
      fold fetch. fold fetched. rewrite He, Hu. cbn.
      eexists _, _. split; [done|]. split.
      - apply elem_of_app. right. by left.
      - intros cmds [Hin|Hin]%elem_of_app.
        + destruct (negb _); [|by apply elem_of_nil in Hin].
          by apply list_elem_of_singleton in Hin.
        + by apply list_elem_of_singleton in Hin. }
    destruct Hexec as (docs & log & Hex & Hfind & Hmulti).
    exists docs, log. split; [done|]. split; [done|]. split; [done|].
    intros docs1 st1 log1 Hex1. rewrite Hex in Hex1. injection Hex1 as <- <- <-.
    by exists docs, st, log.
  - intros Hcase.
    assert (Hwrite : bool_decide (0 < length fetched) || negb (unique (config cq)) = true).
    { destruct Hcase as [Hne| ->]; [|by rewrite orb_true_r].
      apply orb_true_iff. left. apply bool_decide_eq_true_2.
      destruct fetched; [done|simpl; lia]. }
    unfold exec. rewrite Hparse. cbn [result_bind]. rewrite Hd, Hcached.
    fold fetch. fold fetched. rewrite Hwrite, serializeAndCache_store.
    eexists _, _, _. split; [done|].
    destruct (cache_batch_writes cq fetched (po_key opts) st _ eq_refl)
      as (HV & HA & HO & HP & _).
    split; [|done]. apply elem_of_app. right. right. by left.
Qed.

(** X2: read-through. When a call that goes through the cache misses and
    its result is cached, the same call made again is answered from the
    cache alone, with the same documents and no change to the store. *)
Theorem exec_hit_after_miss :
  forall cq input opts st docs st' log,
    parseOpts cq input = Ok opts ->
    ~ goes_direct (cacheCount (config cq))
                  (default (Num 0) (skip (po_exec opts)))
                  (limit (po_exec opts)) ->
    default false (skipCache (po_exec opts)) = false ->
    hgetBuffer st (po_key opts) "V" = None ->
    (candidate cq opts st ≠ [] \/ unique (config cq) = false) ->
    exec cq input st = Ok (docs, st', log) ->
    exec cq input st' = Ok (docs, st', [Hget (po_key opts) "V"]).
Proof.
  intros cq input opts st docs st' log Hparse Hd Hskip Hmiss Hcase Hexec.
  rewrite <- outsideCache_spec in Hd. apply not_true_is_false in Hd.
  unfold candidate in Hcase. rewrite Hskip, Hmiss in Hcase.
  cbn [default] in Hcase.
  set (fetch := fresh opts _) in *. set (fetched := execMongo cq fetch) in *.
  set (window := fun result : list Doc =>
         skipAndLimit (match filter (po_exec opts) with
                       | Some f => List.filter f result
                       | None => result
                       end)
                      (default (Num 0) (skip (po_exec opts)))
                      (limit (po_exec opts))).
  set (cached := (run_batch (cacheCommands cq fetched (po_key opts)) st).1).
  assert (Hwrite : bool_decide (0 < length fetched)
                   || negb (unique (config cq)) = true).
  { destruct Hcase as [Hne| ->]; [|by rewrite orb_true_r].
    apply orb_true_iff. left. apply bool_decide_eq_true_2.
    destruct fetched; [done|simpl; lia]. }
  assert (Hfirst : exists log0,
            exec cq input st = Ok (window fetched, cached, log0)).
  { unfold exec. rewrite Hparse. cbn [result_bind].
    rewrite Hd, Hskip, Hmiss. cbn [negb]. fold fetch. fold fetched.
    rewrite Hwrite, serializeAndCache_store. by eexists. }
  destruct Hfirst as [log0 Hfirst]. rewrite Hfirst in Hexec.
  assert (Hsame : docs = window fetched /\ st' = cached)
    by (by injection Hexec).
  destruct Hsame as [-> ->].
  destruct (cache_batch_writes cq fetched (po_key opts) st cached eq_refl)
    as (HV & _).
  unfold exec. rewrite Hparse. cbn [result_bind]. rewrite Hd, Hskip, HV.
  done.
Qed.

(** X3: a key the handler invalidated is fetched anew. After [invalidate]
    of a batch that holds the key of a call, the call (when it goes
    through the cache) finds nothing cached and asks the source of truth. *)
Theorem exec_after_invalidate :
  forall cq input opts keys s,
    parseOpts cq input = Ok opts ->
    ~ goes_direct (cacheCount (config cq))
                  (default (Num 0) (skip (po_exec opts)))
                  (limit (po_exec opts)) ->
    po_key opts ∈ keys ->
    hgetBuffer (Handler.redis (Handler.invalidate keys s)) (po_key opts) "V"
    = None
    /\ exists docs st' log,
         exec cq input (Handler.redis (Handler.invalidate keys s))
         = Ok (docs, st', log)
         /\ Find (buildQuery cq
                    (fresh opts {| skip := None;
                                   limit := Some (cacheCount (config cq));
                                   filter := None; skipCache := None |}))
            ∈ log.
Proof.
  intros cq input opts keys s Hparse Hd Hin.
  destruct (invalidate_spec keys s) as (_ & Hrec & _).
  assert (Hnone : hgetBuffer (Handler.redis (Handler.invalidate keys s))
                    (po_key opts) "V" = None).
  { unfold hgetBuffer. rewrite Hrec. by rewrite decide_True. }
  split; [exact Hnone|].
  rewrite <- outsideCache_spec in Hd. apply not_true_is_false in Hd.
  unfold exec. rewrite Hparse. cbn [result_bind]. rewrite Hd, Hnone.
  destruct (negb (default false (skipCache (po_exec opts))));
    destruct (_ || _); rewrite ?serializeAndCache_store;
    eexists _, _, _; (split; [reflexivity|]); cbn [app];
    repeat first [apply list_elem_of_here | apply list_elem_of_further].
Qed.

End ExecFacts.

(** * Facts about cache keys and insert invalidation *)

Section InvalidationFacts.

Import Redis CachedQuery Invalidation.
Context `{Imports}.

Lemma string_app_cons c (s t : string) :
  String c s +:+ t = String c (s +:+ t).
Proof. reflexivity. Qed.

Lemma string_app_nil_r (s : string) : s +:+ EmptyString = s.
Proof.
  induction s as [|c s IH]; [done|]. by rewrite string_app_cons, IH.
Qed.

Lemma string_app_assoc (a b c : string) : (a +:+ b) +:+ c = a +:+ (b +:+ c).
Proof.
  induction a as [|x a IH]; [done|]. by rewrite !string_app_cons, IH.
Qed.

Lemma match_rest_text mid :
  all_chars dot mid = true -> match_rest (mid +:+ "]") = true.
Proof.
  induction mid as [|c mid IH]; [done|]. rewrite string_app_cons.
  cbn [all_chars match_rest].
  intros [Hc Hmid]%andb_true_iff. rewrite Hc, IH by done.
  by rewrite orb_true_r.
Qed.

Lemma match_params_text text : array_text text -> match_params text = true.
Proof.
  intros (mid & -> & Hmid). rewrite string_app_cons. cbn [match_params].
  rewrite (Ascii.eqb_refl "["%char). by apply match_rest_text.
Qed.

Lemma match_groups_plain h : forall acc enc,
  all_chars (fun c => negb (Ascii.eqb c "["%char) && dot c) h = true ->
  acc +:+ h ≠ EmptyString ->
  match_params enc = true ->
  match_groups acc (h +:+ enc) = Some (acc +:+ h, enc).
Proof.
  induction h as [|c h IH]; intros acc enc Hh Hne Henc.
  - rewrite string_app_nil_r in *. change (EmptyString +:+ enc) with enc.
    destruct enc as [|e enc]; [done|]. cbn [match_groups]. rewrite Henc.
    destruct (String.eqb acc EmptyString) eqn:E; [|done].
    by apply String.eqb_eq in E.
  - cbn [all_chars] in Hh. apply andb_true_iff in Hh as [Hc Hh].
    apply andb_true_iff in Hc as [Hb Hdot].
    rewrite string_app_cons.
    cbn [match_groups match_params]. apply negb_true_iff in Hb. rewrite Hb.
    rewrite andb_false_r, Hdot.
    rewrite IH; [|done| |done].
    + by rewrite string_app_assoc.
    + rewrite string_app_assoc, string_app_cons. by destruct acc.
Qed.

(** C2, amended: for a hash that is not empty and holds neither an opening
    bracket nor a line terminator, and a parameter tuple whose encoding is
    an array text on one line that [JSON.parse] reads back as the same
    tuple, [parseCacheKey] of the key built from them gives back the hash
    and the tuple; so does [parseCacheKey] of the key [getCacheKey]
    returns for a definition with that hash. *)
Theorem cache_key_round_trip :
  forall h ps,
    plain_hash h ->
    array_text (EJSON_stringify ps) ->
    JSON_parse (EJSON_stringify ps) = Some ps ->
    parseCacheKey (cacheKeyOf h ps) = Ok (h, ps)
    /\ (forall cq key,
          hash cq = h -> getCacheKey cq ps = Ok key ->
          parseCacheKey key = Ok (h, ps)).
Proof.
  intros h ps [Hne Hh] Htext Hparse.
  assert (Hkey : parseCacheKey (cacheKeyOf h ps) = Ok (h, ps)).
  { unfold parseCacheKey, cacheKeyOf.
    rewrite !string_app_cons. cbn [MATCH_CACHE_KEY].
    change (EmptyString +:+ h +:+ EJSON_stringify ps)
      with (h +:+ EJSON_stringify ps).
    rewrite (match_groups_plain h EmptyString);
      [|done|done|by apply match_params_text].
    change (EmptyString +:+ h) with h. by rewrite Hparse. }
  split; [exact Hkey|].
  intros cq key <-. unfold getCacheKey. by case_bool_decide; intros [= <-].
Qed.

(** C1, amended: [getInsertInvalidation] returns nothing when the
    definition is unique, or does not invalidate on insert, or is of
    another model, and when the matcher rejects the document. Otherwise it
    returns the full-definition invalidation of the definition's hash when
    the classification is complex; and else, when the dynamic keys are as
    many as the parameters the filter declares, the one key built from
    the values of the dynamic keys read off the document, and when they
    are not, it throws the error of [getCacheKey] on the number of
    parameters. With a classification that is not complex it never returns
    a full-definition invalidation. *)
Theorem insert_invalidation_cases :
  forall cq modelName doc,
    (unique (config cq) = true \/ invalidateOnInsert (config cq) = false
     \/ model (config cq) ≠ modelName ->
       getInsertInvalidation cq modelName doc = Ok Nothing)
    /\ (matcher (classification cq) doc = false ->
        getInsertInvalidation cq modelName doc = Ok Nothing)
    /\ (unique (config cq) = false -> invalidateOnInsert (config cq) = true ->
        model (config cq) = modelName ->
        matcher (classification cq) doc = true ->
        (complexQuery (classification cq) = true ->
           getInsertInvalidation cq modelName doc = Ok (All (hash cq)))
        /\ (complexQuery (classification cq) = false ->
            expectNumParams cq ≠ length (dynamicKeys (classification cq)) ->
            getInsertInvalidation cq modelName doc
            = Throw ("Invalid number of params passed: expected "
                     +:+ pretty (expectNumParams cq) +:+ ", got "
                     +:+ pretty (length (dynamicKeys (classification cq)))))
        /\ (complexQuery (classification cq) = false ->
            expectNumParams cq = length (dynamicKeys (classification cq)) ->
            getInsertInvalidation cq modelName doc
            = Ok (Key (hash cq)
                      (cacheKeyOf (hash cq)
                         (doc_get doc <$> dynamicKeys (classification cq))))))
    /\ (complexQuery (classification cq) = false ->
        forall h, getInsertInvalidation cq modelName doc ≠ Ok (All h)).
Proof.
  intros cq modelName doc. unfold getInsertInvalidation.
  split; [|split; [|split]].
  - intros [->|[->|Hm]]; [done|by rewrite orb_true_r|].
    apply String.eqb_neq in Hm. rewrite Hm. by rewrite !orb_true_r.
  - intros ->. by destruct (_ || _).
  - intros -> -> Hm ->. apply String.eqb_eq in Hm. rewrite Hm. simpl.
    split; [by intros ->|]. split.
    + intros -> Hlen. unfold getCacheKey. rewrite length_fmap.
      by rewrite bool_decide_eq_true_2.
    + intros -> Hlen. unfold getCacheKey.
      rewrite bool_decide_eq_false_2; [done|].
      rewrite length_fmap. by intros ?.
  - intros -> h. destruct (_ || _); [done|].
    destruct (negb _); [done|].
    by destruct (getCacheKey _ _).
Qed.

End InvalidationFacts.

(** * The scenarios, run *)

(** A call that asks no limit of a definition whose [cacheCount] is
    [Infinity] is not sent straight to the source of truth. *)
Ltac not_direct :=
  let Hlt := fresh "Hlt" in
  let Hl := fresh "Hl" in
  intros [[Hlt _]|(? & Hl & _)]; [discriminate Hlt|discriminate Hl].

Section ScenarioFacts.

Import Redis CachedQuery Sample Scenario.

(** The key of the scenario: organisation A of [usersOfOrg]. *)
(** The scenario of the spec: inserting a user of organisation A
    invalidates the one key of organisation A. *)
Lemma insert_invalidation_witness :
  expectNumParams usersOfOrg
  = length (dynamicKeys (classification usersOfOrg))
  /\ Invalidation.getInsertInvalidation usersOfOrg "User" (doc "u9" "A")
     = Ok (Invalidation.Key (hash usersOfOrg)
             (cacheKeyOf (hash usersOfOrg) [JStr "A"])).
Proof.
  split; [reflexivity|].
  exact (proj2 (proj2 (proj1 (proj2 (proj2
    (insert_invalidation_cases usersOfOrg "User" (doc "u9" "A"))))
    eq_refl eq_refl eq_refl eq_refl)) eq_refl eq_refl).
Defined.

(** C1 as stated fails: [twoKeys] is not unique, invalidates on insert,
    is of the model, its matcher accepts the document and its
    classification is not complex, yet no key is returned: reading two
    dynamic keys for a filter of one parameter makes [getCacheKey] throw. *)
Lemma insert_invalidation_counterexample :
  unique (config twoKeys) = false
  /\ invalidateOnInsert (config twoKeys) = true
  /\ model (config twoKeys) = "User"
  /\ matcher (classification twoKeys) (doc "u9" "A") = true
  /\ complexQuery (classification twoKeys) = false
  /\ Invalidation.getInsertInvalidation twoKeys "User" (doc "u9" "A")
     = Throw "Invalid number of params passed: expected 1, got 2".
Proof. repeat split; vm_compute; reflexivity. Qed.

(** The key of organisation A parses back to its hash and parameters. *)
Lemma cache_key_round_trip_witness :
  plain_hash "cq-User"
  /\ array_text (EJSON_stringify [JStr "A"])
  /\ Invalidation.parseCacheKey (cacheKeyOf "cq-User" [JStr "A"])
     = Ok ("cq-User", [JStr "A"]).
Proof.
  assert (Hh : plain_hash "cq-User") by (split; [discriminate|reflexivity]).
  assert (Ht : array_text (EJSON_stringify [JStr "A"])).
  { exists (Json.quote "A"). split; reflexivity. }
  split; [exact Hh|]. split; [exact Ht|].
  exact (proj1 (cache_key_round_trip "cq-User" [JStr "A"] Hh Ht eq_refl)).
Defined.

(** C2 as stated fails. With a bracket in the hash the pattern cuts the
    hash short and the rest does not parse; with an empty hash, or a line
    feed in it, the pattern does not match; an [undefined] parameter comes
    back as [null], and an object id comes back as a plain object. *)
Lemma cache_key_round_trip_counterexample :
  Invalidation.MATCH_CACHE_KEY (cacheKeyOf "a[b" []) = Some ("a", "[b[]")
  /\ Invalidation.parseCacheKey (cacheKeyOf "a[b" []) = Throw "SyntaxError"
  /\ Invalidation.parseCacheKey (cacheKeyOf EmptyString [JNum (Num 1)])
     = Throw "Failed to parse cache key"
  /\ Invalidation.parseCacheKey
       (cacheKeyOf ("a" +:+ String "010"%char "b") [JNum (Num 1)])
     = Throw "Failed to parse cache key"
  /\ Invalidation.parseCacheKey (cacheKeyOf "h" [JUndefined])
     = Ok ("h", [JNull])
  /\ Invalidation.parseCacheKey (cacheKeyOf "h" [JObjectId "5f1d"])
     = Ok ("h", [JObj [("$oid", JStr "5f1d")]]).
Proof. repeat split; vm_compute; reflexivity. Qed.

(** The scenario of the spec: removing [x] and [y], where [x] is a primary
    member of [K1] and [y] a populated reference of [K2], deletes [K1] and
    [K2] and nothing else, and records both keys. *)
Lemma remove_event_invalidates_union_witness :
  exists s',
    Handler.onCacheEffect (Handler.Remove "User" ["x"; "y"])
      {| Handler.redis := removeStore; Handler.keysInvalidated := ∅ |} = Ok s'
    /\ records (Handler.redis s') = {[ K3 := entry ["z"] ]}
    /\ K1 ∈ Handler.keysInvalidated s'
    /\ K2 ∈ Handler.keysInvalidated s'.
Proof.
  destruct (remove_event_invalidates_union "User" ["x"; "y"]
              {| Handler.redis := removeStore; Handler.keysInvalidated := ∅ |})
    as (s' & Hrun & Hrec & _ & Hinv); [discriminate|].
  exists s'. split; [exact Hrun|]. split.
  - rewrite Hrec. vm_compute. reflexivity.
  - split; apply Hinv; right;
      (split; [vm_compute; reflexivity|]);
      (split; [by eexists|discriminate]).
Defined.

(** The scenario of the spec on handler.ts: [K1] and [K2] go, [K3] stays. *)
Lemma remove_invalidates_dependents_witness :
  exists s',
    Handler.doRemoveInvalidation ["x"; "y"]
      {| Handler.redis := removeStore; Handler.keysInvalidated := ∅ |} = Ok s'
    /\ records (Handler.redis s') !! K1 = None
    /\ records (Handler.redis s') !! K2 = None
    /\ records (Handler.redis s') !! K3 = Some (entry ["z"]).
Proof.
  destruct (remove_invalidates_dependents ["x"; "y"]
              {| Handler.redis := removeStore; Handler.keysInvalidated := ∅ |})
    as (s' & Hs & _ & Hdel & Hkeep); [discriminate|].
  exists s'. split; [exact Hs|]. split; [|split].
  - apply Hdel. exists "x". split; [by left|]. left. vm_compute. reflexivity.
  - apply Hdel. exists "y". split; [by right; left|]. right. vm_compute. reflexivity.
  - rewrite Hkeep; [reflexivity|].
    intros (id & Hid & Hk).
    apply elem_of_cons in Hid as [->|Hid];
      [|apply elem_of_cons in Hid as [->|Hid]; [|by apply elem_of_nil in Hid]];
      destruct Hk as [Hk|Hk]; vm_compute in Hk; done.
Defined.

(** Three users and [cacheCount] 1, a call with limit 0 and skip 2: the
    source of truth holds [u3] for that window, and [exec] answers with no
    document, from a cache entry it fills with [u1] alone. *)
Lemma exec_zero_limit_served_from_cache_witness :
  exists opts st',
    parseOpts firstUser (window 2 0) = Ok opts
    /\ people (buildQuery firstUser opts) = [doc "u3" "A"]
    /\ exec firstUser (window 2 0) Redis.empty
       = Ok ([], st',
             [Hget (po_key opts) "V";
              Find (buildQuery firstUser
                      (fresh opts {| skip := None; limit := Some (Num 1);
                                     filter := None; skipCache := None |}));
              Multi (cacheCommands firstUser [doc "u1" "A"] (po_key opts))])
    /\ hgetBuffer st' (po_key opts) "V" = Some [doc "u1" "A"].
Proof.
  eexists _, _. split; [reflexivity|]. split; [vm_compute; reflexivity|].
  split.
  - refine (proj2 (proj2 (proj2 (proj2 (proj2 (proj2
              (exec_zero_limit_served_from_cache firstUser (window 2 0) _
                 Redis.empty 1 2 eq_refl eq_refl eq_refl _ eq_refl eq_refl _
                 eq_refl)))))) eq_refl); reflexivity.
  - vm_compute. reflexivity.
Defined.

(** With every user cached or fetched, the filter keeps [u2] and the window
    of one document then returns it. *)
Lemma exec_filter_then_window_witness :
  exists opts st' log,
    parseOpts everyUser onlyU2 = Ok opts
    /\ candidate everyUser opts Redis.empty = [doc "u1" "A"; doc "u2" "A"]
    /\ exec everyUser onlyU2 Redis.empty = Ok ([doc "u2" "A"], st', log).
Proof.
  destruct (proj1 (exec_filter_then_window everyUser onlyU2 _ Redis.empty _
                     eq_refl eq_refl)) as (st' & log & Hexec).
  { intros [[Hlt _]|(l & _ & _ & Hgt)]; [discriminate Hlt|].
    unfold num_gt in Hgt. simpl in Hgt. destruct (num_add l (Num 0)); discriminate Hgt. }
  eexists _, st', log. split; [reflexivity|]. split; [reflexivity|].
  exact Hexec.
Defined.

(** C5 as stated fails: a call without a limit on a definition with
    [cacheCount] 50 goes straight to the source of truth and returns both
    users, though the filter rejects every document. *)
Lemma exec_filter_then_window_counterexample :
  exec allUsers rejectAll Redis.empty
  = Ok ([doc "u1" "A"; doc "u2" "A"], Redis.empty,
        [Find {| q_model := "User"; q_filter := JObj []; q_limit := None;
                 q_sort := None; q_skip := None; q_select := None;
                 q_populate := [] |}])
  /\ skipAndLimit (List.filter (fun _ => false) [doc "u1" "A"; doc "u2" "A"])
                  (Num 0) None = [].
Proof. split; vm_compute; reflexivity. Qed.

(** A unique definition with no match leaves the empty store empty; a
    definition that is not unique caches what it fetched. *)
Lemma exec_unique_empty_not_cached_witness :
  (exists docs log,
     exec oneAccount NoInput Redis.empty = Ok (docs, Redis.empty, log)
     /\ (forall cmds, Multi cmds ∉ log))
  /\ (exists docs st' log,
        exec everyUser NoInput Redis.empty = Ok (docs, st', log)
        /\ hgetBuffer st' (cacheKeyOf (hash everyUser) []) "V"
           = Some [doc "u1" "A"; doc "u2" "A"]).
Proof.
  assert (Hnd : forall sk, ~ goes_direct Infinity sk None)
    by (intros sk; not_direct).
  split.
  - destruct (proj1 (exec_unique_empty_not_cached oneAccount NoInput _
                       Redis.empty eq_refl (Hnd _) (or_intror eq_refl)
                       _ _ eq_refl eq_refl) eq_refl eq_refl)
      as (docs & log & Hexec & _ & Hmulti & _).
    by exists docs, log.
  - destruct (proj2 (exec_unique_empty_not_cached everyUser NoInput _
                       Redis.empty eq_refl (Hnd _) (or_intror eq_refl)
                       _ _ eq_refl eq_refl) (or_intror eq_refl))
      as (docs & st' & log & Hexec & _ & HV & _).
    by exists docs, st', log.
Defined.

(** Invalidating [K1] and a key that has no record: [K1] is deleted and
    recorded, and a second invalidation changes nothing. *)
Lemma invalidate_only_existing_keys_witness :
  records (Handler.redis
             (Handler.invalidate [K1; "Q:none[]"]
                {| Handler.redis := removeStore;
                   Handler.keysInvalidated := ∅ |})) !! K1 = None
  /\ (K1 ∈ Handler.keysInvalidated
             (Handler.invalidate [K1; "Q:none[]"]
                {| Handler.redis := removeStore;
                   Handler.keysInvalidated := ∅ |}))
  /\ Handler.invalidate [K1; "Q:none[]"]
       (Handler.invalidate [K1; "Q:none[]"]
          {| Handler.redis := removeStore; Handler.keysInvalidated := ∅ |})
     = Handler.invalidate [K1; "Q:none[]"]
         {| Handler.redis := removeStore; Handler.keysInvalidated := ∅ |}.
Proof.
  pose proof (invalidate_only_existing_keys [K1; "Q:none[]"]
                {| Handler.redis := removeStore;
                   Handler.keysInvalidated := ∅ |})
    as (Hdel & _ & _ & Hrec & _ & Hidem & _).
  split; [apply Hdel; by left|]. split; [|exact Hidem].
  apply Hrec. right. split; [by left|]. split; [|discriminate].
  eexists. reflexivity.
Defined.

(** Every user, fetched and cached by a first call, is read from the cache
    by the second. *)
Lemma exec_hit_after_miss_witness :
  exists docs st',
    exec everyUser NoInput Redis.empty
    = Ok (docs, st', [Hget (cacheKeyOf (hash everyUser) []) "V";
                      Find (buildQuery everyUser
                              {| po_query := JObj [];
                                 po_key := cacheKeyOf (hash everyUser) [];
                                 po_exec := {| skip := None;
                                               limit := Some Infinity;
                                               filter := None;
                                               skipCache := None |} |});
                      Multi (cacheCommands everyUser
                               [doc "u1" "A"; doc "u2" "A"]
                               (cacheKeyOf (hash everyUser) []))])
    /\ exec everyUser NoInput st'
       = Ok (docs, st', [Hget (cacheKeyOf (hash everyUser) []) "V"]).
Proof.
  assert (Hnd : ~ goes_direct Infinity (Num 0) None) by not_direct.
  eexists _, _. split; [vm_compute; reflexivity|].
  refine (exec_hit_after_miss everyUser NoInput _ Redis.empty _ _ _
            eq_refl Hnd eq_refl eq_refl _ _).
  - left. vm_compute. discriminate.
  - vm_compute. reflexivity.
Defined.

(** The key of every user, cached and then invalidated: the cached result
    is gone, and the call asks the source of truth again. *)
Lemma exec_after_invalidate_witness :
  hgetBuffer
    (serializeAndCache everyUser [doc "u1" "A"; doc "u2" "A"]
       (cacheKeyOf (hash everyUser) []) Redis.empty).1
    (cacheKeyOf (hash everyUser) []) "V"
  = Some [doc "u1" "A"; doc "u2" "A"]
  /\ hgetBuffer
       (Handler.redis
          (Handler.invalidate [cacheKeyOf (hash everyUser) []]
             {| Handler.redis :=
                  (serializeAndCache everyUser [doc "u1" "A"; doc "u2" "A"]
                     (cacheKeyOf (hash everyUser) []) Redis.empty).1;
                Handler.keysInvalidated := ∅ |}))
       (cacheKeyOf (hash everyUser) []) "V" = None
  /\ exists docs st' log,
       exec everyUser NoInput
         (Handler.redis
            (Handler.invalidate [cacheKeyOf (hash everyUser) []]
               {| Handler.redis :=
                    (serializeAndCache everyUser [doc "u1" "A"; doc "u2" "A"]
                       (cacheKeyOf (hash everyUser) []) Redis.empty).1;
                  Handler.keysInvalidated := ∅ |}))
       = Ok (docs, st', log)
       /\ Find (buildQuery everyUser
                  {| po_query := JObj [];
                     po_key := cacheKeyOf (hash everyUser) [];
                     po_exec := {| skip := None; limit := Some Infinity;
                                   filter := None; skipCache := None |} |})
          ∈ log.
Proof.
  assert (Hnd : ~ goes_direct Infinity (Num 0) None) by not_direct.
  split; [vm_compute; reflexivity|].
  exact (exec_after_invalidate everyUser NoInput _
           [cacheKeyOf (hash everyUser) []]
           {| Handler.redis :=
                (serializeAndCache everyUser [doc "u1" "A"; doc "u2" "A"]
                   (cacheKeyOf (hash everyUser) []) Redis.empty).1;
              Handler.keysInvalidated := ∅ |}
           eq_refl Hnd (list_elem_of_here _ _)).
Defined.

End ScenarioFacts.

(** * More facts about the update operators *)

Section MoreOperatorFacts.

Import MongoOperators.

Variable lessThan : heap -> value -> value -> bool.

(** An array is not the target object. *)

Lemma array_not_target (h : heap) target fs a xs :
  h !! target = Some (OObj fs) -> h !! a = Some (OArr xs) -> a ≠ target.
Proof. intros Ht Ha ->. congruence. Qed.

Lemma getValue_insert_other (h : heap) target a o path :
  a ≠ target -> getValue (<[a := o]> h) target path = getValue h target path.
Proof. intros Hne. unfold getValue. by rewrite lookup_insert_ne. Qed.

(** A new array at a missing path: what [$addToSet] and [$push] do when
    the path holds nothing. *)

Lemma new_array_at_path (h : heap) target fs path val :
  h !! target = Some (OObj fs) ->
  exists h' a,
    (arr <- alloc (OArr [val]) ;; setValue target path arr) h = (Ok tt, h')
    /\ h !! a = None
    /\ getValue h' target path = VRef a
    /\ h' !! a = Some (OArr [val])
    /\ h' !! target = Some (OObj (assoc_set path (VRef a) fs))
    /\ only_changed h h' target path [a].
Proof.
  intros Hobj. unfold bind, alloc. set (a := fresh (dom h)).
  assert (Hfresh : h !! a = None).
  { apply not_elem_of_dom. apply is_fresh. }
  assert (Hne : a ≠ target) by (intros ->; congruence).
  unfold setValue. rewrite lookup_insert_ne, Hobj by done.
  eexists _, a. split; [done|]. split; [done|].
  split; [|split; [|split; [|split]]].
  - unfold getValue. rewrite lookup_insert_eq. by rewrite assoc_get_set_eq.
  - by rewrite lookup_insert_ne, lookup_insert_eq.
  - by rewrite lookup_insert_eq.
  - intros p Hp. unfold getValue. rewrite lookup_insert_eq, Hobj.
    by rewrite assoc_get_set_ne.
  - intros l Hl Hl'. rewrite !lookup_insert_ne; [done| |done].
    intros ->. apply Hl'. by left.
Qed.

(** X4: [$push]. On a path that holds nothing it stores a new
    one-element array and touches nothing else; on a path that holds an
    array it appends the value to that very array, also when the array
    holds the value already; on any other value it throws and changes
    nothing. *)

Theorem push_behaviour :
  forall (h : heap) target fs path val,
    h !! target = Some (OObj fs) ->
    (getValue h target path = VUndefined ->
       exists h' a, op_push target path val h = (Ok tt, h')
         /\ h !! a = None
         /\ getValue h' target path = VRef a
         /\ h' !! a = Some (OArr [val])
         /\ only_changed h h' target path [a])
    /\ (forall a xs,
          getValue h target path = VRef a -> h !! a = Some (OArr xs) ->
          op_push target path val h
          = (Ok tt, <[a := OArr (xs ++ [val])]> h))
    /\ (getValue h target path ≠ VUndefined ->
        (forall a xs, getValue h target path = VRef a ->
                      h !! a ≠ Some (OArr xs)) ->
        op_push target path val h
        = (Throw "$push target field must be an array", h)).
Proof.
  intros h target fs path val Hobj. split; [|split].
  - intros Hu. unfold op_push. rewrite Hu.
    destruct (new_array_at_path h target fs path val Hobj)
      as (h' & a & Hrun & Hfresh & Hget & Ha & _ & Hframe).
    by exists h', a.
  - intros a xs Hf Ha. unfold op_push. rewrite Hf. simpl. by rewrite Ha.
  - intros Hu Hn. unfold op_push.
    destruct (getValue h target path) as [| | | | |a] eqn:Hf; try done.
    simpl. destruct (h !! a) as [[| xs |]|] eqn:Ha; try done.
    exfalso. by eapply Hn.
Qed.

(** [===] against a constant that is not [NaN] is equality. *)

Lemma strictEq_decide (v c : value) :
  c ≠ VNum NaN -> strictEq v c = bool_decide (v = c).
Proof.
  intros Hc. unfold strictEq.
  destruct v as [| | |[]| |]; destruct c as [| | |[]| |]; try done.
Qed.

(** X5: [$pop]. On a path that holds nothing it does nothing, whatever
    the operand; on an array, the operand 1 or [true] drops the first
    element, -1 drops the last one, and any other operand throws; on any
    other value it throws. Whenever it throws, nothing has changed. *)

Theorem pop_behaviour :
  forall (h : heap) target fs path val,
    h !! target = Some (OObj fs) ->
    (getValue h target path = VUndefined ->
       op_pop target path val h = (Ok tt, h))
    /\ (forall a xs,
          getValue h target path = VRef a -> h !! a = Some (OArr xs) ->
          op_pop target path val h
          = if bool_decide (val = VNum (Num 1) \/ val = VBool true)
            then (Ok tt, <[a := OArr (tail xs)]> h)
            else if bool_decide (val = VNum (Num (-1)))
            then (Ok tt, <[a := OArr (removelast xs)]> h)
            else (Throw "$pop value must be 1 or -1", h))
    /\ (getValue h target path ≠ VUndefined ->
        (forall a xs, getValue h target path = VRef a ->
                      h !! a ≠ Some (OArr xs)) ->
        op_pop target path val h
        = (Throw "$pop target field must be an array", h)).
Proof.
  intros h target fs path val Hobj. split; [|split].
  - intros Hu. unfold op_pop. by rewrite Hu.
  - intros a xs Hf Ha. unfold op_pop. rewrite Hf. simpl. rewrite Ha.
    rewrite !strictEq_decide by done. by rewrite bool_decide_or.
  - intros Hu Hn. unfold op_pop.
    destruct (getValue h target path) as [| | | | |a] eqn:Hf; try done.
    simpl. destruct (h !! a) as [[| xs |]|] eqn:Ha; try done.
    exfalso. by eapply Hn.
Qed.

(** X6: [$mul]. With a number as operand (also [NaN]), a missing path is
    set to 0, a path that holds a number is set to the product, and any
    other value at the path makes it throw; an operand that is not a number
    throws at once. Nothing but the path is written, and nothing at all
    when it throws. *)

Theorem mul_behaviour :
  forall (h : heap) target fs path val,
    h !! target = Some (OObj fs) ->
    (forall n, val = VNum n ->
       (getValue h target path = VUndefined ->
          exists h', op_mul target path val h = (Ok tt, h')
            /\ getValue h' target path = VNum (Num 0)
            /\ only_changed h h' target path [])
       /\ (forall f, getValue h target path = VNum f ->
          exists h', op_mul target path val h = (Ok tt, h')
            /\ getValue h' target path = VNum (num_mul f n)
            /\ only_changed h h' target path [])
       /\ (getValue h target path ≠ VUndefined ->
           (forall f, getValue h target path ≠ VNum f) ->
           op_mul target path val h
           = (Throw "$mul target field must be a numeric type", h)))
    /\ ((forall n, val ≠ VNum n) ->
        op_mul target path val h
        = (Throw "$mul target field must be a number", h)).
Proof.
  intros h target fs path val Hobj. split.
  - intros n ->. unfold op_mul, updateValue. split; [|split].
    + intros ->. by apply setValue_object with (fs := fs).
    + intros f ->. by apply setValue_object with (fs := fs).
    + intros Hu Hn. destruct (getValue h target path); try done.
      by destruct (Hn n0).
  - intros Hn. destruct val; try done. by destruct (Hn n).
Qed.

(** X7: [$addToSet] is idempotent: run again with the same value on the
    heap it left, it succeeds and changes nothing. *)

Theorem addToSet_idempotent :
  forall (h h1 : heap) target fs path val,
    h !! target = Some (OObj fs) ->
    op_addToSet target path val h = (Ok tt, h1) ->
    op_addToSet target path val h1 = (Ok tt, h1).
Proof.
  intros h h1 target fs path val Hobj. unfold op_addToSet at 1.
  destruct (getValue h target path) as [| | | | |a] eqn:Hf; try done.
  - destruct (new_array_at_path h target fs path val Hobj)
      as (h' & a & Hrun & Hfresh & Hget & Ha & Ht & _).
    rewrite Hrun. intros [= <-]. unfold op_addToSet. rewrite Hget. simpl.
    rewrite Ha. simpl. unfold sameValueZero.
    by rewrite bool_decide_eq_true_2.
  - simpl. destruct (h !! a) as [[| xs |]|] eqn:Ha; try done.
    pose proof (array_not_target h target fs a xs Hobj Ha) as Hne.
    rewrite includes_elem_of. case_bool_decide as Hin; intros [= <-].
    + unfold op_addToSet. rewrite Hf. simpl. rewrite Ha.
      rewrite includes_elem_of. by rewrite bool_decide_eq_true_2.
    + unfold op_addToSet. rewrite getValue_insert_other, Hf by done.
      simpl. rewrite lookup_insert_eq. rewrite includes_elem_of.
      rewrite bool_decide_eq_true_2; [done|].
      apply elem_of_app. right. by left.
Qed.

(** X8: on a path that holds an array, [$push] of a value followed by
    [$pop] with -1 gives the heap back as it was. *)

Theorem push_then_pop_last :
  forall (h : heap) target fs path val a xs,
    h !! target = Some (OObj fs) ->
    getValue h target path = VRef a ->
    h !! a = Some (OArr xs) ->
    (op_push target path val ;;; op_pop target path (VNum (Num (-1)))) h
    = (Ok tt, h).
Proof.
  intros h target fs path val a xs Hobj Hf Ha.
  pose proof (array_not_target h target fs a xs Hobj Ha) as Hne.
  unfold bind, op_push. rewrite Hf. simpl. rewrite Ha.
  unfold op_pop. rewrite getValue_insert_other, Hf by done. simpl.
  rewrite lookup_insert_eq. simpl.
  rewrite removelast_last, insert_insert_eq. by rewrite insert_id.
Qed.

Lemma Forall_assoc_set {A} (P : string * A -> Prop) k v fs :
  P (k, v) -> Forall P fs -> Forall P (assoc_set k v fs).
Proof.
  intros Hkv. induction 1 as [|[k' v'] fs Hx Hfs IH]; simpl.
  - by constructor.
  - destruct (String.eqb k k'); constructor; done.
Qed.

Lemma addFieldToSetOp_ok key val res :
  Forall parsed_entry_ok res -> Forall parsed_entry_ok (addFieldToSetOp key val res).
Proof.
  intros Hres. unfold addFieldToSetOp.
  destruct (assoc_get "$set" res) as [[fs|v]|];
    apply Forall_assoc_set; done.
Qed.

Lemma fold_addField_ok fs : forall res,
  Forall parsed_entry_ok res ->
  Forall parsed_entry_ok
    (fold_left (fun acc '(k, v) => addFieldToSetOp k v acc) fs res).
Proof.
  induction fs as [|[k v] fs IH]; intros res Hres; [done|].
  simpl. apply IH. by apply addFieldToSetOp_ok.
Qed.

Lemma parseEntry_keeps_ok h res entry res' :
  Forall parsed_entry_ok res ->
  parseEntry h res entry = Ok res' ->
  Forall parsed_entry_ok res'.
Proof.
  destruct entry as [key val]. unfold parseEntry. intros Hres.
  destruct (negb (String.eqb (charAt0 key) "$")).
  { intros [= <-]. by apply addFieldToSetOp_ok. }
  destruct (isSupportedOperator key) eqn:Hs; [|done].
  destruct (negb (truthy val)); [by intros [= <-]|].
  destruct val as [| | | | |l]; try done. simpl.
  destruct (String.eqb key "$set") eqn:E; intros [= <-].
  - by apply fold_addField_ok.
  - apply String.eqb_neq in E. apply Forall_assoc_set; [|done].
    split; [done|]. simpl. split; [done|]. by eexists.
Qed.

Lemma parseEntries_keep_ok h entries : forall res res',
  Forall parsed_entry_ok res ->
  parseEntries h res entries = Ok res' ->
  Forall parsed_entry_ok res'.
Proof.
  induction entries as [|e entries IH]; intros res res' Hres; simpl.
  - by intros [= <-].
  - destruct (parseEntry h res e) as [res1|msg] eqn:E; [|done]. simpl.
    apply IH. by eapply parseEntry_keeps_ok.
Qed.

(** X9: what [parseUpdateQuery] returns holds supported operators only,
    which is why the check of [applyUpdates] on the operator name cannot
    fail: every entry names one of [operators]; the entry of [$set] holds
    the object the parser built, and every other entry holds the operator's
    own value, an object. *)

Theorem parsed_operators_supported :
  forall (h : heap) input upd,
    parseUpdateQuery h input = Ok upd ->
    Forall (fun e : string * paths =>
              (exists o, operator_of_name e.1 = Some o)
              /\ match e.2 with
                 | SetPaths _ => e.1 = "$set"
                 | OwnPaths v => e.1 ≠ "$set" /\ exists l, v = VRef l
                 end) upd.
Proof.
  intros h input upd. unfold parseUpdateQuery.
  destruct (negb (truthy input)); [by intros [= <-]|].
  destruct (isArray h input); [done|]. intros Hparse.
  eapply Forall_impl.
  - eapply parseEntries_keep_ok; [|exact Hparse]. constructor.
  - intros e [Hs He]. split; [|done].
    unfold isSupportedOperator in Hs. apply bool_decide_eq_true in Hs.
    destruct Hs as [o Ho]. by exists o.
Qed.

(** Fields without a dollar sign are all handed to [addFieldToSetOp]. *)

Lemma parseEntries_bare h fs : forall res,
  Forall (fun e : string * value => charAt0 e.1 ≠ "$") fs ->
  parseEntries h res fs
  = Ok (fold_left (fun acc '(k, v) => addFieldToSetOp k v acc) fs res).
Proof.
  induction fs as [|[k v] fs IH]; intros res Hfs; [done|].
  apply Forall_cons in Hfs as [Hk Hfs]. simpl in *.
  apply String.eqb_neq in Hk. rewrite Hk. simpl. by apply IH.
Qed.

(** X10: top-level fields are a [$set]. An update expression made of
    fields whose names do not start with a dollar sign parses to the same
    result as [{$set: fields}]: the fields, written one after the other
    into a new [$set] object. *)

Theorem bare_fields_are_set :
  forall (h : heap) l1 l2 l3 fs,
    Forall (fun e : string * value => charAt0 e.1 ≠ "$") fs ->
    h !! l1 = Some (OObj fs) ->
    h !! l2 = Some (OObj [("$set", VRef l3)]) ->
    h !! l3 = Some (OObj fs) ->
    parseUpdateQuery h (VRef l1) = parseUpdateQuery h (VRef l2)
    /\ parseUpdateQuery h (VRef l1)
       = Ok (fold_left (fun acc '(k, v) => addFieldToSetOp k v acc) fs []).
Proof.
  intros h l1 l2 l3 fs Hbare H1 H2 H3.
  assert (Hparse1 : parseUpdateQuery h (VRef l1)
            = Ok (fold_left (fun acc '(k, v) => addFieldToSetOp k v acc) fs [])).
  { unfold parseUpdateQuery, isArray. simpl. rewrite H1.
    by apply parseEntries_bare. }
  split; [|exact Hparse1]. rewrite Hparse1.
  unfold parseUpdateQuery, isArray. simpl. rewrite H2. simpl.
  by rewrite H3.
Qed.

(** The fields of an object, written one after the other. *)

Lemma fold_addField_set fs : forall acc,
  fold_left (fun res '(k, v) => addFieldToSetOp k v res) fs
            [("$set", SetPaths acc)]
  = [("$set", SetPaths (fold_left (fun a '(k, v) => assoc_set k v a) fs acc))].
Proof.
  induction fs as [|[k v] fs IH]; intros acc; [done|].
  cbn [fold_left]. unfold addFieldToSetOp at 2. simpl. apply IH.
Qed.

Lemma assoc_set_fresh {A} k (v : A) fs :
  k ∉ fs.*1 -> assoc_set k v fs = fs ++ [(k, v)].
Proof.
  induction fs as [|[k' v'] fs IH]; intros Hk; [done|]. simpl in *.
  apply not_elem_of_cons in Hk as [Hne Hk].
  apply String.eqb_neq in Hne. rewrite Hne. by rewrite IH.
Qed.

Lemma fold_assoc_set_nodup {A} (fs : list (string * A)) : forall acc,
  NoDup (acc ++ fs).*1 ->
  fold_left (fun a '(k, v) => assoc_set k v a) fs acc = acc ++ fs.
Proof.
  induction fs as [|[k v] fs IH]; intros acc Hnd; simpl.
  - by rewrite app_nil_r.
  - rewrite assoc_set_fresh.
    + rewrite IH; rewrite <- app_assoc; done.
    + rewrite fmap_app in Hnd. apply NoDup_app in Hnd as (_ & Hd & _).
      intros Hin. apply (Hd k Hin). by left.
Qed.

Lemma parse_bare_fields (h : heap) u k v fs :
  h !! u = Some (OObj ((k, v) :: fs)) ->
  Forall (fun e : string * value => charAt0 e.1 ≠ "$") ((k, v) :: fs) ->
  NoDup ((k, v) :: fs).*1 ->
  parseUpdateQuery h (VRef u) = Ok [("$set", SetPaths ((k, v) :: fs))].
Proof.
  intros Hu Hbare Hnd. unfold parseUpdateQuery, isArray. simpl. rewrite Hu.
  rewrite parseEntries_bare by done. cbn [fold_left].
  change (addFieldToSetOp k v []) with [("$set", SetPaths [(k, v)])].
  rewrite fold_addField_set. by rewrite (fold_assoc_set_nodup fs [(k, v)]).
Qed.

Lemma is_object_insert (h : heap) t fs l :
  is_object h l -> is_object (<[t := OObj fs]> h) l.
Proof.
  intros [fl Hl]. unfold is_object. destruct (decide (l = t)) as [->|Hne].
  - rewrite lookup_insert_eq. by eexists.
  - rewrite lookup_insert_ne by done. by eexists.
Qed.

(** One path written to every target. *)

Lemma set_every_target path v targets : forall h : heap,
  Forall (is_object h) targets ->
  exists h',
    forEach (fun target => op_set target path v) targets h = (Ok tt, h')
    /\ (forall t q, t ∈ targets ->
          getValue h' t q = if decide (q = path) then v else getValue h t q)
    /\ (forall l, l ∉ targets -> h' !! l = h !! l)
    /\ (forall l, is_object h l -> is_object h' l).
Proof.
  induction targets as [|t targets IH]; intros h Hobjs.
  - exists h. split; [done|]. split; [by intros t q ?%elem_of_nil|]. done.
  - apply Forall_cons in Hobjs as [[ft Ht] Hobjs].
    cbn [forEach]. unfold bind, op_set at 1. unfold setValue at 1. rewrite Ht.
    set (h1 := <[t := OObj (assoc_set path v ft)]> h).
    assert (Hobjs1 : Forall (is_object h1) targets).
    { eapply Forall_impl; [exact Hobjs|]. intros l. apply is_object_insert. }
    destruct (IH h1 Hobjs1) as (h' & Hrun & Hget & Hframe & Hobj).
    exists h'. split; [done|]. split; [|split].
    + intros t' q Hin.
      destruct (decide (t' ∈ targets)) as [Hin'|Hnin].
      * rewrite Hget by done.
        destruct (decide (q = path)); [done|].
        unfold getValue, h1. destruct (decide (t' = t)) as [->|Hne].
        -- rewrite lookup_insert_eq, Ht. by rewrite assoc_get_set_ne.
        -- by rewrite lookup_insert_ne.
      * apply elem_of_cons in Hin as [->|?]; [|done].
        unfold getValue at 1. rewrite Hframe by done. unfold h1.
        rewrite lookup_insert_eq. destruct (decide (q = path)) as [->|Hq].
        -- by rewrite assoc_get_set_eq.
        -- unfold getValue. rewrite Ht. by rewrite assoc_get_set_ne.
    + intros l Hl. apply not_elem_of_cons in Hl as [Hne Hl].
      rewrite Hframe by done. unfold h1. by rewrite lookup_insert_ne.
    + intros l Hl. apply Hobj. by apply is_object_insert.
Qed.

Lemma assoc_get_cons {A} q k (v : A) fs :
  assoc_get q ((k, v) :: fs) = if decide (q = k) then Some v else assoc_get q fs.
Proof.
  simpl. destruct (String.eqb q k) eqn:E.
  - apply String.eqb_eq in E. by rewrite decide_True.
  - apply String.eqb_neq in E. by rewrite decide_False.
Qed.

Lemma assoc_get_None {A} q (fs : list (string * A)) :
  q ∉ fs.*1 -> assoc_get q fs = None.
Proof.
  induction fs as [|[k v] fs IH]; [done|]. intros Hq.
  apply not_elem_of_cons in Hq as [Hne Hq]. rewrite assoc_get_cons.
  rewrite decide_False by done. by apply IH.
Qed.

(** Every path of a [$set] object, written to every target. *)

Lemma set_paths_every_target targets fs : forall h : heap,
  Forall (is_object h) targets ->
  Forall (fun e : string * value => str_includes ".$" e.1 = false) fs ->
  NoDup fs.*1 ->
  exists h',
    forEach (applyPath op_set targets) fs h = (Ok tt, h')
    /\ (forall t q, t ∈ targets ->
          getValue h' t q
          = match assoc_get q fs with
            | Some v => if bool_decide (v = VUndefined)
                        then getValue h t q else v
            | None => getValue h t q
            end)
    /\ (forall l, l ∉ targets -> h' !! l = h !! l).
Proof.
  induction fs as [|[p v] fs IH]; intros h Hobjs Hpaths Hnd.
  - exists h. done.
  - apply Forall_cons in Hpaths as [Hp Hpaths]. simpl in Hp.
    rewrite fmap_cons in Hnd. apply NoDup_cons in Hnd as [Hfresh Hnd].
    cbn [forEach]. unfold bind, applyPath at 1.
    case_bool_decide as Hv.
    + destruct (IH h Hobjs Hpaths Hnd) as (h' & Hrun & Hget & Hframe).
      exists h'. split; [done|]. split; [|done].
      intros t q Hin. rewrite Hget by done. rewrite assoc_get_cons.
      destruct (decide (q = p)) as [->|Hq]; [|done].
      rewrite assoc_get_None by done. by rewrite bool_decide_eq_true_2.
    + rewrite Hp.
      destruct (set_every_target p v targets h Hobjs)
        as (h1 & Hrun1 & Hget1 & Hframe1 & Hobj1).
      rewrite Hrun1.
      assert (Hobjs1 : Forall (is_object h1) targets).
      { eapply Forall_impl; [exact Hobjs|]. exact Hobj1. }
      destruct (IH h1 Hobjs1 Hpaths Hnd) as (h' & Hrun & Hget & Hframe).
      exists h'. split; [done|]. split.
      * intros t q Hin. rewrite Hget, Hget1 by done. rewrite assoc_get_cons.
        destruct (decide (q = p)) as [->|Hq].
        -- rewrite assoc_get_None by done. by rewrite bool_decide_eq_false_2.
        -- done.
      * intros l Hl. rewrite Hframe by done. by apply Hframe1.
Qed.

(** X11: [applyUpdates] with an update expression of plain fields (no
    dollar sign in front, no [.$] inside) on targets that are objects:
    it returns [null]; on every target each field of the expression that
    is not [undefined] holds the value of the expression, every other path
    holds what it held; and nothing but the targets is written. *)

Theorem applyUpdates_bare_fields :
  forall (h : heap) targets u fs options,
    update options = VRef u ->
    h !! u = Some (OObj fs) ->
    NoDup fs.*1 ->
    Forall (fun e : string * value =>
              charAt0 e.1 ≠ "$" /\ str_includes ".$" e.1 = false) fs ->
    targets ≠ [] ->
    Forall (fun t => exists ft, h !! t = Some (OObj ft)) targets ->
    exists h',
      applyUpdates lessThan targets options h = (Ok VNull, h')
      /\ (forall t q, t ∈ targets ->
            getValue h' t q
            = match assoc_get q fs with
              | Some v => if bool_decide (v = VUndefined)
                          then getValue h t q else v
              | None => getValue h t q
              end)
      /\ (forall l, l ∉ targets -> h' !! l = h !! l).
Proof.
  intros h targets u fs options Hupd Hu Hnd Hfs Hne Hobjs.
  unfold applyUpdates. rewrite Hupd.
  destruct targets as [|t0 ts]; [done|]. set (targets := t0 :: ts) in *.
  destruct fs as [|[k v] fs].
  - unfold parseUpdateQuery, isArray. simpl. rewrite Hu. simpl.
    exists h. done.
  - rewrite (parse_bare_fields h u k v fs Hu).
    + cbn [forEach]. unfold bind. unfold applyOperator at 1.
      change (operator_of_name "$set") with (Some OpSet).
      cbn [handlers entriesOfPaths].
      destruct (set_paths_every_target targets ((k, v) :: fs) h)
        as (h' & Hrun & Hget & Hframe); [done| |done|].
      { eapply Forall_impl; [exact Hfs|]. by intros e [_ ?]. }
      rewrite Hrun. exists h'. done.
    + eapply Forall_impl; [exact Hfs|]. by intros e [? _].
    + done.
Qed.

End MoreOperatorFacts.

(** * More facts about cached queries *)

Section MoreCacheFacts.

Import Redis CachedQuery.

Context `{Imports} `{CountImports}.

(** X12: what [parseOpts] makes of its input. Parsed options pass through.
    A definition with a static filter ignores the parameters it is given:
    its key is always the key of no parameters. A definition with a filter
    function takes the parameters of the array or of the options object,
    succeeds exactly when their number is the number the function
    declares, and throws when it is given none. *)

Theorem parseOpts_outcomes :
  forall cq,
    (forall po, parseOpts cq (Parsed po) = Ok po)
    /\ (forall q, query (config cq) = StaticQuery q ->
          parseOpts cq NoInput
          = Ok {| po_query := q; po_key := cacheKeyOf (hash cq) [];
                  po_exec := noOpts |}
          /\ (forall ps, parseOpts cq (Params ps) = parseOpts cq NoInput)
          /\ (forall e ps,
                parseOpts cq (Opts e ps)
                = Ok {| po_query := q; po_key := cacheKeyOf (hash cq) [];
                        po_exec := e |}))
    /\ (forall n fn, query (config cq) = DynamicQuery n fn ->
          (forall ps, length ps = n ->
             parseOpts cq (Params ps)
             = Ok {| po_query := fn ps; po_key := cacheKeyOf (hash cq) ps;
                     po_exec := noOpts |}
             /\ forall e,
                  parseOpts cq (Opts e (Some ps))
                  = Ok {| po_query := fn ps; po_key := cacheKeyOf (hash cq) ps;
                          po_exec := e |})
          /\ (forall ps, length ps ≠ n ->
                is_ok (parseOpts cq (Params ps)) = false
                /\ forall e, is_ok (parseOpts cq (Opts e (Some ps))) = false)
          /\ is_ok (parseOpts cq NoInput) = false
          /\ (forall e, is_ok (parseOpts cq (Opts e None)) = false)).
Proof.
  intros cq. split; [done|]. split.
  - intros q Hq. unfold parseOpts, getCacheKey, expectNumParams. rewrite Hq.
    simpl. done.
  - intros n fn Hq. unfold parseOpts, getCacheKey, expectNumParams.
    rewrite Hq. split; [|split; [|done]].
    + intros ps <-. rewrite bool_decide_eq_false_2 by (by intros ?). done.
    + intros ps Hne. rewrite bool_decide_eq_true_2 by done. done.
Qed.

(** The pattern finds the hash and the encoded parameters of a key made
    of a plain hash and the text of an array. *)

Lemma MATCH_cacheKeyOf h ps :
  plain_hash h -> array_text (EJSON_stringify ps) ->
  Invalidation.MATCH_CACHE_KEY (cacheKeyOf h ps) = Some (h, EJSON_stringify ps).
Proof.
  intros [Hne Hh] Htext. unfold cacheKeyOf.
  rewrite !string_app_cons. cbn [Invalidation.MATCH_CACHE_KEY].
  change (EmptyString +:+ h +:+ EJSON_stringify ps)
    with (h +:+ EJSON_stringify ps).
  rewrite (match_groups_plain h EmptyString);
    [done|done|done|by apply match_params_text].
Qed.

(** X13: keys do not collide. Two keys made of plain hashes and of array
    texts are equal only if the hashes are equal and the parameters have the
    same encoding. *)

Theorem cache_keys_distinct :
  forall h h' ps ps',
    plain_hash h -> plain_hash h' ->
    array_text (EJSON_stringify ps) -> array_text (EJSON_stringify ps') ->
    cacheKeyOf h ps = cacheKeyOf h' ps' ->
    h = h' /\ EJSON_stringify ps = EJSON_stringify ps'.
Proof.
  intros h h' ps ps' Hh Hh' Ht Ht' Hkey.
  pose proof (MATCH_cacheKeyOf h ps Hh Ht) as Hm.
  rewrite Hkey, (MATCH_cacheKeyOf h' ps' Hh' Ht') in Hm.
  by injection Hm as -> ->.
Qed.

(** X14: what [serializeAndCache] leaves in the store. The record of the
    key holds exactly the fields [V], [O] and [P] of the new result (what
    the key held before is gone); the record of every other key is as it
    was; and no set other than the key loses a member. *)

Theorem cache_write_frame :
  forall cq result cacheKey st,
    records (serializeAndCache cq result cacheKey st).1 !! cacheKey
    = Some {[ "V" := serialize result;
              "O" := Text (join " " (_id <$> result));
              "P" := Text (join " " (collectPopulatedIds result
                                       (populate (config cq)))) ]}
    /\ (forall k, k ≠ cacheKey ->
          records (serializeAndCache cq result cacheKey st).1 !! k
          = records st !! k)
    /\ (forall k m, k ≠ cacheKey -> m ∈ smembers st k ->
          m ∈ smembers (serializeAndCache cq result cacheKey st).1 k).
Proof.
  intros cq result cacheKey st. rewrite serializeAndCache_store. cbn [fst].
  destruct (cacheCommands_split cq result cacheKey)
    as (rest & -> & Hall & _).
  rewrite run_batch_app.
  set (st4 := (run_batch _ st).1).
  destruct (run_set_only rest st4 Hall) as (Hrec & Hmono & _).
  split; [|split].
  - rewrite Hrec. unfold st4. simpl. rewrite lookup_insert_eq. f_equal.
    rewrite !lookup_insert_eq. simpl. rewrite lookup_delete_eq. simpl.
    apply map_eq. intros fld.
    destruct (decide (fld = "V")) as [->|HV]; [done|].
    destruct (decide (fld = "O")) as [->|HO]; [done|].
    destruct (decide (fld = "P")) as [->|HP]; [done|].
    rewrite !lookup_insert_ne by done.
    by rewrite lookup_singleton_ne, lookup_empty.
  - intros k Hk. rewrite Hrec. unfold st4. simpl.
    rewrite !lookup_insert_ne by done. by rewrite lookup_delete_ne.
  - intros k m Hk Hm. apply Hmono. unfold st4. unfold smembers in *. simpl.
    by rewrite lookup_delete_ne.
Qed.

Lemma hget_hset st key fld text :
  hget (run_command (Hset key fld (Text text)) st).1 key fld = Some text.
Proof.
  unfold hget. simpl. by rewrite lookup_insert_eq, lookup_insert_eq.
Qed.

(** What [count] does when the options hold no filter. *)

Lemma count_no_filter cq input opts st :
  parseOpts cq input = Ok opts ->
  filter (po_exec opts) = None ->
  let key := po_key opts in
  let n := countMongo cq (fresh opts noOpts) in
  let asked := if negb (default false (skipCache (po_exec opts)))
               then [HgetCount key] else [] in
  count cq input st
  = match (if negb (default false (skipCache (po_exec opts)))
           then hget st key "count" else None) with
    | Some (String c text) => Ok (parseInt (String c text), st, asked)
    | _ => Ok (n, (run_command (Hset key "count" (Text (numberToString n))) st).1,
               asked ++ [CountDocuments (countQuery cq (fresh opts noOpts));
                         HsetCount key n])
    end.
Proof.
  intros Hparse Hf. unfold count. rewrite Hparse. cbn [result_bind].
  rewrite Hf. destruct (negb _); [|done].
  destruct (hget st (po_key opts) "count") as [[|c text]|]; done.
Qed.

(** X15: [count] reads through the cache. Without a filter and without
    [skipCache], when the key holds no count (or an empty one), [count]
    asks the source of truth, returns its answer and stores it; the same
    call on the resulting store returns the same number from the field
    [count] alone, without asking the source of truth and without
    changing the store. The count must survive being stored as text. *)

Theorem count_read_through :
  forall cq input opts st n st' log,
    parseOpts cq input = Ok opts ->
    filter (po_exec opts) = None ->
    default false (skipCache (po_exec opts)) = false ->
    (hget st (po_key opts) "count" = None
     \/ hget st (po_key opts) "count" = Some EmptyString) ->
    numberToString (countMongo cq (fresh opts noOpts)) ≠ EmptyString ->
    parseInt (numberToString (countMongo cq (fresh opts noOpts)))
    = countMongo cq (fresh opts noOpts) ->
    count cq input st = Ok (n, st', log) ->
    n = countDocuments (countQuery cq (fresh opts noOpts))
    /\ CountDocuments (countQuery cq (fresh opts noOpts)) ∈ log
    /\ count cq input st' = Ok (n, st', [HgetCount (po_key opts)]).
Proof.
  intros cq input opts st n st' log Hparse Hf Hskip Hmiss Hne Hrt.
  rewrite !(count_no_filter cq input opts) by done. rewrite Hskip. cbn [negb].
  set (m := countMongo cq (fresh opts noOpts)) in *.
  assert (Hfirst : match hget st (po_key opts) "count" with
                   | Some (String c text) => false | _ => true end = true)
    by (by destruct Hmiss as [-> | ->]).
  set (st1 := (run_command (Hset (po_key opts) "count"
                              (Text (numberToString m))) st).1).
  set (log1 := [HgetCount (po_key opts)]
               ++ [CountDocuments (countQuery cq (fresh opts noOpts));
                   HsetCount (po_key opts) m]).
  intros Hc.
  assert (Hres : n = m /\ st' = st1 /\ log = log1).
  { destruct (hget st (po_key opts) "count") as [[|c text]|]; try done;
      by injection Hc. }
  destruct Hres as (-> & -> & ->). split; [done|]. split.
  { unfold log1. cbn [app].
    repeat first [apply list_elem_of_here | apply list_elem_of_further]. }
  unfold st1. rewrite hget_hset.
  destruct (numberToString m) as [|c text] eqn:Hs; [done|].
  by rewrite Hrt.
Qed.

(** X16: [count] does not depend on the window. Replacing the skip and
    the limit of the options, parsed or not, by any others gives the same
    outcome, the same store and the same requests. *)
Theorem count_ignores_window :
  forall cq st s l,
    (forall opts,
       count cq (Parsed (merged opts {| set_skip := Some s; set_limit := Some l;
                                        set_filter := None;
                                        set_skipCache := None |})) st
       = count cq (Parsed opts) st)
    /\ (forall e ps,
          count cq (Opts {| skip := s; limit := l; filter := filter e;
                            skipCache := skipCache e |} ps) st
          = count cq (Opts e ps) st).
Proof.
  intros cq st s l. split.
  - intros [q key [sk li fi sc]]. unfold count. simpl.
    destruct fi; reflexivity.
  - intros [sk li fi sc] ps. unfold count, parseOpts. simpl.
    destruct (query (config cq)) as [f|n fn].
    + destruct (getCacheKey cq []); [|done]. simpl. destruct fi; reflexivity.
    + destruct ps as [ps|]; [|done].
      destruct (getCacheKey cq ps); [|done]. simpl. destruct fi; reflexivity.
Qed.

(** What [exec] returns and asks depends on the store through the fields
    [V] alone. *)




(** X17: [count] does not disturb cached results. Without a filter,
    [count] changes no set and no field of the store other than the field
    [count] of its own key, so every [exec] of every definition returns
    and asks the same after it as before it. *)


(** X18: a cached count goes with the cached result. After
    [serializeAndCache] has written a result under the key, and after
    [invalidate] of handler.ts has run on a batch that holds the key, the
    key holds no count, and [count] (without a filter) asks the source of
    truth again. *)

Theorem count_dropped_with_result :
  forall cq input opts st',
    parseOpts cq input = Ok opts ->
    filter (po_exec opts) = None ->
    ((exists cq' result st,
        st' = (serializeAndCache cq' result (po_key opts) st).1)
     \/ (exists keys s, po_key opts ∈ keys
                        /\ st' = Handler.redis (Handler.invalidate keys s))) ->
    hget st' (po_key opts) "count" = None
    /\ exists st'' log,
         count cq input st'
         = Ok (countDocuments (countQuery cq (fresh opts noOpts)), st'', log)
         /\ CountDocuments (countQuery cq (fresh opts noOpts)) ∈ log.
Proof.
  intros cq input opts st' Hparse Hf Hst.
  assert (Hnone : hget st' (po_key opts) "count" = None).
  { destruct Hst as [(cq' & result & st & ->)|(keys & s & Hin & ->)].
    - rewrite serializeAndCache_store. cbn [fst].
      destruct (cacheCommands_split cq' result (po_key opts))
        as (rest & -> & Hall & _).
      rewrite run_batch_app.
      set (st4 := (run_batch _ st).1).
      destruct (run_set_only rest st4 Hall) as (Hrec & _).
      unfold hget. rewrite Hrec. unfold st4. simpl.
      rewrite !lookup_insert_eq. simpl. rewrite lookup_delete_eq. simpl.
      by rewrite !lookup_insert_ne, lookup_empty by done.
    - destruct (invalidate_spec keys s) as (_ & Hrec & _).
      unfold hget. rewrite Hrec. by rewrite decide_True. }
  split; [done|].
  rewrite (count_no_filter cq input opts) by done. rewrite Hnone.
  replace (if negb (default false (skipCache (po_exec opts)))
           then None else None) with (@None string) by (by destruct (negb _)).
  eexists _, _. split; [reflexivity|].
  destruct (negb _); cbn [app];
    repeat first [apply list_elem_of_here | apply list_elem_of_further].
Qed.

Lemma parseOpts_limitedToOne cq input :
  parseOpts cq (limitedToOne input)
  = result_bind (parseOpts cq input) (fun opts =>
      Ok (merged opts {| set_skip := None; set_limit := Some (Some (Num 1));
                         set_filter := None; set_skipCache := None |})).
Proof.
  unfold parseOpts.
  destruct input as [po|ps|e [ps|]|]; simpl.
  - by destruct po.
  - destruct (query (config cq)); simpl.
    + by destruct (getCacheKey cq []).
    + by destruct (getCacheKey cq ps).
  - destruct (query (config cq)); simpl.
    + by destruct (getCacheKey cq []).
    + by destruct (getCacheKey cq ps).
  - destruct (query (config cq)); simpl; [|done].
    by destruct (getCacheKey cq []).
  - destruct (query (config cq)); simpl; [|done].
    by destruct (getCacheKey cq []).
Qed.

Lemma exec_parsed cq input st :
  exec cq input st
  = result_bind (parseOpts cq input) (fun opts => exec cq (Parsed opts) st).
Proof. unfold exec. by destruct (parseOpts cq input). Qed.

Lemma outsideCache_infinity skip limit :
  outsideCache Infinity skip limit = false.
Proof.
  unfold outsideCache. simpl. destruct limit as [l|]; [|done].
  destruct (num_truthy l); [|done]. simpl.
  unfold num_gt. by destruct (num_add l skip).
Qed.

(** X19: [execOne] is [exec] with the limit replaced by 1, reduced to its
    first document ([null] when there is none), whatever limit the caller
    gave. On a definition whose [cacheCount] is [Infinity] it leaves the
    store as [exec] with the caller's own options does, and asks the same:
    on a miss the whole result is cached, not one document. *)

Theorem execOne_is_exec_limited :
  forall cq input st,
    execOne cq input st
    = result_bind (exec cq (limitedToOne input) st)
        (fun '(docs, st', log) => Ok (head docs, st', log))
    /\ (cacheCount (config cq) = Infinity ->
        effects (execOne cq input st) = effects (exec cq input st)).
Proof.
  intros cq input st. split.
  - unfold execOne. rewrite (exec_parsed cq (limitedToOne input)).
    rewrite parseOpts_limitedToOne.
    by destruct (parseOpts cq input).
  - intros Hinf. unfold execOne, exec.
    destruct (parseOpts cq input) as [opts|]; [|done].
    cbn [result_bind parseOpts]. rewrite Hinf, !outsideCache_infinity.
    cbn [merged po_exec po_key skipCache default set_skipCache].
    set (fetched := execMongo cq _).
    set (asked := buildQuery cq _).
    destruct (negb _).
    + destruct (hgetBuffer st (po_key opts) "V"); [done|].
      destruct (_ || _); [|done]. by rewrite serializeAndCache_store.
    + destruct (_ || _); [|done]. by rewrite serializeAndCache_store.
Qed.

(** X20: dependency tracking closes the loop. Once [serializeAndCache]
    has stored a result under a key, a remove event of handler.ts that
    names a document of the result, or a document the result references
    through a populated path, deletes the record of the key and, for a
    key that is not empty, records it in [keysInvalidated]. *)

Theorem cached_result_removed_with_document :
  forall cq result cacheKey st inv modelName ids id,
    id ∈ ids ->
    (id ∈ (_id <$> result)
     \/ id ∈ collectPopulatedIds result (populate (config cq))) ->
    exists s',
      Handler.onCacheEffect (Handler.Remove modelName ids)
        {| Handler.redis := (serializeAndCache cq result cacheKey st).1;
           Handler.keysInvalidated := inv |} = Ok s'
      /\ records (Handler.redis s') !! cacheKey = None
      /\ hgetBuffer (Handler.redis s') cacheKey "V" = None
      /\ (cacheKey ≠ EmptyString -> cacheKey ∈ Handler.keysInvalidated s').
Proof.
  intros cq result cacheKey st inv modelName ids id Hid Hdep.
  rewrite serializeAndCache_store. cbn [fst].
  set (st1 := (run_batch (cacheCommands cq result cacheKey) st).1).
  destruct (cache_batch_writes cq result cacheKey st st1 eq_refl)
    as (HV & _ & HO & HP & _).
  set (s := {| Handler.redis := st1; Handler.keysInvalidated := inv |}).
  set (U := (⋃ (smembers st1 <$> Handler.dependencyKeys ids) : gset string)).
  assert (HU : cacheKey ∈ elements U).
  { rewrite elem_of_elements. apply elem_of_dependents. exists id.
    split; [done|]. destruct Hdep as [Hd|Hp]; [left|right; by apply HP].
    apply list_elem_of_fmap in Hd as (d & -> & Hd). by apply HO. }
  assert (Hrun : Handler.onCacheEffect (Handler.Remove modelName ids) s
                 = Ok (Handler.invalidate (elements U) s)).
  { unfold Handler.onCacheEffect, Handler.doRemoveInvalidation.
    assert (Hs : sunion st1 (Handler.dependencyKeys ids) = Ok (elements U)).
    { unfold sunion, U. destruct (Handler.dependencyKeys ids) eqn:Hdk; [|done].
      destruct ids; [by apply elem_of_nil in Hid|discriminate]. }
    fold (sunion st1 (Handler.dependencyKeys ids)). cbn [Handler.redis s].
    unfold s at 1. cbn [Handler.redis]. rewrite Hs. cbn [result_bind].
    destruct (elements U) as [|u us] eqn:HE; [by apply elem_of_nil in HU|].
    done. }
  exists (Handler.invalidate (elements U) s). split; [done|].
  destruct (invalidate_spec (elements U) s) as (_ & Hrec & Hinv).
  assert (Hnone : records (Handler.redis (Handler.invalidate (elements U) s))
                    !! cacheKey = None).
  { rewrite Hrec. by rewrite decide_True. }
  split; [done|]. split.
  - unfold hgetBuffer. by rewrite Hnone.
  - intros Hne. apply Hinv. right. split; [done|]. split; [|done].
    unfold hgetBuffer in HV. simpl.
    destruct (records st1 !! cacheKey); [by eexists|done].
Qed.

End MoreCacheFacts.

(** * More facts about the earlier invalidation handler *)

Section MoreInvalidationFacts.

Import Redis CachedQuery Invalidation.

Context `{Imports}.

(** What the two groups of the pattern hold when it matches. *)

Lemma match_groups_sound s : forall acc h p,
  Invalidation.match_groups acc s = Some (h, p) ->
  acc +:+ s = h +:+ p /\ h ≠ EmptyString
  /\ Invalidation.match_params p = true.
Proof.
  induction s as [|c s IH]; intros acc h p; [done|].
  cbn [Invalidation.match_groups].
  destruct (negb (String.eqb acc EmptyString)
            && Invalidation.match_params (String c s)) eqn:E.
  - intros [= <- <-]. apply andb_true_iff in E as [E1 E2].
    apply negb_true_iff, String.eqb_neq in E1. done.
  - destruct (Invalidation.dot c); [|done]. intros Hm.
    apply IH in Hm as (Heq & Hh & Hp). split; [|done].
    rewrite <- Heq. rewrite string_app_assoc. by rewrite string_app_cons.
Qed.

Lemma MATCH_CACHE_KEY_prefix key :
  Invalidation.MATCH_CACHE_KEY key
  = if String.prefix "Q:" key
    then Invalidation.match_groups EmptyString
           (String.substring 2 (String.length key - 2) key)
    else None.
Proof.
  destruct key as [|c1 key]; [done|].
  destruct c1 as [[] [] [] [] [] [] [] []]; try done.
  destruct key as [|c2 key]; [done|].
  destruct c2 as [[] [] [] [] [] [] [] []]; try done.
  cbn [Invalidation.MATCH_CACHE_KEY]. simpl.
  rewrite Nat.sub_0_r.
  assert (Hsub : forall s : string, String.substring 0 (String.length s) s = s).
  { induction s as [|c s IH]; [done|]. simpl. by rewrite IH. }
  rewrite Hsub. by destruct key.
Qed.

Lemma prefix_Q key :
  String.prefix "Q:" key = true ->
  key = "Q:" +:+ String.substring 2 (String.length key - 2) key.
Proof.
  destruct key as [|c1 key]; [done|].
  destruct c1 as [[] [] [] [] [] [] [] []]; try done.
  destruct key as [|c2 key]; [done|].
  destruct c2 as [[] [] [] [] [] [] [] []]; try done.
  simpl. intros _. rewrite Nat.sub_0_r.
  assert (Hsub : forall s : string, String.substring 0 (String.length s) s = s).
  { induction s as [|c s IH]; [done|]. simpl. by rewrite IH. }
  by rewrite Hsub.
Qed.

(** X21: what [parseCacheKey] accepts. When it returns a hash and
    parameters, the key is [Q:], the hash (not empty), and a text in
    brackets that [JSON.parse] reads as the parameters; if encoding the
    parameters gives that text back, the key is the key of the hash and the
    parameters. A key that does not start with [Q:] is refused with
    [Failed to parse cache key]. *)

Theorem parseCacheKey_sound :
  (forall key h ps,
     Invalidation.parseCacheKey key = Ok (h, ps) ->
     exists text,
       key = "Q:" +:+ h +:+ text
       /\ h ≠ EmptyString
       /\ Invalidation.match_params text = true
       /\ JSON_parse text = Some ps
       /\ (EJSON_stringify ps = text -> cacheKeyOf h ps = key))
  /\ (forall key, String.prefix "Q:" key = false ->
        Invalidation.parseCacheKey key = Throw "Failed to parse cache key").
Proof.
  split.
  - intros key h ps. unfold Invalidation.parseCacheKey.
    rewrite MATCH_CACHE_KEY_prefix.
    destruct (String.prefix "Q:" key) eqn:Hpre; [|done].
    destruct (Invalidation.match_groups _ _) as [[h' text]|] eqn:Hm; [|done].
    destruct (JSON_parse text) as [ps'|] eqn:Hp; [|done]. intros [= -> ->].
    apply match_groups_sound in Hm as (Heq & Hh & Ht).
    change (EmptyString +:+ ?s) with s in Heq.
    apply prefix_Q in Hpre.
    exists text. split; [|split; [done|split; [done|split; [done|]]]].
    + rewrite Hpre at 1. by rewrite Heq.
    + intros <-. unfold cacheKeyOf. rewrite Hpre. by rewrite Heq.
  - intros key Hpre. unfold Invalidation.parseCacheKey.
    by rewrite MATCH_CACHE_KEY_prefix, Hpre.
Qed.

Lemma elem_of_set_add x y s : x ∈ set_add y s <-> x ∈ s \/ x = y.
Proof.
  unfold set_add. case_bool_decide as Hin.
  - split; [by left|]. by intros [?| ->].
  - rewrite elem_of_app, list_elem_of_singleton. done.
Qed.

Lemma NoDup_set_add y s : NoDup s -> NoDup (set_add y s).
Proof.
  intros Hnd. unfold set_add. case_bool_decide as Hin; [done|].
  apply NoDup_app. split; [done|]. split; [|apply NoDup_singleton].
  intros x Hx ->%list_elem_of_singleton. done.
Qed.

(** Adding the elements of a list to a set kept in insertion order. *)

Lemma fold_set_add xs : forall acc,
  NoDup acc ->
  NoDup (fold_left (fun a x => set_add x a) xs acc)
  /\ (forall x, x ∈ fold_left (fun a x => set_add x a) xs acc
                <-> x ∈ acc \/ x ∈ xs)
  /\ acc `prefix_of` fold_left (fun a x => set_add x a) xs acc.
Proof.
  induction xs as [|y xs IH]; intros acc Hnd; simpl.
  - split; [done|]. split; [|done]. intros x. rewrite elem_of_nil. tauto.
  - destruct (IH (set_add y acc) (NoDup_set_add y acc Hnd)) as (Hnd' & Hin & Hpre).
    split; [done|]. split.
    + intros x. rewrite Hin, elem_of_set_add, elem_of_cons. tauto.
    + etrans; [|exact Hpre]. unfold set_add. case_bool_decide; [done|].
      by apply prefix_app_r.
Qed.

Lemma fold_set_add_nodup xs : forall acc,
  NoDup (acc ++ xs) -> fold_left (fun a x => set_add x a) xs acc = acc ++ xs.
Proof.
  induction xs as [|y xs IH]; intros acc Hnd; simpl.
  - by rewrite app_nil_r.
  - assert (Hy : y ∉ acc).
    { apply NoDup_app in Hnd as (_ & Hd & _). intros Hin.
      apply (Hd y Hin). by left. }
    unfold set_add at 2. rewrite bool_decide_eq_false_2 by done.
    rewrite IH; rewrite <- app_assoc; done.
Qed.

Lemma elem_of_concat (x : string) (ls : list (list string)) :
  x ∈ concat ls <-> exists l, l ∈ ls /\ x ∈ l.
Proof.
  induction ls as [|l ls IH]; simpl.
  - split; [by intros ?%elem_of_nil|]. by intros (l & ?%elem_of_nil & _).
  - rewrite elem_of_app, IH. split.
    + intros [Hx|(l' & Hl & Hx)]; [exists l|exists l']; split; try done;
        [by left|by right].
    + intros (l' & [->|Hl]%elem_of_cons & Hx); [by left|right; by exists l'].
Qed.

Lemma elem_of_union x targets :
  x ∈ union targets <-> exists t, t ∈ targets /\ x ∈ t.
Proof.
  unfold union.
  destruct (fold_set_add (concat targets) [] (NoDup_nil_2)) as (_ & Hin & _).
  rewrite Hin, elem_of_nil, elem_of_concat. tauto.
Qed.

(** X22: [union] returns every element of its targets once, and nothing
    else; a first target without repetition comes first, in its order. *)

Theorem union_spec :
  forall targets : list (list string),
    NoDup (union targets)
    /\ (forall x, x ∈ union targets <-> exists t, t ∈ targets /\ x ∈ t)
    /\ (forall t rest, targets = t :: rest -> NoDup t ->
          t `prefix_of` union targets).
Proof.
  intros targets. unfold union.
  destruct (fold_set_add (concat targets) [] (NoDup_nil_2)) as (Hnd & Hin & _).
  split; [done|]. split.
  - intros x. rewrite Hin, elem_of_nil.
    rewrite elem_of_concat. tauto.
  - intros t rest -> Ht. simpl. rewrite fold_left_app.
    rewrite (fold_set_add_nodup t []) by done. simpl.
    by apply fold_set_add.
Qed.

(** The two loops of [collectInsertInvalidations] are one loop over the
    pairs of a definition and a document. *)

Lemma collect_visits reg modelName docs : forall acc,
  fold_left (fun acc '(_, query) =>
               fold_left (collectOne query modelName) docs acc) reg acc
  = fold_left (fun acc '(q, d) => collectOne q modelName acc d)
              (visits reg docs) acc.
Proof.
  unfold visits. induction reg as [|[h q] reg IH]; intros acc; [done|].
  cbn [fold_left mbind list_bind]. rewrite IH.
  change (((h, q) :: reg) ≫= (fun e => pair e.2 <$> docs))
    with ((pair q <$> docs) ++ (reg ≫= (fun e => pair e.2 <$> docs))).
  rewrite fold_left_app. f_equal.
  clear IH. revert acc. induction docs as [|d docs IHd]; intros acc; [done|].
  simpl. apply IHd.
Qed.

Lemma elem_of_visits reg docs q d :
  (q, d) ∈ visits reg docs <-> (exists h, (h, q) ∈ reg) /\ d ∈ docs.
Proof.
  unfold visits. rewrite list_elem_of_bind. split.
  - intros ([h q'] & Hin & Hreg).
    apply list_elem_of_fmap in Hin as (d' & [= -> ->] & Hd).
    split; [by exists h|done].
  - intros [[h Hreg] Hd]. exists (h, q). split; [|done].
    apply list_elem_of_fmap. by exists d.
Qed.

Lemma collect_fold_throw modelName vs msg :
  fold_left (fun acc '(q, d) => collectOne q modelName acc d) vs (Throw msg)
  = Throw msg.
Proof. induction vs as [|[q d] vs IH]; [done|]. simpl. apply IH. Qed.

Lemma collect_fold modelName vs : forall keys sets hashes,
  NoDup keys -> NoDup sets -> NoDup hashes ->
  match fold_left (fun acc '(q, d) => collectOne q modelName acc d) vs
                  (Ok (keys, sets, hashes)) with
  | Ok (keys', sets', hashes') =>
      NoDup keys' /\ NoDup sets' /\ NoDup hashes'
      /\ Forall (fun '(q, d) => is_ok (getInsertInvalidation q modelName d) = true) vs
      /\ (forall k, k ∈ keys' <->
            k ∈ keys \/ exists q d, (q, d) ∈ vs
              /\ getInsertInvalidation q modelName d = Ok (Key (hash q) k))
      /\ (forall s, s ∈ sets' <->
            s ∈ sets \/ exists q d, (q, d) ∈ vs
              /\ getInsertInvalidation q modelName d = Ok (All (hash q))
              /\ s = "A:" +:+ hash q)
      /\ (forall x, x ∈ hashes' <->
            x ∈ hashes \/ exists q d, (q, d) ∈ vs
              /\ is_ok (getInsertInvalidation q modelName d) = true
              /\ getInsertInvalidation q modelName d ≠ Ok Nothing
              /\ x = hash q)
  | Throw msg =>
      exists q d, (q, d) ∈ vs
        /\ getInsertInvalidation q modelName d = Throw msg
  end.
Proof.
  induction vs as [|[q d] vs IH]; intros keys sets hashes Hk Hs Hh.
  - simpl. repeat (split; [done|]).
    split; [|split]; intros x; (split; [by left|]);
      (intros [?|(q & d & Hin & _)]; [done|by apply elem_of_nil in Hin]).
  - cbn [fold_left]. unfold collectOne at 2. cbn [result_bind].
    assert (Hinfo : forall i, getInsertInvalidation q modelName d = Ok i ->
              i = Nothing \/ i = All (hash q) \/ exists k, i = Key (hash q) k).
    { intros i. unfold getInsertInvalidation.
      destruct (_ || _); [intros [= <-]; eauto|].
      destruct (negb (matcher _ _)); [intros [= <-]; eauto|].
      destruct (complexQuery _); [intros [= <-]; eauto|].
      destruct (getCacheKey _ _); simpl; [|done]. intros [= <-]. eauto. }
    destruct (getInsertInvalidation q modelName d) as [info|msg] eqn:Hinfo'.
    2:{ cbn [result_bind]. rewrite collect_fold_throw.
        exists q, d. split; [by left|done]. }
    cbn [result_bind].
    destruct (Hinfo info eq_refl) as [->|[->|[k ->]]].
    + specialize (IH keys sets hashes Hk Hs Hh).
      destruct (fold_left _ vs _) as [[[keys' sets'] hashes']|msg].
      * destruct IH as (Hk' & Hs' & Hh' & Hok & Hkeys & Hsets & Hhashes).
        repeat (split; [done|]). split; [constructor; [by rewrite Hinfo'|done]|].
        split; [|split].
        -- intros x. rewrite Hkeys. split; (intros [?|(q' & d' & Hin & Hg)]; [by left|right]).
           ++ exists q', d'. split; [by right|done].
           ++ apply elem_of_cons in Hin as [[= -> ->]|Hin]; [congruence|].
              by exists q', d'.
        -- intros x. rewrite Hsets. split; (intros [?|(q' & d' & Hin & Hg & Hx)]; [by left|right]).
           ++ exists q', d'. split; [by right|done].
           ++ apply elem_of_cons in Hin as [[= -> ->]|Hin]; [congruence|].
              by exists q', d'.
        -- intros x. rewrite Hhashes. split; (intros [?|(q' & d' & Hin & Hg & Hn & Hx)]; [by left|right]).
           ++ exists q', d'. split; [by right|done].
           ++ apply elem_of_cons in Hin as [[= -> ->]|Hin]; [congruence|].
              by exists q', d'.
      * destruct IH as (q' & d' & Hin & Hg). exists q', d'. split; [by right|done].
    + specialize (IH keys (set_add ("A:" +:+ hash q) sets) (set_add (hash q) hashes)
                     Hk (NoDup_set_add _ _ Hs) (NoDup_set_add _ _ Hh)).
      destruct (fold_left _ vs _) as [[[keys' sets'] hashes']|msg].
      * destruct IH as (Hk' & Hs' & Hh' & Hok & Hkeys & Hsets & Hhashes).
        repeat (split; [done|]). split; [constructor; [by rewrite Hinfo'|done]|].
        split; [|split].
        -- intros x. rewrite Hkeys. split; (intros [?|(q' & d' & Hin & Hg)]; [by left|right]).
           ++ exists q', d'. split; [by right|done].
           ++ apply elem_of_cons in Hin as [[= -> ->]|Hin]; [congruence|].
              by exists q', d'.
        -- intros x. rewrite Hsets, elem_of_set_add. split.
           ++ intros [[?| ->]|(q' & d' & Hin & Hg & Hx)]; [by left|right..].
              ** exists q, d. split; [by left|done].
              ** exists q', d'. split; [by right|done].
           ++ intros [?|(q' & d' & Hin & Hg & Hx)]; [by left; left|].
              apply elem_of_cons in Hin as [[= -> ->]|Hin]; [by left; right|].
              right. by exists q', d'.
        -- intros x. rewrite Hhashes, elem_of_set_add. split.
           ++ intros [[?| ->]|(q' & d' & Hin & Hg & Hn & Hx)]; [by left|right..].
              ** exists q, d. split; [by left|]. by rewrite Hinfo'.
              ** exists q', d'. split; [by right|done].
           ++ intros [?|(q' & d' & Hin & Hg & Hn & Hx)]; [by left; left|].
              apply elem_of_cons in Hin as [[= -> ->]|Hin]; [by left; right|].
              right. by exists q', d'.
      * destruct IH as (q' & d' & Hin & Hg). exists q', d'. split; [by right|done].
    + specialize (IH (set_add k keys) sets (set_add (hash q) hashes)
                     (NoDup_set_add _ _ Hk) Hs (NoDup_set_add _ _ Hh)).
      destruct (fold_left _ vs _) as [[[keys' sets'] hashes']|msg].
      * destruct IH as (Hk' & Hs' & Hh' & Hok & Hkeys & Hsets & Hhashes).
        repeat (split; [done|]). split; [constructor; [by rewrite Hinfo'|done]|].
        split; [|split].
        -- intros x. rewrite Hkeys, elem_of_set_add. split.
           ++ intros [[?| ->]|(q' & d' & Hin & Hg)]; [by left|right..].
              ** exists q, d. split; [by left|done].
              ** exists q', d'. split; [by right|done].
           ++ intros [?|(q' & d' & Hin & Hg)]; [by left; left|].
              apply elem_of_cons in Hin as [[= -> ->]|Hin].
              ** left. right. congruence.
              ** right. by exists q', d'.
        -- intros x. rewrite Hsets. split; (intros [?|(q' & d' & Hin & Hg & Hx)]; [by left|right]).
           ++ exists q', d'. split; [by right|done].
           ++ apply elem_of_cons in Hin as [[= -> ->]|Hin]; [congruence|].
              by exists q', d'.
        -- intros x. rewrite Hhashes, elem_of_set_add. split.
           ++ intros [[?| ->]|(q' & d' & Hin & Hg & Hn & Hx)]; [by left|right..].
              ** exists q, d. split; [by left|]. by rewrite Hinfo'.
              ** exists q', d'. split; [by right|done].
           ++ intros [?|(q' & d' & Hin & Hg & Hn & Hx)]; [by left; left|].
              apply elem_of_cons in Hin as [[= -> ->]|Hin]; [by left; right|].
              right. by exists q', d'.
      * destruct IH as (q' & d' & Hin & Hg). exists q', d'. split; [by right|done].
Qed.

(** X23: what [collectInsertInvalidations] collects. When it returns,
    [getInsertInvalidation] throws for no pair of a registered definition
    and an inserted document; the keys are exactly the keys derived for
    such a pair, the sets are exactly the sets [A:<hash>] of the pairs that
    invalidate all keys of their definition, and neither holds a
    repetition. When it throws, it throws what [getInsertInvalidation]
    threw for some pair. *)

Theorem collect_characterised :
  forall reg modelName docs,
    match collectInsertInvalidations reg modelName docs with
    | Ok (keys, allSets, hashes) =>
        NoDup keys /\ NoDup allSets
        /\ (forall k, k ∈ keys <->
              exists h q d, (h, q) ∈ reg /\ d ∈ docs
                /\ getInsertInvalidation q modelName d = Ok (Key (hash q) k))
        /\ (forall s, s ∈ allSets <->
              exists h q d, (h, q) ∈ reg /\ d ∈ docs
                /\ getInsertInvalidation q modelName d = Ok (All (hash q))
                /\ s = "A:" +:+ hash q)
        /\ (forall h q d, (h, q) ∈ reg -> d ∈ docs ->
              is_ok (getInsertInvalidation q modelName d) = true)
    | Throw msg =>
        exists h q d, (h, q) ∈ reg /\ d ∈ docs
          /\ getInsertInvalidation q modelName d = Throw msg
    end.
Proof.
  intros reg modelName docs. unfold collectInsertInvalidations.
  rewrite collect_visits.
  pose proof (collect_fold modelName (visits reg docs) [] [] []
                (NoDup_nil_2) (NoDup_nil_2) (NoDup_nil_2)) as Hfold.
  destruct (fold_left _ _ _) as [[[keys allSets] hashes]|msg].
  - destruct Hfold as (Hk & Hs & _ & Hok & Hkeys & Hsets & _).
    split; [done|]. split; [done|]. split; [|split].
    + intros k. rewrite Hkeys, elem_of_nil. split.
      * intros [[]|(q & d & [[h Hq] Hd]%elem_of_visits & Hg)]. by exists h, q, d.
      * intros (h & q & d & Hq & Hd & Hg). right. exists q, d.
        split; [|done]. apply elem_of_visits. split; [by exists h|done].
    + intros k. rewrite Hsets, elem_of_nil. split.
      * intros [[]|(q & d & [[h Hq] Hd]%elem_of_visits & Hg)]. by exists h, q, d.
      * intros (h & q & d & Hq & Hd & Hg). right. exists q, d.
        split; [|done]. apply elem_of_visits. split; [by exists h|done].
    + intros h q d Hq Hd. rewrite Forall_forall in Hok.
      apply (Hok (q, d)). apply elem_of_visits. split; [by exists h|done].
  - destruct Hfold as (q & d & [[h Hq] Hd]%elem_of_visits & Hg).
    by exists h, q, d.
Qed.

Lemma collect_ok_all reg modelName docs keys allSets hashes h q d :
  collectInsertInvalidations reg modelName docs = Ok (keys, allSets, hashes) ->
  (h, q) ∈ reg -> d ∈ docs ->
  is_ok (getInsertInvalidation q modelName d) = true.
Proof.
  unfold collectInsertInvalidations. rewrite collect_visits.
  pose proof (collect_fold modelName (visits reg docs) [] [] []
                (NoDup_nil_2) (NoDup_nil_2) (NoDup_nil_2)) as Hfold.
  intros Hc Hq Hd. rewrite Hc in Hfold.
  destruct Hfold as (_ & _ & _ & Hok & _). rewrite Forall_forall in Hok.
  apply (Hok (q, d)). apply elem_of_visits. split; [by exists h|done].
Qed.

(** X24: one misclassified definition blocks insert invalidation. If a
    registered definition that reacts to inserts of the model has a
    classification without a complex clause whose dynamic keys are not as
    many as the parameters the definition expects, then the insert of a
    document its matcher accepts makes the handler throw before anything
    is asked of the store: no key of any definition is invalidated. *)

Theorem insert_blocked_by_misclassified :
  forall reg modelName docs st h q d,
    (h, q) ∈ reg -> d ∈ docs ->
    unique (config q) = false ->
    invalidateOnInsert (config q) = true ->
    model (config q) = modelName ->
    matcher (classification q) d = true ->
    complexQuery (classification q) = false ->
    length (dynamicKeys (classification q)) ≠ expectNumParams q ->
    exists msg,
      onCacheEffect reg (Insert modelName docs) st = (Throw msg, st, []).
Proof.
  intros reg modelName docs st h q d Hq Hd Hu Hi Hm Hmatch Hc Hlen.
  assert (Hthrow : is_ok (getInsertInvalidation q modelName d) = false).
  { unfold getInsertInvalidation. rewrite Hu, Hi, Hm, String.eqb_refl.
    simpl. rewrite Hmatch, Hc. simpl. unfold getCacheKey.
    rewrite length_fmap. rewrite bool_decide_eq_true_2; [done|].
    by intros ?. }
  unfold onCacheEffect, doInsertInvalidation.
  destruct (collectInsertInvalidations reg modelName docs)
    as [[[keys allSets] hashes]|msg] eqn:Hcollect.
  - pose proof (collect_ok_all _ _ _ _ _ _ h q d Hcollect Hq Hd). congruence.
  - by exists msg.
Qed.

Lemma assoc_get_elem_of {A} k (v : A) fs :
  MongoOperators.assoc_get k fs = Some v -> (k, v) ∈ fs.
Proof.
  induction fs as [|[k' v'] fs IH]; [done|]. simpl.
  destruct (String.eqb k k') eqn:E.
  - apply String.eqb_eq in E as ->. intros [= ->]. by left.
  - intros ?. right. by apply IH.
Qed.

Lemma rehydrateKey_off reg key st :
  never_rehydrates reg ->
  exists r, rehydrateKey reg key st = (r, st, []).
Proof.
  intros Hreg. unfold rehydrateKey.
  destruct (parseCacheKey key) as [[h ps]|msg]; [|by eexists].
  destruct (MongoOperators.assoc_get h reg) as [q|] eqn:Hq; [|by eexists].
  apply assoc_get_elem_of in Hq. unfold never_rehydrates in Hreg.
  rewrite Forall_forall in Hreg. apply Hreg in Hq. simpl in Hq.
  rewrite Hq. by eexists.
Qed.

Lemma rehydrate_off reg keys : forall st,
  never_rehydrates reg ->
  exists r, Invalidation.rehydrate reg keys st = (r, st, []).
Proof.
  induction keys as [|key keys IH]; intros st Hreg; [by eexists|].
  cbn [Invalidation.rehydrate].
  destruct (rehydrateKey_off reg key st Hreg) as [r1 ->].
  destruct (IH st Hreg) as [r2 ->]. by eexists.
Qed.

(** When nothing is rehydrated, the store after [invalidate] is the store
    after the batch of deletions. *)

Lemma invalidate_off reg keys st :
  never_rehydrates reg ->
  exists r log,
    Invalidation.invalidate reg keys st
    = (r, (run_batch (Delquery <$> keys) st).1, log).
Proof.
  intros Hreg. destruct keys as [|key keys]; [by eexists _, _|].
  unfold Invalidation.invalidate, multi_exec.
  destruct (run_batch (Delquery <$> key :: keys) st) as [st' rs].
  destruct rs as [|r rs]; [by eexists _, _|].
  destruct (invalidatedKeys _ _) as [|k ks]; [by eexists _, _|].
  destruct (rehydrate_off reg (k :: ks) st' Hreg) as [r' ->].
  by eexists _, _.
Qed.

(** X25: the effect of an insert on the store, when no definition is
    rehydrated. The records deleted are exactly those of the collected
    keys and of the members of the collected sets; every other record and
    every set stays. *)

Theorem insert_invalidates_collected :
  forall reg modelName docs st keys allSets hashes,
    never_rehydrates reg ->
    collectInsertInvalidations reg modelName docs
    = Ok (keys, allSets, hashes) ->
    exists r st' log,
      onCacheEffect reg (Insert modelName docs) st = (r, st', log)
      /\ sets st' = sets st
      /\ (forall k, (k ∈ keys \/ exists s, s ∈ allSets /\ k ∈ smembers st s) ->
            records st' !! k = None)
      /\ (forall k, ~ (k ∈ keys \/ exists s, s ∈ allSets /\ k ∈ smembers st s) ->
            records st' !! k = records st !! k).
Proof.
  intros reg modelName docs st keys allSets hashes Hreg Hcollect.
  unfold onCacheEffect, doInsertInvalidation. rewrite Hcollect.
  set (fetched := match allSets with [] => Ok [] | _ => sunion st allSets end).
  assert (Hfetched : exists fs, fetched = Ok fs
            /\ forall k, k ∈ fs <-> exists s, s ∈ allSets /\ k ∈ smembers st s).
  { unfold fetched. destruct allSets as [|s0 ss].
    - exists []. split; [done|]. intros k. split; [by intros ?%elem_of_nil|].
      by intros (s & ?%elem_of_nil & _).
    - eexists. split; [done|]. intros k.
      rewrite elem_of_elements, elem_of_union_list. split.
      + intros (X & HX & Hk). apply list_elem_of_fmap in HX as (s & -> & Hs).
        by exists s.
      + intros (s & Hs & Hk). exists (smembers st s). split; [|done].
        apply list_elem_of_fmap. by exists s. }
  destruct Hfetched as (fs & -> & Hfs).
  assert (Hdel : forall k, k ∈ union [keys; fs] <->
            k ∈ keys \/ exists s, s ∈ allSets /\ k ∈ smembers st s).
  { intros k. rewrite elem_of_union, <- Hfs. split.
    - intros (t & Ht & Hk). apply elem_of_cons in Ht as [->|Ht]; [by left|].
      apply list_elem_of_singleton in Ht as ->. by right.
    - intros [Hk|Hk]; eexists; (split; [|exact Hk]);
        [by left|right; by left]. }
  assert (Hrun : exists r log,
            Invalidation.invalidate reg (union [keys; fs]) st
            = (r, (run_batch (Delquery <$> union [keys; fs]) st).1, log))
    by (by apply invalidate_off).
  destruct Hrun as (r & log & Hrun).
  destruct (delquery_batch (union [keys; fs]) st ∅) as (Hsets & Hrec & _).
  assert (Hgoal : exists r st' log,
            Invalidation.invalidate reg (union [keys; fs]) st = (r, st', log)
            /\ sets st' = sets st
            /\ (forall k, (k ∈ keys \/ exists s, s ∈ allSets /\ k ∈ smembers st s) ->
                  records st' !! k = None)
            /\ (forall k, ~ (k ∈ keys \/ exists s, s ∈ allSets /\ k ∈ smembers st s) ->
                  records st' !! k = records st !! k)).
  { eexists _, _, _. split; [exact Hrun|]. split; [done|].
    split; intros k Hk; rewrite Hrec.
    - rewrite decide_True; [done|]. by apply Hdel.
    - rewrite decide_False; [done|]. by rewrite Hdel. }
  destruct keys as [|k0 ks]; [destruct fs as [|f0 fs']|]; exact Hgoal.
Qed.

(** X27: the remove branch of the earlier handler. For a remove event
    with at least one id, when no definition is rehydrated, the records
    deleted are exactly those of the keys found in the set [O:<id>] of
    some removed id: a key that depends on a removed document through a
    populated path alone keeps its record. Every set stays. A remove event
    without ids makes the handler throw, as [sunion] is refused. *)
Theorem earlier_remove_primary_only :
  forall reg modelName ids st,
    never_rehydrates reg ->
    (ids ≠ [] ->
     exists r st' log,
       onCacheEffect reg (Remove modelName ids) st = (r, st', log)
       /\ sets st' = sets st
       /\ (forall k, (exists id, id ∈ ids /\ k ∈ smembers st ("O:" +:+ id)) ->
             records st' !! k = None)
       /\ (forall k, ~ (exists id, id ∈ ids /\ k ∈ smembers st ("O:" +:+ id)) ->
             records st' !! k = records st !! k))
    /\ onCacheEffect reg (Remove modelName []) st
       = (Throw "ERR wrong number of arguments for 'sunion' command", st, []).
Proof.
  intros reg modelName ids st Hreg. split; [|done].
  intros Hids. unfold onCacheEffect, Invalidation.doRemoveInvalidation.
  set (U := (⋃ (smembers st <$> ((fun id => "O:" +:+ id) <$> ids))
             : gset string)).
  assert (Hs : sunion st ((fun id => "O:" +:+ id) <$> ids) = Ok (elements U)).
  { unfold sunion, U. by destruct ids. }
  rewrite Hs.
  assert (HU : forall k, k ∈ elements U <->
            exists id, id ∈ ids /\ k ∈ smembers st ("O:" +:+ id)).
  { intros k. unfold U. rewrite elem_of_elements, elem_of_union_list. split.
    - intros (X & HX & Hk). apply list_elem_of_fmap in HX as (key & -> & Hkey).
      apply list_elem_of_fmap in Hkey as (id & -> & Hid). by exists id.
    - intros (id & Hid & Hk). eexists. split; [|exact Hk].
      apply list_elem_of_fmap. eexists. split; [done|].
      apply list_elem_of_fmap. by exists id. }
  destruct (invalidate_off reg (elements U) st Hreg) as (r & log & Hrun).
  destruct (delquery_batch (elements U) st ∅) as (Hsets & Hrec & _).
  assert (Hgoal : exists r st' log,
            Invalidation.invalidate reg (elements U) st = (r, st', log)
            /\ sets st' = sets st
            /\ (forall k, (exists id, id ∈ ids /\ k ∈ smembers st ("O:" +:+ id)) ->
                  records st' !! k = None)
            /\ (forall k, ~ (exists id, id ∈ ids /\ k ∈ smembers st ("O:" +:+ id)) ->
                  records st' !! k = records st !! k)).
  { eexists _, _, _. split; [exact Hrun|]. split; [done|].
    split; intros k Hk; rewrite Hrec.
    - rewrite decide_True; [done|]. by apply HU.
    - rewrite decide_False; [done|]. by rewrite HU. }
  destruct (elements U) as [|u us]; exact Hgoal.
Qed.

(** A call for no more than [cacheCount] documents from the start goes
    through the cache. *)

Lemma outsideCache_whole cc : outsideCache cc (Num 0) (Some cc) = false.
Proof.
  unfold outsideCache, num_gt. destruct cc as [|z| |]; try done. simpl.
  rewrite Z.add_0_r, Z.ltb_irrefl. by rewrite andb_false_r.
Qed.

Lemma parseOpts_with_params cq ps po e :
  parseOpts cq (Params ps) = Ok po ->
  parseOpts cq (Opts e (Some ps)) = Ok (fresh po e).
Proof.
  unfold parseOpts. destruct (query (config cq)).
  - destruct (getCacheKey cq []); [|done]. by intros [= <-].
  - destruct (getCacheKey cq ps); [|done]. by intros [= <-].
Qed.

Lemma parseOpts_key cq ps po key :
  parseOpts cq (Params ps) = Ok po ->
  getCacheKey cq ps = Ok key ->
  po_key po = key.
Proof.
  unfold parseOpts, getCacheKey, expectNumParams.
  destruct (query (config cq)) as [f|n fn].
  - simpl. case_bool_decide as Hlen; [done|]. intros [= <-] [= <-].
    destruct ps; [done|]. simpl in Hlen. try apply dec_stable in Hlen. done.
  - case_bool_decide; [done|]. by intros [= <-] [= <-].
Qed.

(** X26: rehydration caches the fresh result under the key it was asked
    for. For the key of a definition that is registered under its hash
    and asks to be rehydrated, when the hash is plain and the parameters
    survive their encoding, [rehydrate] does not read the cache: it asks
    the source of truth for the first [cacheCount] documents and stores
    them under that key (unless the definition is unique and there is
    none). So [invalidate] of that key, when it holds a record, deletes
    the record and leaves the fresh result in its place. *)

Theorem rehydrate_recaches :
  forall reg q ps key po st,
    getCacheKey q ps = Ok key ->
    parseOpts q (Params ps) = Ok po ->
    plain_hash (hash q) ->
    array_text (EJSON_stringify ps) ->
    JSON_parse (EJSON_stringify ps) = Some ps ->
    MongoOperators.assoc_get (hash q) reg = Some q ->
    CachedQuery.rehydrate (config q) = true ->
    let fetch := fresh po {| skip := None;
                             limit := Some (cacheCount (config q));
                             filter := None; skipCache := None |} in
    let fetched := execMongo q fetch in
    (unique (config q) = false \/ fetched ≠ []) ->
    exists st',
      rehydrateKey reg key st
      = (Ok tt, st', [Find (buildQuery q fetch);
                      Multi (cacheCommands q fetched key)])
      /\ hgetBuffer st' key "V" = Some fetched
      /\ (is_Some (records st !! key) ->
          exists st'',
            Invalidation.invalidate reg [key] st
            = (Ok tt, st'', [Multi [Delquery key];
                            Find (buildQuery q fetch);
                            Multi (cacheCommands q fetched key)])
            /\ hgetBuffer st'' key "V" = Some fetched).
Proof.
  intros reg q ps key po st Hkey Hparse Hplain Htext Hjson Hreg Hre
         fetch fetched Hcase.
  pose proof (parseOpts_key q ps po key Hparse Hkey) as Hpo.
  assert (Hk : key = cacheKeyOf (hash q) ps).
  { unfold getCacheKey in Hkey. case_bool_decide; [done|]. by injection Hkey. }
  assert (Hpk : parseCacheKey key = Ok (hash q, ps)).
  { unfold parseCacheKey. rewrite Hk, MATCH_cacheKeyOf by done.
    by rewrite Hjson. }
  assert (Hwrite : bool_decide (0 < length fetched)
                   || negb (unique (config q)) = true).
  { destruct Hcase as [->|Hne]; [by rewrite orb_true_r|].
    apply orb_true_iff. left. apply bool_decide_eq_true_2.
    destruct fetched; [done|simpl; lia]. }
  assert (Hone : forall st0, exists st',
            rehydrateKey reg key st0
            = (Ok tt, st', [Find (buildQuery q fetch);
                            Multi (cacheCommands q fetched key)])
            /\ hgetBuffer st' key "V" = Some fetched).
  { intros st0. unfold rehydrateKey. rewrite Hpk, Hreg, Hre. cbn [negb].
    unfold exec. rewrite (parseOpts_with_params q ps po _ Hparse).
    cbn [result_bind fresh po_exec skip limit skipCache filter default negb
         po_key].
    rewrite outsideCache_whole. cbn [id negb].
    change (fresh (fresh po _) ?e) with (fresh po e).
    fold fetch. fold fetched.
    rewrite Hwrite, Hpo, serializeAndCache_store.
    eexists. split; [reflexivity|].
    by destruct (cache_batch_writes q fetched key st0 _ eq_refl) as (HV & _). }
  destruct (Hone st) as (st' & Hrun & HV).
  exists st'. split; [done|]. split; [done|].
  intros [r Hr]. unfold Invalidation.invalidate, multi_exec.
  cbn [fmap list_fmap run_batch run_command delquery].
  rewrite Hr. 
  assert (Hne : String.eqb key EmptyString = false).
  { rewrite Hk. unfold cacheKeyOf. by rewrite string_app_cons. }
  unfold invalidatedKeys. cbn. rewrite Hne. cbn.
  destruct (Hone {| records := delete key (records st); sets := sets st |})
    as (st'' & Hrun' & HV').
  rewrite Hrun'. by exists st''.
Qed.

End MoreInvalidationFacts.

(** * More scenarios, run *)

Section OperatorScenarios.

Import MongoOperators.

(** [{tags: ["x"], n: 3}]: [$push] appends ["x"] again, refuses the number
    at [n] and starts a new array at a path that holds nothing. *)
Lemma push_behaviour_witness :
  Scenario.tagsHeap !! 1%positive
  = Some (OObj [("tags", VRef 2%positive); ("n", VNum (Num 3))])
  /\ op_push 1%positive "tags" (VStr "x") Scenario.tagsHeap
     = (Ok tt, <[2%positive := OArr [VStr "x"; VStr "x"]]> Scenario.tagsHeap)
  /\ op_push 1%positive "n" (VStr "x") Scenario.tagsHeap
     = (Throw "$push target field must be an array", Scenario.tagsHeap)
  /\ exists h' a,
       op_push 1%positive "seen" (VStr "x") Scenario.tagsHeap = (Ok tt, h')
       /\ getValue h' 1%positive "seen" = VRef a
       /\ h' !! a = Some (OArr [VStr "x"]).
Proof.
  assert (Hobj : Scenario.tagsHeap !! 1%positive
            = Some (OObj [("tags", VRef 2%positive); ("n", VNum (Num 3))]))
    by reflexivity.
  split; [exact Hobj|]. split; [|split].
  - exact (proj1 (proj2 (push_behaviour _ _ _ "tags" (VStr "x") Hobj))
             2%positive [VStr "x"] eq_refl eq_refl).
  - apply (proj2 (proj2 (push_behaviour _ _ _ "n" (VStr "x") Hobj))).
    + vm_compute. discriminate.
    + intros a xs Hf. vm_compute in Hf. discriminate.
  - destruct (proj1 (push_behaviour _ _ _ "seen" (VStr "x") Hobj) eq_refl)
      as (h' & a & Hrun & _ & Hget & Ha & _).
    by exists h', a.
Defined.

(** [{tags: ["x", "y", "z"]}]: [$pop] with 1 or [true] drops ["x"], the
    first element; with -1 it drops ["z"], the last one; with 2 it throws;
    and on a path that holds nothing it accepts any operand. *)
Lemma pop_behaviour_witness :
  Scenario.lettersHeap !! 1%positive
  = Some (OObj [("tags", VRef 2%positive)])
  /\ op_pop 1%positive "tags" (VNum (Num 1)) Scenario.lettersHeap
     = (Ok tt, <[2%positive := OArr [VStr "y"; VStr "z"]]> Scenario.lettersHeap)
  /\ op_pop 1%positive "tags" (VBool true) Scenario.lettersHeap
     = (Ok tt, <[2%positive := OArr [VStr "y"; VStr "z"]]> Scenario.lettersHeap)
  /\ op_pop 1%positive "tags" (VNum (Num (-1))) Scenario.lettersHeap
     = (Ok tt, <[2%positive := OArr [VStr "x"; VStr "y"]]> Scenario.lettersHeap)
  /\ op_pop 1%positive "tags" (VNum (Num 2)) Scenario.lettersHeap
     = (Throw "$pop value must be 1 or -1", Scenario.lettersHeap)
  /\ op_pop 1%positive "seen" (VStr "last") Scenario.lettersHeap
     = (Ok tt, Scenario.lettersHeap).
Proof.
  assert (Hobj : Scenario.lettersHeap !! 1%positive
            = Some (OObj [("tags", VRef 2%positive)]))
    by reflexivity.
  split; [exact Hobj|]. split; [|split; [|split; [|split]]].
  - exact (proj1 (proj2 (pop_behaviour _ _ _ "tags" (VNum (Num 1)) Hobj))
             2%positive [VStr "x"; VStr "y"; VStr "z"] eq_refl eq_refl).
  - exact (proj1 (proj2 (pop_behaviour _ _ _ "tags" (VBool true) Hobj))
             2%positive [VStr "x"; VStr "y"; VStr "z"] eq_refl eq_refl).
  - exact (proj1 (proj2 (pop_behaviour _ _ _ "tags" (VNum (Num (-1))) Hobj))
             2%positive [VStr "x"; VStr "y"; VStr "z"] eq_refl eq_refl).
  - exact (proj1 (proj2 (pop_behaviour _ _ _ "tags" (VNum (Num 2)) Hobj))
             2%positive [VStr "x"; VStr "y"; VStr "z"] eq_refl eq_refl).
  - exact (proj1 (pop_behaviour _ _ _ "seen" (VStr "last") Hobj) eq_refl).
Defined.

(** [{tags: ["x"], n: 3}]: [$mul] of [n] by 4 gives 12, and a missing
    path becomes 0. *)
Lemma mul_behaviour_witness :
  Scenario.tagsHeap !! 1%positive
  = Some (OObj [("tags", VRef 2%positive); ("n", VNum (Num 3))])
  /\ (exists h', op_mul 1%positive "n" (VNum (Num 4)) Scenario.tagsHeap
                 = (Ok tt, h')
                 /\ getValue h' 1%positive "n" = VNum (Num 12))
  /\ (exists h', op_mul 1%positive "m" (VNum (Num 4)) Scenario.tagsHeap
                 = (Ok tt, h')
                 /\ getValue h' 1%positive "m" = VNum (Num 0))
  /\ op_mul 1%positive "tags" (VNum (Num 4)) Scenario.tagsHeap
     = (Throw "$mul target field must be a numeric type", Scenario.tagsHeap).
Proof.
  assert (Hobj : Scenario.tagsHeap !! 1%positive
            = Some (OObj [("tags", VRef 2%positive); ("n", VNum (Num 3))]))
    by reflexivity.
  split; [exact Hobj|]. split; [|split].
  - destruct (proj1 (proj2 (proj1 (mul_behaviour _ _ _ "n" _ Hobj)
                              (Num 4) eq_refl)) (Num 3) eq_refl)
      as (h' & Hrun & Hget & _).
    by exists h'.
  - destruct (proj1 (proj1 (mul_behaviour _ _ _ "m" _ Hobj) (Num 4) eq_refl)
                eq_refl)
      as (h' & Hrun & Hget & _).
    by exists h'.
  - apply (proj2 (proj2 (proj1 (mul_behaviour _ _ _ "tags" _ Hobj)
                           (Num 4) eq_refl))).
    + vm_compute. discriminate.
    + intros f. vm_compute. discriminate.
Defined.

(** [{tags: ["x"]}]: once ["y"] was added, adding it again changes
    nothing. *)
Lemma addToSet_idempotent_witness :
  op_addToSet 1%positive "tags" (VStr "y") Scenario.tagsHeap
  = (Ok tt, <[2%positive := OArr [VStr "x"; VStr "y"]]> Scenario.tagsHeap)
  /\ op_addToSet 1%positive "tags" (VStr "y")
       (<[2%positive := OArr [VStr "x"; VStr "y"]]> Scenario.tagsHeap)
     = (Ok tt, <[2%positive := OArr [VStr "x"; VStr "y"]]> Scenario.tagsHeap).
Proof.
  assert (Hrun : op_addToSet 1%positive "tags" (VStr "y") Scenario.tagsHeap
            = (Ok tt, <[2%positive := OArr [VStr "x"; VStr "y"]]>
                        Scenario.tagsHeap))
    by (vm_compute; reflexivity).
  split; [exact Hrun|].
  exact (addToSet_idempotent Scenario.tagsHeap _ 1%positive _ "tags"
           (VStr "y") eq_refl Hrun).
Defined.

(** [{tags: ["x"]}]: pushing ["y"] and popping the last element gives the
    heap back. *)
Lemma push_then_pop_last_witness :
  (op_push 1%positive "tags" (VStr "y")
   ;;; op_pop 1%positive "tags" (VNum (Num (-1)))) Scenario.tagsHeap
  = (Ok tt, Scenario.tagsHeap).
Proof.
  exact (push_then_pop_last Scenario.tagsHeap 1%positive _ "tags" (VStr "y")
           2%positive [VStr "x"] eq_refl eq_refl eq_refl).
Defined.

(** [{$inc: {a: 2}}] parses to one entry, of a supported operator. *)
Lemma parsed_operators_supported_witness :
  parseUpdateQuery (Scenario.incHeap [("a", VNum (Num 2))]) (VRef 2%positive)
  = Ok [("$inc", OwnPaths (VRef 3%positive))]
  /\ Forall (fun e : string * paths =>
               (exists o, operator_of_name e.1 = Some o)
               /\ match e.2 with
                  | SetPaths _ => e.1 = "$set"
                  | OwnPaths v => e.1 ≠ "$set" /\ exists l, v = VRef l
                  end)
            [("$inc", OwnPaths (VRef 3%positive))].
Proof.
  assert (Hparse : parseUpdateQuery (Scenario.incHeap [("a", VNum (Num 2))])
                     (VRef 2%positive)
                   = Ok [("$inc", OwnPaths (VRef 3%positive))])
    by (vm_compute; reflexivity).
  split; [exact Hparse|].
  exact (parsed_operators_supported _ _ _ Hparse).
Defined.

(** [{a: 5, c: "x"}] and [{$set: {a: 5, c: "x"}}] parse alike. *)
Lemma bare_fields_are_set_witness :
  parseUpdateQuery Scenario.setHeap (VRef 3%positive)
  = parseUpdateQuery Scenario.setHeap (VRef 4%positive)
  /\ parseUpdateQuery Scenario.setHeap (VRef 3%positive)
     = Ok [("$set", SetPaths [("a", VNum (Num 5)); ("c", VStr "x")])].
Proof.
  assert (Hbare : Forall (fun e : string * value => charAt0 e.1 ≠ "$")
                    [("a", VNum (Num 5)); ("c", VStr "x")]).
  { repeat constructor; vm_compute; discriminate. }
  exact (bare_fields_are_set Scenario.setHeap 3%positive 4%positive
           5%positive _ Hbare eq_refl eq_refl eq_refl).
Defined.

(** [{a: 5, c: "x"}] applied to [{a: 1}] and [{b: 2}]: both hold [a] and
    [c] afterwards, [b] stays, and the update expression is untouched. *)
Lemma applyUpdates_bare_fields_witness :
  exists h',
    applyUpdates Scenario.lessThan [1%positive; 2%positive]
      {| update := VRef 3%positive; filter := None; upsert := None |}
      Scenario.setHeap = (Ok VNull, h')
    /\ getValue h' 1%positive "a" = VNum (Num 5)
    /\ getValue h' 2%positive "a" = VNum (Num 5)
    /\ getValue h' 2%positive "c" = VStr "x"
    /\ getValue h' 2%positive "b" = VNum (Num 2)
    /\ h' !! 3%positive = Scenario.setHeap !! 3%positive.
Proof.
  assert (Hnd : NoDup [("a", VNum (Num 5)); ("c", VStr "x")].*1).
  { apply (bool_decide_unpack _). vm_compute. exact I. }
  assert (Hfs : Forall (fun e : string * value =>
                          charAt0 e.1 ≠ "$" /\ str_includes ".$" e.1 = false)
                  [("a", VNum (Num 5)); ("c", VStr "x")]).
  { repeat constructor; vm_compute; discriminate. }
  assert (Hobjs : Forall (fun t => exists ft, Scenario.setHeap !! t = Some (OObj ft))
                    [1%positive; 2%positive]).
  { repeat constructor; eexists; reflexivity. }
  assert (Hne : [1%positive; 2%positive] ≠ []) by discriminate.
  destruct (applyUpdates_bare_fields Scenario.lessThan Scenario.setHeap
              [1%positive; 2%positive] 3%positive _
              {| update := VRef 3%positive; filter := None; upsert := None |}
              eq_refl eq_refl Hnd Hfs Hne Hobjs)
    as (h' & Hrun & Hget & Hframe).
  exists h'. split; [exact Hrun|].
  assert (H1 : 1%positive ∈ [1%positive; 2%positive]) by (by left).
  assert (H2 : 2%positive ∈ [1%positive; 2%positive]) by (right; by left).
  split; [exact (Hget _ "a" H1)|]. split; [exact (Hget _ "a" H2)|].
  split; [exact (Hget _ "c" H2)|]. split; [exact (Hget _ "b" H2)|].
  apply Hframe. intros Hin.
  apply elem_of_cons in Hin as [Hin|Hin]; [discriminate|].
  apply elem_of_cons in Hin as [Hin|Hin]; [discriminate|].
  by apply elem_of_nil in Hin.
Defined.

End OperatorScenarios.

Section CacheScenarios.

Import Redis CachedQuery Sample Scenario.

(** [usersOfOrg] takes one parameter: it parses an array of one and
    refuses a call without parameters. *)
Lemma parseOpts_outcomes_witness :
  parseOpts usersOfOrg (Params [JStr "A"])
  = Ok {| po_query := JObj [("orgId", JStr "A")];
          po_key := cacheKeyOf (hash usersOfOrg) [JStr "A"];
          po_exec := noOpts |}
  /\ is_ok (parseOpts usersOfOrg (Params [])) = false
  /\ is_ok (parseOpts usersOfOrg NoInput) = false.
Proof.
  destruct (proj2 (proj2 (parseOpts_outcomes usersOfOrg)) 1 _ eq_refl)
    as (Hok & Hbad & Hnone & _).
  split; [exact (proj1 (Hok [JStr "A"] eq_refl))|].
  split; [|exact Hnone].
  apply (Hbad []). discriminate.
Defined.

(** The parameters [undefined] and [null] have the same encoding, and so
    the same key. *)
Lemma cache_keys_distinct_witness :
  cacheKeyOf "cq-User" [JUndefined] = cacheKeyOf "cq-User" [JNull]
  /\ EJSON_stringify [JUndefined] = EJSON_stringify [JNull].
Proof.
  assert (Hh : plain_hash "cq-User") by (split; [discriminate|reflexivity]).
  assert (Ht : array_text (EJSON_stringify [JUndefined])).
  { exists "null". split; reflexivity. }
  assert (Ht' : array_text (EJSON_stringify [JNull])).
  { exists "null". split; reflexivity. }
  assert (Hkey : cacheKeyOf "cq-User" [JUndefined]
                 = cacheKeyOf "cq-User" [JNull]) by reflexivity.
  split; [exact Hkey|].
  exact (proj2 (cache_keys_distinct "cq-User" "cq-User" [JUndefined] [JNull]
                  Hh Hh Ht Ht' Hkey)).
Defined.

(** Counting every user: the first call asks the source of truth and
    stores 2, the second reads 2 from the store. *)
Lemma count_read_through_witness :
  count everyUser NoInput Redis.empty
  = Ok (Num 2,
        (run_command (Hset (cacheKeyOf (hash everyUser) []) "count" (Text "2"))
           Redis.empty).1,
        [HgetCount (cacheKeyOf (hash everyUser) []);
         CountDocuments
           (countQuery everyUser
              {| po_query := JObj [];
                 po_key := cacheKeyOf (hash everyUser) [];
                 po_exec := noOpts |});
         HsetCount (cacheKeyOf (hash everyUser) []) (Num 2)])
  /\ count everyUser NoInput
       (run_command (Hset (cacheKeyOf (hash everyUser) []) "count" (Text "2"))
          Redis.empty).1
     = Ok (Num 2,
           (run_command (Hset (cacheKeyOf (hash everyUser) []) "count" (Text "2"))
              Redis.empty).1,
           [HgetCount (cacheKeyOf (hash everyUser) [])]).
Proof.
  assert (Hfirst : count everyUser NoInput Redis.empty
    = Ok (Num 2,
          (run_command (Hset (cacheKeyOf (hash everyUser) []) "count" (Text "2"))
             Redis.empty).1,
          [HgetCount (cacheKeyOf (hash everyUser) []);
           CountDocuments
             (countQuery everyUser
                {| po_query := JObj [];
                   po_key := cacheKeyOf (hash everyUser) [];
                   po_exec := noOpts |});
           HsetCount (cacheKeyOf (hash everyUser) []) (Num 2)]))
    by (vm_compute; reflexivity).
  split; [exact Hfirst|].
  refine (proj2 (proj2 (count_read_through everyUser NoInput _ Redis.empty
                          _ _ _ eq_refl eq_refl eq_refl (or_introl eq_refl)
                          _ _ Hfirst))).
  - vm_compute. discriminate.
  - vm_compute. reflexivity.
Defined.


(** A count of every user stored before the result is cached is gone once
    the result is cached. *)
Lemma count_dropped_with_result_witness :
  hget (serializeAndCache everyUser [doc "u1" "A"; doc "u2" "A"]
          (cacheKeyOf (hash everyUser) [])
          (run_command (Hset (cacheKeyOf (hash everyUser) []) "count"
                          (Text "7")) Redis.empty).1).1
       (cacheKeyOf (hash everyUser) []) "count" = None
  /\ exists st'' log,
       count everyUser NoInput
         (serializeAndCache everyUser [doc "u1" "A"; doc "u2" "A"]
            (cacheKeyOf (hash everyUser) [])
            (run_command (Hset (cacheKeyOf (hash everyUser) []) "count"
                            (Text "7")) Redis.empty).1).1
       = Ok (Num 2, st'', log)
       /\ CountDocuments
            (countQuery everyUser
               {| po_query := JObj [];
                  po_key := cacheKeyOf (hash everyUser) [];
                  po_exec := noOpts |}) ∈ log.
Proof.
  refine (count_dropped_with_result everyUser NoInput _ _ eq_refl eq_refl _).
  left. by eexists _, _, _.
Defined.

(** On every user, [execOne] caches what [exec] caches. *)
Lemma execOne_is_exec_limited_witness :
  effects (execOne everyUser NoInput Redis.empty)
  = effects (exec everyUser NoInput Redis.empty).
Proof.
  exact (proj2 (execOne_is_exec_limited everyUser NoInput Redis.empty) eq_refl).
Defined.

(** Every user cached, then user [u2] removed: the key is deleted and
    recorded. *)
Lemma cached_result_removed_with_document_witness :
  exists s',
    Handler.onCacheEffect (Handler.Remove "User" ["u2"])
      {| Handler.redis :=
           (serializeAndCache everyUser [doc "u1" "A"; doc "u2" "A"]
              (cacheKeyOf (hash everyUser) []) Redis.empty).1;
         Handler.keysInvalidated := ∅ |} = Ok s'
    /\ records (Handler.redis s') !! cacheKeyOf (hash everyUser) [] = None
    /\ cacheKeyOf (hash everyUser) [] ∈ Handler.keysInvalidated s'.
Proof.
  destruct (cached_result_removed_with_document everyUser
              [doc "u1" "A"; doc "u2" "A"] (cacheKeyOf (hash everyUser) [])
              Redis.empty ∅ "User" ["u2"] "u2")
    as (s' & Hrun & Hrec & _ & Hinv).
  - by left.
  - left. right. by left.
  - exists s'. split; [exact Hrun|]. split; [exact Hrec|].
    apply Hinv. discriminate.
Defined.

(** A definition of one parameter whose classification names no dynamic
    key: the insert of a user makes the handler throw. *)
Lemma insert_blocked_by_misclassified_witness :
  exists msg,
    Invalidation.onCacheEffect [("cq-User", misclassified)]
      (Invalidation.Insert "User" [doc "u9" "A"]) Redis.empty
    = (Throw msg, Redis.empty, []).
Proof.
  apply (insert_blocked_by_misclassified [("cq-User", misclassified)] "User"
           [doc "u9" "A"] Redis.empty "cq-User" misclassified (doc "u9" "A")).
  - by left.
  - by left.
  - reflexivity.
  - reflexivity.
  - reflexivity.
  - reflexivity.
  - reflexivity.
  - discriminate.
Defined.

(** A definition with a complex clause: the insert of a user deletes the
    key found in the set of all its keys, and leaves [K3]. *)
Lemma insert_invalidates_collected_witness :
  exists r st' log,
    Invalidation.onCacheEffect [("cq-User", complexUsers)]
      (Invalidation.Insert "User" [doc "u9" "A"]) insertStore = (r, st', log)
    /\ records st' !! "Q:cq-User[]" = None
    /\ records st' !! K3 = Some (entry ["z"]).
Proof.
  assert (Hreg : never_rehydrates [("cq-User", complexUsers)]).
  { repeat constructor. }
  assert (Hcollect :
            Invalidation.collectInsertInvalidations
              [("cq-User", complexUsers)] "User" [doc "u9" "A"]
            = Ok ([], ["A:cq-User"], ["cq-User"]))
    by (vm_compute; reflexivity).
  destruct (insert_invalidates_collected [("cq-User", complexUsers)] "User"
              [doc "u9" "A"] insertStore _ _ _ Hreg Hcollect)
    as (r & st' & log & Hrun & _ & Hdel & Hkeep).
  exists r, st', log. split; [exact Hrun|]. split.
  - apply Hdel. right. exists "A:cq-User". split; [by left|].
    vm_compute. reflexivity.
  - rewrite Hkeep; [reflexivity|].
    intros [Hk|(s & Hs & Hk)]; [by apply elem_of_nil in Hk|].
    apply list_elem_of_singleton in Hs as ->. vm_compute in Hk. done.
Defined.

(** The key of every user of a rehydrated definition: rehydration asks
    the source of truth and caches the two users under the key. *)
Lemma rehydrate_recaches_witness :
  exists st',
    Invalidation.rehydrateKey [("cq-User", rehydrated)] "Q:cq-User[]"
      Redis.empty
    = (Ok tt, st',
       [Find (buildQuery rehydrated
                {| po_query := JObj []; po_key := "Q:cq-User[]";
                   po_exec := {| skip := None; limit := Some Infinity;
                                 filter := None; skipCache := None |} |});
        Multi (cacheCommands rehydrated [doc "u1" "A"; doc "u2" "A"]
                 "Q:cq-User[]")])
    /\ hgetBuffer st' "Q:cq-User[]" "V" = Some [doc "u1" "A"; doc "u2" "A"].
Proof.
  assert (Hh : plain_hash (hash rehydrated))
    by (split; [discriminate|reflexivity]).
  assert (Ht : array_text (EJSON_stringify [])).
  { exists EmptyString. split; reflexivity. }
  assert (Hkey : getCacheKey rehydrated [] = Ok "Q:cq-User[]")
    by (vm_compute; reflexivity).
  assert (Hparse : parseOpts rehydrated (Params [])
                   = Ok {| po_query := JObj []; po_key := "Q:cq-User[]";
                           po_exec := noOpts |})
    by (vm_compute; reflexivity).
  assert (Hjson : JSON_parse (EJSON_stringify []) = Some [])
    by (vm_compute; reflexivity).
  destruct (rehydrate_recaches [("cq-User", rehydrated)] rehydrated []
              "Q:cq-User[]" _ Redis.empty Hkey Hparse Hh Ht Hjson
              eq_refl eq_refl (or_introl eq_refl))
    as (st' & Hrun & HV & _).
  exists st'. split; [exact Hrun|exact HV].
Defined.

(** Removing [x] and [y] with the earlier handler: [K1], which holds [x],
    loses its record; [K2], which references [y] through a populated path,
    keeps it. *)
Lemma earlier_remove_primary_only_witness :
  exists r st' log,
    Invalidation.onCacheEffect [] (Invalidation.Remove "User" ["x"; "y"])
      removeStore = (r, st', log)
    /\ records st' !! K1 = None
    /\ records st' !! K2 = Some (entry ["w"]).
Proof.
  assert (Hreg : never_rehydrates []) by constructor.
  destruct (proj1 (earlier_remove_primary_only [] "User" ["x"; "y"]
                     removeStore Hreg))
    as (r & st' & log & Hrun & _ & Hdel & Hkeep); [discriminate|].
  exists r, st', log. split; [exact Hrun|]. split.
  - apply Hdel. exists "x". split; [by left|]. vm_compute. reflexivity.
  - rewrite Hkeep; [reflexivity|].
    intros (id & Hid & Hk).
    apply elem_of_cons in Hid as [->|Hid];
      [|apply elem_of_cons in Hid as [->|Hid]; [|by apply elem_of_nil in Hid]];
      vm_compute in Hk; done.
Defined.

(** Every user cached under a key that held a count: the record holds
    the three fields of the result and nothing else. *)
Lemma cache_write_frame_witness :
  records (serializeAndCache everyUser [doc "u1" "A"; doc "u2" "A"]
             (cacheKeyOf (hash everyUser) [])
             (run_command (Hset (cacheKeyOf (hash everyUser) []) "count"
                             (Text "7")) Redis.empty).1).1
    !! cacheKeyOf (hash everyUser) []
  = Some {[ "V" := serialize [doc "u1" "A"; doc "u2" "A"];
            "O" := Text "u1 u2";
            "P" := Text EmptyString ]}.
Proof.
  exact (proj1 (cache_write_frame everyUser [doc "u1" "A"; doc "u2" "A"]
                  (cacheKeyOf (hash everyUser) [])
                  (run_command (Hset (cacheKeyOf (hash everyUser) []) "count"
                                  (Text "7")) Redis.empty).1)).
Defined.

(** Counting every user with a window of one document after five is
    counting every user. *)
Lemma count_ignores_window_witness :
  count everyUser
    (Opts {| skip := Some (Num 5); limit := Some (Num 1);
             filter := None; skipCache := None |} None) Redis.empty
  = count everyUser (Opts noOpts None) Redis.empty.
Proof.
  exact (proj2 (count_ignores_window everyUser Redis.empty
                  (Some (Num 5)) (Some (Num 1))) noOpts None).
Defined.

(** The key of organisation A parses to its parts; a key of another kind
    is refused. *)
Lemma parseCacheKey_sound_witness :
  (exists text,
     cacheKeyOf "cq-User" [JStr "A"] = "Q:" +:+ "cq-User" +:+ text
     /\ Invalidation.match_params text = true
     /\ JSON_parse text = Some [JStr "A"])
  /\ Invalidation.parseCacheKey "O:u1" = Throw "Failed to parse cache key".
Proof.
  assert (Hparse : Invalidation.parseCacheKey (cacheKeyOf "cq-User" [JStr "A"])
                   = Ok ("cq-User", [JStr "A"]))
    by (vm_compute; reflexivity).
  split.
  - destruct (proj1 parseCacheKey_sound _ _ _ Hparse)
      as (text & Hkey & _ & Hm & Hj & _).
    by exists text.
  - exact (proj2 parseCacheKey_sound "O:u1" eq_refl).
Defined.

(** The keys of an insert and the keys fetched from a set, one of them
    twice. *)
Lemma union_spec_witness :
  NoDup (Invalidation.union [[K1; K2]; [K2; K3]])
  /\ [K1; K2] `prefix_of` Invalidation.union [[K1; K2]; [K2; K3]].
Proof.
  assert (Hnd : NoDup [K1; K2]).
  { apply (bool_decide_unpack _). vm_compute. exact I. }
  destruct (union_spec [[K1; K2]; [K2; K3]]) as (Hu & _ & Hpre).
  split; [exact Hu|]. exact (Hpre _ _ eq_refl Hnd).
Defined.

(** The insert of a user of organisation A, with [usersOfOrg] registered:
    the one key collected is the key of organisation A. *)
Lemma collect_characterised_witness :
  Invalidation.collectInsertInvalidations [("cq-User", usersOfOrg)] "User"
    [doc "u9" "A"]
  = Ok ([cacheKeyOf (hash usersOfOrg) [JStr "A"]], [], ["cq-User"])
  /\ exists h q d,
       (h, q) ∈ [("cq-User", usersOfOrg)] /\ d ∈ [doc "u9" "A"]
       /\ Invalidation.getInsertInvalidation q "User" d
          = Ok (Invalidation.Key (hash q)
                  (cacheKeyOf (hash usersOfOrg) [JStr "A"])).
Proof.
  assert (Hcollect :
            Invalidation.collectInsertInvalidations
              [("cq-User", usersOfOrg)] "User" [doc "u9" "A"]
            = Ok ([cacheKeyOf (hash usersOfOrg) [JStr "A"]], [], ["cq-User"]))
    by (vm_compute; reflexivity).
  split; [exact Hcollect|].
  pose proof (collect_characterised [("cq-User", usersOfOrg)] "User"
                [doc "u9" "A"]) as Hc.
  rewrite Hcollect in Hc. destruct Hc as (_ & _ & Hkeys & _).
  apply Hkeys. by left.
Defined.

End CacheScenarios.
